(** * GlobalDub: the dubbing pipeline of [dub.py]

    A shallow embedding of the parts of [dub.py] that decide how a dubbed
    voice track is fitted to its video ([adjust_audio_speed], [mix_audio]),
    how a long transcript is cut into translation requests
    ([translate_text]) and how a batch of videos is run ([batch_process]).

    Conventions.
    - A Python [str] is a list of code points ([str]); [py "..."] writes a
      literal.
    - A Python [float] holding a duration or a speed is the rational it
      denotes ([Q]); comparisons of doubles are comparisons of these
      rationals.  The quotient [dubbed_duration / video_duration] is taken
      exactly in [fit_dub] and [mix_audio], and rounded to the nearest
      double in [fit_dub_b64] and [mix_audio_b64], which are the program
      on doubles ([is_double]) up to the last bit.
    - Effects (the file system, the external processes, moviepy's renderer)
      are threaded through a state-and-exception monad [M], which also keeps
      the trace of the processes run and of the videos rendered.
    - What the source leaves to moviepy and ffmpeg is a field of the class
      [Tools]; the translator, the per-video pipeline and the reading of the
      batch file are variables of their sections.  [Demo] gives small
      concrete instances of all of them, on which the definitions run. *)

From Stdlib Require Import ZArith NArith QArith Qminmax Qround Qpower Qabs List String Ascii Strings.Byte Lia Lqa Floats.
From stdpp Require Import base option list gmap.

Set Default Proof Using "Type".

(** ** Python strings *)

Definition char := N.
Definition str := list char.

Definition code (a : ascii) : char := N_of_ascii a.
Definition py (s : string) : str := map code (list_ascii_of_string s).
Arguments py : simpl never.

(** [len(s)] *)
Definition len (s : str) : Z := Z.of_nat (length s).

(** [str.isspace] on one code point, which is also what [\s] matches in a
    [str] pattern. *)
Definition is_space (c : char) : bool :=
  ((9 <=? c) && (c <=? 13) || (28 <=? c) && (c <=? 32)
   || (c =? 133) || (c =? 160) || (c =? 5760)
   || (8192 <=? c) && (c <=? 8202) || (c =? 8232) || (c =? 8233)
   || (c =? 8239) || (c =? 8287) || (c =? 12288))%N.

(** ** Exceptions and the monad of effects *)

Inductive arg :=
| Arg (s : str)
| Atempo (speed_factor : Q).   (* f"atempo={speed_factor}" *)

Definition command := list arg.

(** The exceptions (all derived from Python's [Exception]) that the modelled
    code can meet. *)
Inductive exn :=
| ZeroDivisionError
| FileNotFoundError (path : str)
| SameFileError (path : str)
| OSError (path : str)
| CalledProcessError (cmd : command)
| Exception (msg : str).

Inductive result (A : Type) :=
| Ok (a : A)
| Raise (e : exn).
Arguments Ok {A} a.
Arguments Raise {A} e.

Definition is_raise {A} (r : result A) : bool :=
  match r with Ok _ => false | Raise _ => true end.

Definition bytes := list byte.

(** moviepy's audio clips, as the expressions the source builds. *)
#[warnings="-register-all"]
Inductive audio_clip :=
| AudioFile (path : str) (data : bytes) (dur : Q)   (* an opened AudioFileClip *)
| VideoTrack (path : str) (data : bytes) (dur : Q)  (* [video.audio] *)
| volumex (c : audio_clip) (factor : Q)
| subclip (c : audio_clip) (t_start t_end : Q)
| CompositeAudioClip (clips : list audio_clip).

Record video_clip := {
  v_path : str;
  v_data : bytes;
  v_duration : Q;
  v_audio : option audio_clip
}.

Definition set_audio (v : video_clip) (a : audio_clip) : video_clip :=
  {| v_path := v_path v; v_data := v_data v; v_duration := v_duration v;
     v_audio := Some a |}.

(** The [duration] attribute of a clip. *)
Fixpoint duration (c : audio_clip) : Q :=
  match c with
  | AudioFile _ _ d => d
  | VideoTrack _ _ d => d
  | volumex c _ => duration c
  | subclip _ t_start t_end => (t_end - t_start)%Q
  | CompositeAudioClip clips =>
      (fix ends (l : list audio_clip) : Q :=
         match l with
         | [] => 0%Q
         | c :: l => Qmax (duration c) (ends l)
         end) clips
  end.

(** What the program does to the outside world, in order. *)
Inductive event :=
| Spawn (cmd : command)                            (* subprocess.run *)
| Render (v : video_clip) (output_path : str).     (* write_videofile *)

Record world := {
  files : gmap str bytes;
  trace : list event
}.

Definition M (A : Type) : Type := world → world * result A.

Definition ret {A} (a : A) : M A := λ w, (w, Ok a).
Definition raise {A} (e : exn) : M A := λ w, (w, Raise e).
Definition bind {A B} (m : M A) (k : A → M B) : M B :=
  λ w, match m w with
       | (w', Ok a) => k a w'
       | (w', Raise e) => (w', Raise e)
       end.

Declare Scope py_scope.
Delimit Scope py_scope with py.
Notation "x <- m ;; k" := (bind m (λ x, k))
  (at level 100, m at next level, right associativity) : py_scope.
Notation "m ;;; k" := (bind m (λ _, k))
  (at level 100, right associativity) : py_scope.
Open Scope py_scope.

(** ** Configuration *)

Definition TEMP_DIR : str := py "temp".
Definition ORIGINAL_AUDIO_VOLUME : Q := 1 # 10.
Definition MAX_SPEED_FACTOR : Q := 5 # 4.

(** [str(TEMP_DIR / name)] *)
Definition path_join (dir name : str) : str := dir ++ py "/" ++ name.

(** ** Comparisons and division of durations *)

(** [a > b] *)
Definition Qgt_bool (a b : Q) : bool := negb (Qle_bool a b).

(** [a / b], which raises on a zero divisor. *)
Definition py_div (a b : Q) : M Q :=
  if Qeq_bool b 0 then raise ZeroDivisionError else ret (a / b)%Q.

(** What a call of [shutil.copy] on an existing file comes to: the file
    written, or an exception and the files a failed copy leaves. *)
Inductive copy_outcome :=
| Copied (target : str)
| CopyFailed (e : exn) (debris : gmap str bytes).

(** What the mixer needs from outside the program. *)
Class Tools := {
  (** The duration moviepy reads from an audio file, [None] if it cannot
      read it. *)
  audio_info : bytes → option Q;
  (** The duration moviepy reads from a video file, and whether the file
      has an audio stream. *)
  video_info : bytes → option (Q * bool);
  (** A run of an external process on the file system: the files it leaves
      and, with [check=True], the exception of a failed run. *)
  subprocess_run : command → gmap str bytes → gmap str bytes * option exn;
  (** moviepy's encoder: the files it leaves and the exception of a failed
      write. *)
  write_file : video_clip → str → gmap str bytes → gmap str bytes * option exn;
  (** What [shutil.copy(src, dst)] does for an existing [src] and another
      [dst].  It writes one file: [dst], or the file named as [src] in
      [dst] when [dst] is a directory.  Or it raises, for a reason the map
      of the files does not show: [dst] is another name of the file [src]
      ([SameFileError]), the directory of [dst] is missing
      ([FileNotFoundError]), a permission is, the disk is full. *)
  copy_file : str → str → gmap str bytes → copy_outcome
}.

Section Mixer.

Context {tools : Tools}.

Definition AudioFileClip (path : str) : M audio_clip :=
  λ w, match files w !! path with
       | None => (w, Raise (OSError path))
       | Some data =>
           match audio_info data with
           | None => (w, Raise (OSError path))
           | Some d => (w, Ok (AudioFile path data d))
           end
       end.

Definition VideoFileClip (path : str) : M video_clip :=
  λ w, match files w !! path with
       | None => (w, Raise (OSError path))
       | Some data =>
           match video_info data with
           | None => (w, Raise (OSError path))
           | Some (d, has_audio) =>
               (w, Ok {| v_path := path; v_data := data; v_duration := d;
                         v_audio := if has_audio
                                    then Some (VideoTrack path data d)
                                    else None |})
           end
       end.

(** [shutil.copy(src, dst)]: it raises when [src] is missing, when [dst] is
    [src], and when the system says so; otherwise the file it writes holds
    the bytes of [src]. *)
Definition shutil_copy (src dst : str) : M unit :=
  λ w, match files w !! src with
       | None => (w, Raise (FileNotFoundError src))
       | Some data =>
           if decide (src = dst) then (w, Raise (SameFileError src))
           else
             match copy_file src dst (files w) with
             | CopyFailed e debris =>
                 ({| files := debris; trace := trace w |}, Raise e)
             | Copied target =>
                 ({| files := <[target := data]> (files w);
                     trace := trace w |},
                  Ok tt)
             end
       end.

(** [subprocess.run(cmd, check=True, capture_output=True)] *)
Definition run (cmd : command) : M unit :=
  λ w, let '(fs, failure) := subprocess_run cmd (files w) in
       let w' := {| files := fs; trace := trace w ++ [Spawn cmd] |} in
       match failure with
       | Some e => (w', Raise e)
       | None => (w', Ok tt)
       end.

(** [clip.write_videofile(output_path, ...)] *)
Definition write_videofile (v : video_clip) (output_path : str) : M unit :=
  λ w, let '(fs, failure) := write_file v output_path (files w) in
       let w' := {| files := fs;
                    trace := trace w ++ [Render v output_path] |} in
       match failure with
       | Some e => (w', Raise e)
       | None => (w', Ok tt)
       end.

(** dub.py, lines 249-267 *)
Definition ffmpeg_atempo (audio_path : str) (speed_factor : Q)
    (output_path : str) : command :=
  [Arg (py "ffmpeg"); Arg (py "-y");
   Arg (py "-i"); Arg audio_path;
   Arg (py "-filter:a"); Atempo speed_factor;
   Arg (py "-vn");
   Arg output_path].

Definition adjust_audio_speed (audio_path : str) (speed_factor : Q)
    (output_path : str) : M unit :=
  if Qeq_bool speed_factor 1 then
    shutil_copy audio_path output_path
  else
    run (ffmpeg_atempo audio_path speed_factor output_path).

(** Lines 288-291: the original sound track, at [original_volume]. *)
Definition attenuated (video : video_clip) (original_volume : Q)
    : option audio_clip :=
  match v_audio video with
  | Some original_audio => Some (volumex original_audio original_volume)
  | None => None
  end.

(** Lines 296-313: the dubbed track made to fit [video_duration]. *)
Definition fit_dub (dubbed_audio_path : str) (video_duration : Q)
    (dubbed_audio : audio_clip) : M audio_clip :=
  let dubbed_duration := duration dubbed_audio in
  if Qgt_bool dubbed_duration video_duration then
    speed_needed <- py_div dubbed_duration video_duration ;;
    if Qle_bool speed_needed MAX_SPEED_FACTOR then
      let temp_adjusted := path_join TEMP_DIR (py "adjusted_dub.mp3") in
      adjust_audio_speed dubbed_audio_path speed_needed temp_adjusted ;;;
      AudioFileClip temp_adjusted
    else
      ret (subclip dubbed_audio 0 video_duration)
  else ret dubbed_audio.

(** Lines 315-319. *)
Definition composite (original_audio : option audio_clip)
    (dubbed_audio : audio_clip) : audio_clip :=
  match original_audio with
  | Some original_audio => CompositeAudioClip [original_audio; dubbed_audio]
  | None => dubbed_audio
  end.

(** dub.py, lines 270-341 *)
Definition mix_audio (original_video_path dubbed_audio_path output_path : str)
    (original_volume : Q) (video_duration : option Q) : M str :=
  video <- VideoFileClip original_video_path ;;
  let video_duration := default (v_duration video) video_duration in
  let original_audio := attenuated video original_volume in
  dubbed_audio <- AudioFileClip dubbed_audio_path ;;
  dubbed_audio <- fit_dub dubbed_audio_path video_duration dubbed_audio ;;
  let final_audio := composite original_audio dubbed_audio in
  let final_video := set_audio video final_audio in
  write_videofile final_video output_path ;;;
  ret output_path.

End Mixer.

(** ** Durations in double precision

    The durations of the program are Python floats, that is IEEE 754
    doubles.  A finite double is a rational and two doubles compare as their
    rationals do, so that [Qle_bool] and [Qgt_bool] are the comparisons of
    the program.  A quotient is another matter: [d / v] is the double
    nearest to the quotient of the rationals, and it is that double which is
    compared with [MAX_SPEED_FACTOR] and handed to ffmpeg.  [fit_dub] above
    takes the quotient as it is; [fit_dub_b64] below rounds it, and is the
    program also when the quotient lies within one rounding of a bound. *)

Section Binary64.

Local Open Scope Q_scope.

(** The rational [m * 2^e]. *)
Definition dbl (m e : Z) : Q := inject_Z m * 2 ^ e.

(** The finite doubles: 53 bits of mantissa, the exponent of the last bit
    between -1074 and 971. *)
Definition is_double (x : Q) : Prop :=
  ∃ m e : Z, (Z.abs m < 2 ^ 53)%Z ∧ (-1074 <= e <= 971)%Z ∧ x == dbl m e.

(** The result of an operation on doubles: a finite double or an
    infinity (the sign of a zero is not kept). *)
Inductive b64 :=
| Finite (q : Q)
| PInf
| NInf.

(** The integer nearest to [y], the even one of the two when [y] lies
    halfway. *)
Definition rne (y : Q) : Z :=
  let f := Qfloor y in
  match Qcompare (y - inject_Z f) (1 # 2) with
  | Lt => f
  | Gt => (f + 1)%Z
  | Eq => if Z.even f then f else (f + 1)%Z
  end.

(** The exponent [e] with [2^e <= x < 2^(e+1)], for a positive [x]. *)
Definition binade (x : Q) : Z :=
  let e := (Z.log2 (Qnum x) - Z.log2 (Zpos (Qden x)))%Z in
  if Qle_bool (2 ^ e) x then e else (e - 1)%Z.

(** Rounding to nearest, ties to even, of a positive rational: the doubles
    of the binade of [x] are the multiples of [2^(e-52)], those below
    [2^-1022] the multiples of [2^-1074], and what rounds to [2^1024] or
    more is an infinity. *)
Definition round_pos (x : Q) : b64 :=
  let e := Z.max (binade x) (-1022) in
  let quantum := 2 ^ (e - 52) in
  let r := inject_Z (rne (x / quantum)) * quantum in
  if Qle_bool (2 ^ 1024) r then PInf else Finite (Qred r).

Definition b64_opp (s : b64) : b64 :=
  match s with
  | Finite q => Finite (- q)
  | PInf => NInf
  | NInf => PInf
  end.

(** The double nearest to a rational. *)
Definition round (x : Q) : b64 :=
  match Qcompare x 0 with
  | Eq => Finite 0
  | Gt => round_pos (Qred x)
  | Lt => b64_opp (round_pos (Qred (- x)))
  end.

(** Half the distance between two neighbouring doubles from 1 to 2. *)
Definition half_ulp : Q := 2 ^ (-53).

(** [s <= bound] *)
Definition b64_le (s : b64) (bound : Q) : bool :=
  match s with
  | Finite q => Qle_bool q bound
  | PInf => false
  | NInf => true
  end.

(** [a / b] on doubles: the exact quotient, rounded; a zero divisor
    raises. *)
Definition float_div (a b : Q) : M b64 :=
  if Qeq_bool b 0 then raise ZeroDivisionError else ret (round (a / b)).

(** [a * b] on doubles. *)
Definition float_mul (a b : Q) : b64 := round (a * b).

End Binary64.

(** The doubles of the machine, to compare [round] with on given inputs:
    [div d v] is the quotient the processor computes for the doubles
    [d.1 * 2^d.2] and [v.1 * 2^v.2], of positive mantissas. *)
Module Hardware.

Definition of_dbl (m e : Z) : float :=
  Z.ldexp (PrimFloat.of_uint63 (Uint63.of_Z m)) e.

Definition to_b64 (f : float) : option b64 :=
  match Prim2SF f with
  | S754_zero _ => Some (Finite 0)
  | S754_infinity false => Some PInf
  | S754_infinity true => Some NInf
  | S754_nan => None
  | S754_finite sign m e =>
      Some (Finite (Qred (if sign then - dbl (Zpos m) e else dbl (Zpos m) e)))
  end.

Definition div (d v : Z * Z) : option b64 :=
  to_b64 (PrimFloat.div (of_dbl d.1 d.2) (of_dbl v.1 v.2)).

Definition mul (a b : Z * Z) : option b64 :=
  to_b64 (PrimFloat.mul (of_dbl a.1 a.2) (of_dbl b.1 b.2)).

(** Pairs of doubles [(d, v)]: the two pairs of [Demo] below, the
    durations of the scenarios, quotients that overflow, that are
    subnormal and that vanish, and ordinary durations. *)
Definition samples : list ((Z * Z) * (Z * Z)) :=
  [((7999244561076253, -44), (3199697824430501, -43));
   ((345037577271333, -46), (2208240494536531, -49));
   ((33, 0), (15, 1));
   ((5, 3), (5, 2));
   ((9007199254740991, 971), (9007199254740991, -53));
   ((1, -1022), (3, 0));
   ((1, -1074), (1, 1));
   ((3, -1074), (1, 1));
   ((253, -1071), (7, 0));
   ((1, 0), (3, 0));
   ((1, 1), (3, 0));
   ((3107897595290089, -41), (1424975015293039, -40));
   ((2987664673597293, -40), (1431611944857999, -39));
   ((5749154178040159, -41), (1178672141268689, -39));
   ((2672765413031139, -43), (4097883358220325, -44));
   ((3346370899011007, -44), (5310909904244697, -45));
   ((5200439749397591, -44), (4932001707381399, -44))]%Z.

End Hardware.

Section MixerBinary64.

Context {tools : Tools}.

(** dub.py, lines 249-267, for any float: an infinite factor is not 1.0 and
    is printed as [inf] in the filter. *)
Definition adjust_audio_speed_b64 (audio_path : str) (speed_factor : b64)
    (output_path : str) : M unit :=
  match speed_factor with
  | Finite speed_factor =>
      adjust_audio_speed audio_path speed_factor output_path
  | PInf =>
      run [Arg (py "ffmpeg"); Arg (py "-y");
           Arg (py "-i"); Arg audio_path;
           Arg (py "-filter:a"); Arg (py "atempo=inf");
           Arg (py "-vn");
           Arg output_path]
  | NInf =>
      run [Arg (py "ffmpeg"); Arg (py "-y");
           Arg (py "-i"); Arg audio_path;
           Arg (py "-filter:a"); Arg (py "atempo=-inf");
           Arg (py "-vn");
           Arg output_path]
  end.

(** Lines 296-313, with the quotient of line 301 rounded. *)
Definition fit_dub_b64 (dubbed_audio_path : str) (video_duration : Q)
    (dubbed_audio : audio_clip) : M audio_clip :=
  let dubbed_duration := duration dubbed_audio in
  if Qgt_bool dubbed_duration video_duration then
    speed_needed <- float_div dubbed_duration video_duration ;;
    if b64_le speed_needed MAX_SPEED_FACTOR then
      let temp_adjusted := path_join TEMP_DIR (py "adjusted_dub.mp3") in
      adjust_audio_speed_b64 dubbed_audio_path speed_needed temp_adjusted ;;;
      AudioFileClip temp_adjusted
    else
      ret (subclip dubbed_audio 0 video_duration)
  else ret dubbed_audio.

(** dub.py, lines 270-341, with the quotient of line 301 rounded. *)
Definition mix_audio_b64
    (original_video_path dubbed_audio_path output_path : str)
    (original_volume : Q) (video_duration : option Q) : M str :=
  video <- VideoFileClip original_video_path ;;
  let video_duration := default (v_duration video) video_duration in
  let original_audio := attenuated video original_volume in
  dubbed_audio <- AudioFileClip dubbed_audio_path ;;
  dubbed_audio <- fit_dub_b64 dubbed_audio_path video_duration dubbed_audio ;;
  let final_audio := composite original_audio dubbed_audio in
  let final_video := set_audio video final_audio in
  write_videofile final_video output_path ;;;
  ret output_path.

End MixerBinary64.

(** ** Cutting a transcript into translation requests *)

Definition nonempty (s : str) : bool :=
  match s with [] => false | _ => true end.

Fixpoint lstrip (s : str) : str :=
  match s with
  | c :: rest => if is_space c then lstrip rest else s
  | [] => []
  end.

Definition rstrip (s : str) : str := rev (lstrip (rev s)).

(** [s.strip()] *)
Definition strip (s : str) : str := rstrip (lstrip s).

(** [sep.join(parts)] *)
Fixpoint join (sep : str) (parts : list str) : str :=
  match parts with
  | [] => []
  | [p] => p
  | p :: rest => p ++ sep ++ join sep rest
  end.

(** One of [.!?], the class of the look-behind. *)
Definition is_terminator (c : char) : bool :=
  ((c =? 46) || (c =? 33) || (c =? 63))%N.

(** [re.split(r'(?<=[.!?])\s+', text)], scanning left to right: [piece] is
    the piece being read, [after_terminator] tells that the previous
    character is one of [.!?], [in_separator] that a separator (a maximal
    run of white space that follows a terminator) is being skipped. *)
Fixpoint split_scan (in_separator after_terminator : bool) (piece text : str)
    : list str :=
  match text with
  | [] => [piece]
  | c :: rest =>
      if is_space c then
        if in_separator then split_scan true false piece rest
        else if after_terminator then piece :: split_scan true false [] rest
        else split_scan false false (piece ++ [c]) rest
      else split_scan false (is_terminator c) (piece ++ [c]) rest
  end.

Definition split_sentences (text : str) : list str :=
  split_scan false false [] text.

Definition max_chunk_size : Z := 4500.

(** The body of the loop of lines 195-201, on the pair
    [(chunks, current_chunk)]. *)
Definition chunk_step (st : list str * str) (sentence : str) : list str * str :=
  let '(chunks, current_chunk) := st in
  if (len current_chunk + len sentence <? max_chunk_size)%Z then
    (chunks, current_chunk ++ py " " ++ sentence)
  else
    ((if nonempty current_chunk then chunks ++ [strip current_chunk]
      else chunks),
     sentence).

(** Lines 192-204. *)
Definition make_chunks (sentences : list str) : list str :=
  let '(chunks, current_chunk) := fold_left chunk_step sentences ([], []) in
  if nonempty current_chunk then chunks ++ [strip current_chunk] else chunks.

(** The same loop, which also remembers the sentences each chunk was
    assembled from: the state is [(chunks, (current_chunk, sentences of
    current_chunk))].  Erasing the sentences gives back [make_chunks]
    ([make_chunks_traced_erase]). *)
Definition chunk_step_traced (st : list (str * list str) * (str * list str))
    (sentence : str) : list (str * list str) * (str * list str) :=
  let '(chunks, (current_chunk, group)) := st in
  if (len current_chunk + len sentence <? max_chunk_size)%Z then
    (chunks, (current_chunk ++ py " " ++ sentence, group ++ [sentence]))
  else
    ((if nonempty current_chunk then chunks ++ [(strip current_chunk, group)]
      else chunks),
     (sentence, [sentence])).

Definition make_chunks_traced (sentences : list str) : list (str * list str) :=
  let '(chunks, (current_chunk, group)) :=
    fold_left chunk_step_traced sentences ([], ([], [])) in
  if nonempty current_chunk then chunks ++ [(strip current_chunk, group)]
  else chunks.

(** The state of the loop without the remembered sentences. *)
Definition erase (st : list (str * list str) * (str * list str))
    : list str * str :=
  (st.1.*1, st.2.1).

(** The end of the loop (lines 203-204), on a state of the traced loop. *)
Definition finish_traced (st : list (str * list str) * (str * list str))
    : list (str * list str) :=
  if nonempty st.2.1 then st.1 ++ [(strip st.2.1, st.2.2)] else st.1.

(** The sentences a state of the traced loop holds, in order. *)
Definition sentences_of (st : list (str * list str) * (str * list str))
    : list str :=
  concat (st.1.*2) ++ st.2.2.

(** What holds of a chunk and of the sentences it was assembled from: it
    is their blank-separated concatenation, stripped, and it fits in
    [max_chunk_size] unless it is made of one sentence that does not. *)
Definition chunk_ok (cg : str * list str) : Prop :=
  cg.1 = strip (join (py " ") cg.2)
  ∧ ((len cg.1 <= max_chunk_size)%Z
     ∨ ∃ sentence, cg.2 = [sentence] ∧ (max_chunk_size <= len sentence)%Z).

(** What holds of the chunk under construction. *)
Definition current_ok (cg : str * list str) : Prop :=
  ((cg.2 = [] ∧ cg.1 = [])
   ∨ (cg.2 ≠ []
      ∧ (cg.1 = join (py " ") cg.2 ∨ cg.1 = py " " ++ join (py " ") cg.2)))
  ∧ ((len cg.1 <= max_chunk_size)%Z
     ∨ (cg.2 = [cg.1] ∧ (max_chunk_size <= len cg.1)%Z)).

Definition state_ok (st : list (str * list str) * (str * list str)) : Prop :=
  Forall chunk_ok st.1 ∧ current_ok st.2.

Section Translator.

(** [translator.translate]: the outcome of the [i]-th request made to the
    translator built at line 182, as a function of the text sent. *)
Variable translate : nat → str → result str.

(** The body of the loop of lines 208-215, on the pair
    [(number of requests made, translated_chunks)]. *)
Definition translate_step (st : nat * list str) (chunk : str) : nat * list str :=
  let '(i, translated_chunks) := st in
  match translate i chunk with
  | Ok translated_chunk => (S i, translated_chunks ++ [translated_chunk])
  | Raise _ => (S i, translated_chunks ++ [chunk])
  end.

(** What the loop appends for the chunk of the [i]-th request: its
    translation, or the chunk itself when the request raises. *)
Definition translated_or_kept (i : nat) (chunk : str) : str :=
  match translate i chunk with
  | Ok translated_chunk => translated_chunk
  | Raise _ => chunk
  end.

(** dub.py, lines 175-222 *)
Definition translate_text (text : str) : result str :=
  if (len text <=? max_chunk_size)%Z then
    translate 0 text
  else
    let sentences := split_sentences text in
    let chunks := make_chunks sentences in
    let '(_, translated_chunks) := fold_left translate_step chunks (0%nat, []) in
    Ok (join (py " ") translated_chunks).

End Translator.

(** ** Running a batch *)

(** One entry of [results]: [{"url": url, "output": output, "status":
    "success"}] or [{"url": url, "error": str(e), "status": "failed"}]. *)
Inductive outcome :=
| Success (url output : str)
| Failed (url error : str).

Definition url_of (r : outcome) : str :=
  match r with Success url _ => url | Failed url _ => url end.

(** [r["status"]] *)
Definition status (r : outcome) : str :=
  match r with Success _ _ => py "success" | Failed _ _ => py "failed" end.

(** [sum(1 for r in results if r["status"] == s)] *)
Definition count_status (s : str) (results : list outcome) : nat :=
  length (filter (λ r, status r = s) results).

(** [line.startswith('#')] *)
Definition startswith_hash (line : str) : bool :=
  match line with c :: _ => (c =? 35)%N | [] => false end.

(** Line 411: the jobs of a batch file. *)
Definition read_urls (lines : list str) : list str :=
  map strip
    (filter (λ line, nonempty (strip line) && negb (startswith_hash line) = true)
       lines).

Section Batch.

(** The state of everything the pipeline touches. *)
Context {W : Type}.
(** The lines of a text file, or the exception [open] raises. *)
Variable open_lines : str → W → result (list str).
(** [process_video(url, target_lang)] *)
Variable process_video : str → str → W → W * result str.
(** [str(e)] *)
Variable exn_str : exn → str.

(** The body of the loop of lines 416-426, on the pair [(state, results)]. *)
Definition batch_step (target_lang : str) (st : W * list outcome) (url : str)
    : W * list outcome :=
  let '(w, results) := st in
  match process_video url target_lang w with
  | (w', Ok output) => (w', results ++ [Success url output])
  | (w', Raise e) => (w', results ++ [Failed url (exn_str e)])
  end.

Definition batch_loop (target_lang : str) (urls : list str) (w : W)
    : W * list outcome :=
  fold_left (batch_step target_lang) urls (w, []).

(** dub.py, lines 406-439 *)
Definition batch_process (urls_file target_lang : str) (w : W)
    : W * result (list outcome) :=
  match open_lines urls_file w with
  | Raise e => (w, Raise e)
  | Ok lines =>
      let urls := read_urls lines in
      let '(w', results) := batch_loop target_lang urls w in
      (w', Ok results)
  end.

(** The batch runner as the spec describes it (4.5): the jobs are run one
    at a time, in input order, each from the state the previous one left;
    a job that raises is recorded as failed and the next job is run. *)
Inductive runs (target_lang : str) : W → list str → list outcome → W → Prop :=
| runs_done w :
    runs target_lang w [] [] w
| runs_success w url output w1 urls results w' :
    process_video url target_lang w = (w1, Ok output) →
    runs target_lang w1 urls results w' →
    runs target_lang w (url :: urls) (Success url output :: results) w'
| runs_failed w url e w1 urls results w' :
    process_video url target_lang w = (w1, Raise e) →
    runs target_lang w1 urls results w' →
    runs target_lang w (url :: urls) (Failed url (exn_str e) :: results) w'.

End Batch.

(** ** A small concrete outside world

    Used to run the definitions: an audio file of [n] bytes lasts [n]
    seconds; a video file is a flag byte (1 when it has a sound track)
    followed by one byte per second. *)
Module Demo.

Definition seconds (n : nat) : Q := inject_Z (Z.of_nat n).

Definition probe_audio (data : bytes) : option Q :=
  Some (seconds (length data)).

Definition probe_video (data : bytes) : option (Q * bool) :=
  match data with
  | [] => None
  | flag :: frames =>
      Some (seconds (length frames),
            match flag with x01 => true | _ => false end)
  end.

(** An ffmpeg that writes thirty seconds of sound to its last argument. *)
Definition ffmpeg (cmd : command) (fs : gmap str bytes)
    : gmap str bytes * option exn :=
  match last cmd with
  | Some (Arg output_path) => (<[output_path := repeat x00 30]> fs, None)
  | _ => (fs, Some (CalledProcessError cmd))
  end.

(** An ffmpeg that always exits with an error. *)
Definition broken_ffmpeg (cmd : command) (fs : gmap str bytes)
    : gmap str bytes * option exn :=
  (fs, Some (CalledProcessError cmd)).

Definition encoder (v : video_clip) (output_path : str) (fs : gmap str bytes)
    : gmap str bytes * option exn :=
  (<[output_path := v_data v]> fs, None).

(** The two directories are there, they have no directory in them and
    every file may be written: a copy is written where it is asked, and
    fails on another spelling of its source only. *)
Definition copy_check (src dst : str) (fs : gmap str bytes) : copy_outcome :=
  if decide (dst = py "./" ++ src) then CopyFailed (SameFileError src) fs
  else Copied dst.

Definition tools : Tools :=
  {| audio_info := probe_audio; video_info := probe_video;
     subprocess_run := ffmpeg; write_file := encoder;
     copy_file := copy_check |}.

Definition tools_broken_ffmpeg : Tools :=
  {| audio_info := probe_audio; video_info := probe_video;
     subprocess_run := broken_ffmpeg; write_file := encoder;
     copy_file := copy_check |}.

(** Tools that read one given duration from every audio file. *)
Definition tools_reading (dubbed_duration : Q) : Tools :=
  {| audio_info := λ _, Some dubbed_duration; video_info := probe_video;
     subprocess_run := ffmpeg; write_file := encoder;
     copy_file := copy_check |}.

(** The doubles 363.7635273242382 and 454.7044091552978: the second is more
    than 1.25 times the first, and their quotient rounds to 1.25. *)
Definition video_363 : Q := dbl 3199697824430501 (-43).
Definition dub_454 : Q := dbl 7999244561076253 (-44).

(** The doubles 3.9226231055105583 and 4.903278881888198: the second is the
    first times 1.25, rounded, and their quotient rounds to
    1.2500000000000002. *)
Definition video_3_92 : Q := dbl 2208240494536531 (-49).
Definition dub_4_90 : Q := dbl 345037577271333 (-46).

Definition video_path : str := py "temp/source_video.mp4".
Definition dub_path : str := py "temp/dubbed_audio.mp3".
Definition out_path : str := py "output/dubbed.mp4".

(** A world with a video of [v] seconds (with a sound track when [sound])
    and a dubbed track of [d] seconds. *)
Definition studio (sound : bool) (v d : nat) : world :=
  {| files := <[video_path := (if sound then x01 else x00) :: repeat x00 v]>
                (<[dub_path := repeat x00 d]> ∅);
     trace := [] |}.

Definition the_video (sound : bool) (v : nat) : video_clip :=
  let data := (if sound then x01 else x00) :: repeat x00 v in
  {| v_path := video_path; v_data := data; v_duration := seconds v;
     v_audio := if sound then Some (VideoTrack video_path data (seconds v))
                else None |}.

Definition the_dub (d : nat) : audio_clip :=
  AudioFile dub_path (repeat x00 d) (seconds d).

(** A translator whose first request times out, and which brackets what it
    is sent otherwise. *)
Definition translator (i : nat) (text : str) : result str :=
  match i with
  | O => Raise (Exception (py "timed out"))
  | S _ => Ok (py "<" ++ text ++ py ">")
  end.

(** A batch file of three jobs, a comment and a blank line. *)
Definition urls_txt : list str :=
  [py "https://youtu.be/a" ++ [10%N];
   py "# a comment" ++ [10%N];
   py "https://youtu.be/bad" ++ [10%N];
   [10%N];
   py "https://youtu.be/c" ++ [10%N]].

Definition open_lines (path : str) (w : list str) : result (list str) :=
  if decide (path = py "urls.txt") then Ok urls_txt
  else Raise (FileNotFoundError path).

(** A pipeline that logs the jobs it is given, and fails on one. *)
Definition process_video (url target_lang : str) (w : list str)
    : list str * result str :=
  (w ++ [url],
   if decide (url = py "https://youtu.be/bad")
   then Raise (Exception (py "download failed"))
   else Ok (py "output/dubbed_" ++ target_lang ++ py ".mp4")).

Definition exn_str (e : exn) : str :=
  match e with
  | Exception msg => msg
  | _ => py "error"
  end.

(** Two sentences of 3001 and 3000 characters. *)
Definition two_sentences : str :=
  repeat 97%N 3000 ++ py ". " ++ repeat 98%N 3000.

(** 4501 characters without a sentence boundary. *)
Definition one_long_sentence : str := repeat 97%N 4501.

End Demo.

(** ** The rest of the pipeline: [download_video], [transcribe_audio],
    [generate_tts], [cleanup_temp] and [process_video] *)

(** *** Strings and paths *)

(** [s.startswith(prefix)], with what follows the prefix. *)
Fixpoint strip_prefix (prefix s : str) : option str :=
  match prefix, s with
  | [], _ => Some s
  | a :: prefix, b :: s => if (a =? b)%N then strip_prefix prefix s else None
  | _ :: _, [] => None
  end.

Definition startswith (prefix s : str) : bool :=
  match strip_prefix prefix s with Some _ => true | None => false end.

(** [sub in s] *)
Fixpoint contains (sub s : str) : bool :=
  startswith sub s
  || match s with
     | [] => false
     | _ :: rest => contains sub rest
     end.

(** [s.split(sep)] for a separator that is not empty, scanning left to
    right: [piece] is the piece being read and [skip] the number of
    characters of the separator found last that are still to be passed. *)
Fixpoint split_at (sep : str) (skip : nat) (piece s : str) : list str :=
  match s with
  | [] => [piece]
  | c :: rest =>
      match skip with
      | S skip => split_at sep skip piece rest
      | O =>
          if startswith sep s
          then piece :: split_at sep (length sep - 1) [] rest
          else split_at sep 0 (piece ++ [c]) rest
      end
  end.

Definition py_split (sep s : str) : list str := split_at sep 0 [] s.

(** The segments of a POSIX path: what stands between the slashes, but for
    the empty segments and the segments [.]. *)
Definition path_parts (p : str) : list str :=
  filter (λ segment, segment ≠ [] ∧ segment ≠ py ".") (py_split (py "/") p).

(** The root of a POSIX path: one slash, or two when the path starts with
    exactly two. *)
Definition path_root (p : str) : str :=
  if startswith (py "///") p then py "/"
  else if startswith (py "//") p then py "//"
  else if startswith (py "/") p then py "/"
  else [].

(** [str(Path(dir) / name)], on POSIX. *)
Definition pathlib_join (dir name : str) : str :=
  let root := if nonempty (path_root name) then path_root name
              else path_root dir in
  let parts := if nonempty (path_root name) then path_parts name
               else path_parts dir ++ path_parts name in
  if nonempty root || nonempty (join (py "/") parts)
  then root ++ join (py "/") parts
  else py ".".

Definition OUTPUT_DIR : str := py "output".

(** *** Voices *)

Definition VOICE_MAP : gmap str str :=
  list_to_map
    [(py "es", py "es-MX-DaliaNeural");
     (py "es-f", py "es-MX-DaliaNeural");
     (py "es-m", py "es-MX-JorgeNeural");
     (py "pt", py "pt-BR-FranciscaNeural");
     (py "fr", py "fr-FR-DeniseNeural");
     (py "de", py "de-DE-KatjaNeural");
     (py "it", py "it-IT-ElsaNeural");
     (py "ja", py "ja-JP-NanamiNeural");
     (py "ko", py "ko-KR-SunHiNeural");
     (py "zh", py "zh-CN-XiaoxiaoNeural");
     (py "ar", py "ar-SA-ZariyahNeural");
     (py "hi", py "hi-IN-SwaraNeural");
     (py "ru", py "ru-RU-SvetlanaNeural")].

(** Line 233:
    [VOICE_MAP.get(lang, VOICE_MAP.get(lang[:2], "es-MX-DaliaNeural"))] *)
Definition voice_for (lang : str) : str :=
  default (default (py "es-MX-DaliaNeural") (VOICE_MAP !! take 2 lang))
    (VOICE_MAP !! lang).

(** *** The stages *)

(** What the stages need from outside the program, besides [Tools]. *)
Class Services := {
  (** [whisper.load_model(WHISPER_MODEL).transcribe(audio_path, ...)["text"]] *)
  whisper_transcribe : str → gmap str bytes → result str;
  (** [GoogleTranslator(source='auto', target=target_lang).translate]: the
      outcome of the [i]-th request made to the translator. *)
  translate_for : str → nat → str → result str;
  (** [edge_tts.Communicate(text, voice).save(output_path)]: the files it
      leaves and the exception of a failed synthesis. *)
  edge_tts_save : str → str → str → gmap str bytes → gmap str bytes * option exn;
  (** [len(AudioSegment.from_mp3(path))], in milliseconds. *)
  mp3_milliseconds : str → gmap str bytes → result Z;
  (** Whether [unlink] succeeds on a path. *)
  can_unlink : str → bool;
  (** The exception [Path.mkdir(exist_ok=True)] raises on a path, if there
      is one: a regular file has that name ([FileExistsError]), the parent
      is missing, a permission is. *)
  mkdir_error : str → gmap str bytes → option exn;
  (** The exception [Path.exists()] or [Path.iterdir()] raises on a path,
      if there is one: the path is a regular file ([NotADirectoryError]),
      it may not be read. *)
  iterdir_error : str → gmap str bytes → option exn
}.

(** A direct entry of [TEMP_DIR]: [temp/name], where [name] has no slash. *)
Definition temp_child (path : str) : bool :=
  match strip_prefix (TEMP_DIR ++ py "/") path with
  | Some name => nonempty name && forallb (λ c, negb (c =? 47)%N) name
  | None => false
  end.

(** Lines 386-389: the name of the output for a URL. *)
Definition default_output_name (url target_lang : str) : str :=
  let video_id :=
    default [] (head (py_split (py "?")
                        (default [] (last (py_split (py "/") url))))) in
  let video_id :=
    if contains (py "v=") url
    then default [] (head (py_split (py "&")
                             (default [] (py_split (py "v=") url !! 1%nat))))
    else video_id in
  py "dubbed_" ++ video_id ++ py "_" ++ target_lang ++ py ".mp4".

(** [try: body finally: handler] *)
Definition try_finally {A} (body : M A) (handler : M unit) : M A :=
  λ w, match body w with
       | (w1, r) =>
           match handler w1 with
           | (w2, Ok _) => (w2, r)
           | (w2, Raise e) => (w2, Raise e)
           end
       end.

(** A value or an exception computed without effect. *)
Definition lift {A} (r : result A) : M A := λ w, (w, r).

Section Pipeline.

Context {tools : Tools} {services : Services}.

(** [path.mkdir(exist_ok=True)].  The world holds regular files only: a
    directory is there as soon as it is named, so that a [mkdir] that does
    not raise leaves the world as it is. *)
Definition mkdir (path : str) : M unit :=
  λ w, match mkdir_error path (files w) with
       | Some e => (w, Raise e)
       | None => (w, Ok tt)
       end.

(** dub.py, lines 67-70 *)
Definition ensure_directories : M unit :=
  mkdir OUTPUT_DIR ;;;
  mkdir TEMP_DIR.

(** Lines 110-119: [video_cmd]. *)
Definition yt_dlp_command (url video_path : str) : command :=
  [Arg (py "yt-dlp");
   Arg (py "-f");
   Arg (py "bestvideo[height<=1080][ext=mp4]+bestaudio[ext=m4a]/best[height<=1080][ext=mp4]/best");
   Arg (py "--merge-output-format"); Arg (py "mp4");
   Arg (py "-o"); Arg video_path;
   Arg (py "--no-playlist");
   Arg (py "--socket-timeout"); Arg (py "30");
   Arg (py "--retries"); Arg (py "3");
   Arg url].

(** Lines 131-139: [audio_cmd]. *)
Definition extract_audio_command (video_path audio_path : str) : command :=
  [Arg (py "ffmpeg"); Arg (py "-y");
   Arg (py "-i"); Arg video_path;
   Arg (py "-vn");
   Arg (py "-acodec"); Arg (py "pcm_s16le");
   Arg (py "-ar"); Arg (py "16000");
   Arg (py "-ac"); Arg (py "1");
   Arg audio_path].

(** dub.py, lines 99-144.  The [except] clause of lines 123-125 prints the
    error of yt-dlp and raises it again. *)
Definition download_video (url : str) : M (str * str) :=
  let video_path := path_join TEMP_DIR (py "source_video.mp4") in
  let audio_path := path_join TEMP_DIR (py "source_audio.wav") in
  let video_cmd := yt_dlp_command url video_path in
  run video_cmd ;;;
  let audio_cmd := extract_audio_command video_path audio_path in
  run audio_cmd ;;;
  ret (video_path, audio_path).

(** dub.py, lines 147-172 *)
Definition transcribe_audio (audio_path : str) : M str :=
  λ w, match whisper_transcribe audio_path (files w) with
       | Ok text => (w, Ok (strip text))
       | Raise e => (w, Raise e)
       end.

(** dub.py, lines 225-246.  A count of milliseconds is far below [2^53],
    so that it is a double as it stands; the quotient is rounded. *)
Definition generate_tts (text output_path lang : str) : M b64 :=
  let voice := voice_for lang in
  (λ w, let '(fs, failure) := edge_tts_save text voice output_path (files w) in
        let w' := {| files := fs; trace := trace w |} in
        match failure with
        | Some e => (w', Raise e)
        | None => (w', Ok tt)
        end) ;;;
  milliseconds <- (λ w, (w, mp3_milliseconds output_path (files w))) ;;
  ret (round (inject_Z milliseconds / 1000)%Q).

(** dub.py, lines 344-351.  [TEMP_DIR.exists()] and [TEMP_DIR.iterdir()]
    stand outside the [try]: what they raise is raised by [cleanup_temp],
    before any file is unlinked.  Otherwise every direct entry of
    [TEMP_DIR] is unlinked, and an entry that cannot be is left. *)
Definition cleanup_temp : M unit :=
  λ w, match iterdir_error TEMP_DIR (files w) with
       | Some e => (w, Raise e)
       | None =>
           ({| files := filter (λ kv, ¬ (temp_child kv.1 = true
                                         ∧ can_unlink kv.1 = true))
                          (files w);
               trace := trace w |},
            Ok tt)
       end.

(** Lines 370-399: the body of the [try]. *)
Definition pipeline (url target_lang : str) (output_name : option str)
    : M str :=
  paths <- download_video url ;;
  let '(video_path, audio_path) := paths in
  transcript <- transcribe_audio audio_path ;;
  translated <- lift (translate_text (translate_for target_lang) transcript) ;;
  let tts_path := path_join TEMP_DIR (py "dubbed_audio.mp3") in
  generate_tts translated tts_path target_lang ;;;
  let output_name :=
    match output_name with
    | Some output_name => output_name
    | None => default_output_name url target_lang
    end in
  let output_path := pathlib_join OUTPUT_DIR output_name in
  mix_audio_b64 video_path tts_path output_path ORIGINAL_AUDIO_VOLUME None ;;;
  ret output_path.

(** dub.py, lines 354-403: the directories are made before the [try], so
    that a failure there is raised without any cleaning. *)
Definition process_video (url target_lang : str) (output_name : option str)
    (keep_temp : bool) : M str :=
  ensure_directories ;;;
  try_finally (pipeline url target_lang output_name)
    (if keep_temp then ret tt else cleanup_temp).

End Pipeline.

(** *** A small concrete pipeline

    yt-dlp leaves a video of four seconds with a sound track (it fails on
    one URL), ffmpeg leaves three seconds of sound, whisper hears one
    sentence, the translator prefixes the language, the synthesis leaves
    three seconds of speech and every file can be unlinked. *)
Module Studio.

Definition bad_url : str := py "https://youtu.be/bad".

Definition shell (cmd : command) (fs : gmap str bytes)
    : gmap str bytes * option exn :=
  match cmd, last cmd with
  | Arg program :: _, Some (Arg target) =>
      if decide (program = py "yt-dlp") then
        if decide (target = bad_url) then (fs, Some (CalledProcessError cmd))
        else (<[path_join TEMP_DIR (py "source_video.mp4")
                := [x01; x00; x00; x00; x00]]> fs, None)
      else (<[target := [x00; x00; x00]]> fs, None)
  | _, _ => (fs, Some (CalledProcessError cmd))
  end.

Definition tools : Tools :=
  {| audio_info := Demo.probe_audio; video_info := Demo.probe_video;
     subprocess_run := shell; write_file := Demo.encoder;
     copy_file := Demo.copy_check |}.

(** A directory cannot be made or listed where a regular file stands. *)
Definition regular_file (path : str) (fs : gmap str bytes) : option exn :=
  match fs !! path with
  | Some _ => Some (OSError path)
  | None => None
  end.

Definition services : Services :=
  {| whisper_transcribe := λ audio_path fs,
       match fs !! audio_path with
       | Some _ => Ok (py "  Hello world. ")
       | None => Raise (OSError audio_path)
       end;
     translate_for := λ target_lang i text,
       Ok (target_lang ++ py ":" ++ text);
     edge_tts_save := λ text voice output_path fs,
       (<[output_path := [x00; x00; x00]]> fs, None);
     mp3_milliseconds := λ path fs,
       match fs !! path with
       | Some data => Ok (1000 * Z.of_nat (length data))%Z
       | None => Raise (OSError path)
       end;
     can_unlink := λ _, true;
     mkdir_error := regular_file;
     iterdir_error := regular_file |}.

Definition url : str := py "https://youtu.be/abc".
Definition output_path : str := py "output/dubbed_abc_es.mp4".

(** Nothing on disk yet. *)
Definition empty_world : world := {| files := ∅; trace := [] |}.

(** A translator that returns what it is sent, but whose first request
    fails. *)
Definition flaky_identity (i : nat) (text : str) : result str :=
  match i with
  | O => Raise (Exception (py "timed out"))
  | S _ => Ok text
  end.

End Studio.

(** Closes a goal about the concrete world by evaluation. *)
Ltac run_demo := vm_compute; first [reflexivity | discriminate | done].

(** Shows that a concrete rational is the double [m * 2^e]. *)
Ltac double_demo m e :=
  exists m, e; split; [vm_compute; reflexivity|];
  split; [lia|vm_compute; reflexivity].

(** Closes a decidable goal about concrete values by evaluation. *)
Ltac decide_demo := refine (bool_decide_unpack _ _); vm_compute; exact I.

(** * Properties *)

(** ** Fitting the dubbed track: [adjust_audio_speed] and [mix_audio] *)

Lemma Qgt_bool_true (a b : Q) : (b < a)%Q → Qgt_bool a b = true.
Proof.
  intros H. unfold Qgt_bool. destruct (Qle_bool a b) eqn:E; [|done].
  apply Qle_bool_iff in E. exfalso. apply (Qlt_not_le _ _ H E).
Qed.

Lemma Qgt_bool_false (a b : Q) : (a <= b)%Q → Qgt_bool a b = false.
Proof.
  intros H. unfold Qgt_bool. apply Qle_bool_iff in H. by rewrite H.
Qed.

Lemma Qeq_bool_false (a b : Q) : ¬ (a == b)%Q → Qeq_bool a b = false.
Proof.
  intros H. destruct (Qeq_bool a b) eqn:E; [|done].
  apply Qeq_bool_iff in E. contradiction.
Qed.

Lemma Qle_bool_false (a b : Q) : (b < a)%Q → Qle_bool a b = false.
Proof.
  intros H. destruct (Qle_bool a b) eqn:E; [|done].
  apply Qle_bool_iff in E. exfalso. apply (Qlt_not_le _ _ H E).
Qed.


(** Laws of the monad, at a given world. *)
Lemma bind_Ok {A B} (m : M A) (k : A → M B) w w' a :
  m w = (w', Ok a) → bind m k w = k a w'.
Proof. intros Hm. unfold bind. by rewrite Hm. Qed.

Lemma bind_Raise {A B} (m : M A) (k : A → M B) w w' e :
  m w = (w', Raise e) → bind m k w = (w', Raise e).
Proof. intros Hm. unfold bind. by rewrite Hm. Qed.

Lemma bind_at {A B} (m m' : M A) (k : A → M B) w :
  m w = m' w → bind m k w = bind m' k w.
Proof. intros Hm. unfold bind. by rewrite Hm. Qed.

Lemma bind_assoc {A B C} (m : M A) (k : A → M B) (h : B → M C) w :
  bind (bind m k) h w = bind m (λ a, bind (k a) h) w.
Proof. unfold bind. by destruct (m w) as [w' [a|e]]. Qed.

(** ** Rounding to the nearest double *)

Section Binary64Facts.

Local Open Scope Q_scope.

Lemma Qfloor_bounds (y : Q) :
  ∃ f : Q, f = inject_Z (Qfloor y) ∧ f <= y ∧ y < f + 1.
Proof.
  exists (inject_Z (Qfloor y)). split; [done|]. split; [apply Qfloor_le|].
  pose proof (Qlt_floor y) as H. by rewrite inject_Z_plus in H.
Qed.

Lemma inject_Z_succ_le (a b : Z) : (a < b)%Z → inject_Z a + 1 <= inject_Z b.
Proof.
  intros H. change 1 with (inject_Z 1). rewrite <-inject_Z_plus, <-Zle_Qle. lia.
Qed.

Lemma rne_cases (y : Q) :
  let f := Qfloor y in
  rne y = f ∧ y - inject_Z f <= 1 # 2 ∧ (y - inject_Z f == 1 # 2 → Z.even f = true)
  ∨ rne y = (f + 1)%Z ∧ 1 # 2 <= y - inject_Z f ∧ (y - inject_Z f == 1 # 2 → Z.even f = false).
Proof.
  intros f. unfold rne. fold f.
  destruct (Qcompare_spec (y - inject_Z f) (1 # 2)) as [He|Hl|Hg].
  - destruct (Z.even f) eqn:Hev; [left|right]; (split; [done|]); rewrite He;
      (split; [apply Qle_refl|done]).
  - left. split; [done|]. split; [by apply Qlt_le_weak|].
    intros He. rewrite He in Hl. by apply Qlt_irrefl in Hl.
  - right. split; [done|]. split; [by apply Qlt_le_weak|].
    intros He. rewrite He in Hg. by apply Qlt_irrefl in Hg.
Qed.

Lemma rne_le (y : Q) (k : Z) : y <= inject_Z k → (rne y <= k)%Z.
Proof.
  intros Hy.
  destruct (Qfloor_bounds y) as (f & Hf & Hlo & Hhi).
  assert (Hfk : (Qfloor y <= k)%Z).
  { rewrite Zle_Qle, <-Hf. lra. }
  destruct (rne_cases y) as [(-> & _)|(-> & Hhalf & _)]; [done|].
  cbv zeta in Hhalf. rewrite <-Hf in Hhalf.
  destruct (Z.eq_dec (Qfloor y) k) as [Heq|Hne]; [|lia].
  rewrite Heq in Hf. subst f. lra.
Qed.

Lemma rne_ge (y : Q) (k : Z) : inject_Z k <= y → (k <= rne y)%Z.
Proof.
  intros Hy.
  assert (Hfk : (k <= Qfloor y)%Z).
  { rewrite <-(Qfloor_Z k). by apply Qfloor_resp_le. }
  destruct (rne_cases y) as [(-> & _)|(-> & _)]; lia.
Qed.

Lemma rne_above (y : Q) (k : Z) :
  inject_Z k + (1 # 2) < y → (k + 1 <= rne y)%Z.
Proof.
  intros Hy.
  destruct (Qfloor_bounds y) as (f & Hf & Hlo & Hhi).
  assert (Hfk : (k <= Qfloor y)%Z).
  { rewrite <-(Qfloor_Z k). apply Qfloor_resp_le. lra. }
  destruct (rne_cases y) as [(-> & Hhalf & _)|(-> & _)]; [|lia].
  cbv zeta in Hhalf. rewrite <-Hf in Hhalf.
  destruct (Z.eq_dec (Qfloor y) k) as [Heq|Hne]; [|lia].
  rewrite Heq in Hf. subst f. lra.
Qed.

Lemma rne_below (y : Q) (k : Z) :
  Z.even k = true → y <= inject_Z k + (1 # 2) → (rne y <= k)%Z.
Proof.
  intros Hk Hy.
  destruct (Qfloor_bounds y) as (f & Hf & Hlo & Hhi).
  assert (Hfk : (Qfloor y < k + 1)%Z).
  { rewrite Zlt_Qlt, inject_Z_plus, <-Hf. change (inject_Z 1) with 1. lra. }
  destruct (rne_cases y) as [(-> & _)|(-> & Hhalf & Hodd)]; [lia|].
  cbv zeta in Hhalf, Hodd. rewrite <-Hf in Hhalf, Hodd.
  destruct (Z.eq_dec (Qfloor y) k) as [Heq|Hne]; [|lia].
  rewrite Heq in Hf, Hodd. subst f.
  rewrite Hodd in Hk; [done|]. apply Qle_antisym; lra.
Qed.

Lemma pow2_pos (e : Z) : 0 < 2 ^ e.
Proof. by apply Qpower_0_lt. Qed.

Lemma pow2_add (a b : Z) : 2 ^ (a + b) == 2 ^ a * 2 ^ b.
Proof. by apply Qpower_plus. Qed.

Lemma pow2_succ (e : Z) : 2 ^ (e + 1) == 2 * 2 ^ e.
Proof. rewrite pow2_add. change (2 ^ 1) with 2. ring. Qed.

Lemma pow2_pred (e : Z) : 2 ^ e == 2 * 2 ^ (e - 1).
Proof. rewrite <-pow2_succ. by replace (e - 1 + 1)%Z with e by lia. Qed.

Lemma pow2_sub (a b : Z) : 2 ^ (a - b) * 2 ^ b == 2 ^ a.
Proof. rewrite <-pow2_add. by replace (a - b + b)%Z with a by lia. Qed.

Lemma pow2_inject (e : Z) : (0 <= e)%Z → inject_Z (2 ^ e) == 2 ^ e.
Proof. intros. by rewrite Zpower_Qpower. Qed.

Lemma pow2_le (a b : Z) : (a <= b)%Z → 2 ^ a <= 2 ^ b.
Proof. intros. by apply Qpower_le_compat_l. Qed.

Lemma pow2_lt (a b : Z) : (a < b)%Z → 2 ^ a < 2 ^ b.
Proof. intros. by apply Qpower_lt_compat_l. Qed.

Lemma log2_bounds (n : Z) :
  (0 < n)%Z → 2 ^ Z.log2 n <= inject_Z n ∧ inject_Z n < 2 * 2 ^ Z.log2 n.
Proof.
  intros Hn. destruct (Z.log2_spec n Hn) as [Hlo Hhi].
  pose proof (Z.log2_nonneg n) as Hnn.
  rewrite <-pow2_succ, <-!pow2_inject by lia.
  split; [by rewrite <-Zle_Qle|by rewrite <-Zlt_Qlt].
Qed.

Lemma binade_spec (x : Q) :
  0 < x → 2 ^ binade x <= x ∧ x < 2 ^ (binade x + 1).
Proof.
  intros Hx. unfold binade.
  assert (Hn : (0 < Qnum x)%Z).
  { destruct x as [n d]. unfold Qlt in Hx. simpl in *. lia. }
  destruct (log2_bounds (Qnum x) Hn) as [Hnlo Hnhi].
  destruct (log2_bounds (Zpos (Qden x)) eq_refl) as [Hdlo Hdhi].
  set (a := Z.log2 (Qnum x)) in *. set (b := Z.log2 (Zpos (Qden x))) in *.
  assert (Hxd : x * inject_Z (Zpos (Qden x)) == inject_Z (Qnum x)).
  { destruct x as [n d]. unfold Qeq, inject_Z. simpl. lia. }
  pose proof (pow2_sub a b) as Hab.
  pose proof (pow2_pos a) as Ha. pose proof (pow2_pos b) as Hb.
  pose proof (pow2_pos (a - b)) as Hab0.
  set (A := 2 ^ a) in *. set (B := 2 ^ b) in *. set (E := 2 ^ (a - b)) in *.
  set (N := inject_Z (Qnum x)) in *. set (D := inject_Z (Zpos (Qden x))) in *.
  clearbody A B N D.
  destruct (Qle_bool E x) eqn:Hle.
  - apply Qle_bool_iff in Hle. split; [done|].
    rewrite pow2_succ. fold E. nra.
  - assert (Hlt : x < E).
    { apply Qnot_le_lt. intros H. apply Qle_bool_iff in H. congruence. }
    replace (a - b - 1 + 1)%Z with (a - b)%Z by lia. fold E. split; [|done].
    pose proof (pow2_pred (a - b)) as Hp. fold E in Hp.
    set (E' := 2 ^ (a - b - 1)) in *. clearbody E' E. nra.
Qed.

Lemma binade_unique (x : Q) (e : Z) :
  2 ^ e <= x → x < 2 ^ (e + 1) → binade x = e.
Proof.
  intros Hlo Hhi.
  assert (Hx : 0 < x) by (eapply Qlt_le_trans; [apply (pow2_pos e)|done]).
  destruct (binade_spec x Hx) as [Hlo' Hhi'].
  assert (H1 : (binade x < e + 1)%Z).
  { apply (Qpower_lt_compat_l_inv 2); [|done]. by eapply Qle_lt_trans. }
  assert (H2 : (e < binade x + 1)%Z).
  { apply (Qpower_lt_compat_l_inv 2); [|done]. by eapply Qle_lt_trans. }
  lia.
Qed.

(** In the binade of one the doubles are the multiples of 2^-52. *)
Lemma round_pos_unit (x : Q) :
  1 <= x → x < 2 →
  round_pos x = Finite (Qred (inject_Z (rne (x / 2 ^ (-52))) * 2 ^ (-52))).
Proof.
  intros Hlo Hhi. unfold round_pos.
  rewrite (binade_unique x 0) by done.
  change (Z.max 0 (-1022) - 52)%Z with (-52)%Z.
  rewrite Qle_bool_false; [done|].
  assert (Hm : (rne (x / 2 ^ (-52)) <= 2 ^ 53)%Z).
  { apply rne_le. apply Qle_shift_div_r; [done|].
    assert (H2 : inject_Z (2 ^ 53) * 2 ^ (-52) == 2) by (vm_compute; done).
    rewrite H2. by apply Qlt_le_weak. }
  rewrite Zle_Qle in Hm.
  eapply Qle_lt_trans;
    [apply Qmult_le_compat_r; [exact Hm|done]|vm_compute; done].
Qed.

Lemma rne_near (y : Q) : Qabs (inject_Z (rne y) - y) <= 1 # 2.
Proof.
  destruct (Qfloor_bounds y) as (f & Hf & Hlo & Hhi).
  apply Qabs_Qle_condition.
  destruct (rne_cases y) as [(-> & Hhalf & _)|(-> & Hhalf & _)];
    cbv zeta in Hhalf; rewrite <-Hf in Hhalf.
  - rewrite <-Hf. split; lra.
  - rewrite inject_Z_plus, <-Hf. change (inject_Z 1) with 1. split; lra.
Qed.

Lemma round_pos_scaled (x : Q) :
  1 + 2 ^ (-53) < x → x <= (5 # 4) + 2 ^ (-53) →
  ∃ s, round_pos x = Finite s ∧ 1 < s ∧ s <= 5 # 4
       ∧ Qabs (s - x) <= 2 ^ (-53).
Proof.
  change (2 ^ (-53)) with (1 # 9007199254740992). intros Hlo Hhi.
  rewrite round_pos_unit by lra.
  eexists. split; [done|]. rewrite Qred_correct.
  pose proof (rne_above (x / 2 ^ (-52)) (2 ^ 52)) as Hup.
  pose proof (rne_below (x / 2 ^ (-52)) (5 * 2 ^ 50) eq_refl) as Hdown.
  pose proof (rne_near (x / 2 ^ (-52))) as Hnear.
  apply Qabs_Qle_condition in Hnear. destruct Hnear as [Hn1 Hn2].
  revert Hup Hdown Hn1 Hn2.
  change (x / 2 ^ (-52)) with (x * 4503599627370496).
  change (2 ^ (-52)) with (1 # 4503599627370496).
  set (m := rne _). intros Hup Hdown Hn1 Hn2.
  rewrite Zle_Qle in Hup, Hdown.
  change (inject_Z (2 ^ 52 + 1)) with 4503599627370497 in Hup.
  change (inject_Z (2 ^ 52)) with 4503599627370496 in Hup.
  change (inject_Z (5 * 2 ^ 50)) with 5629499534213120 in Hdown.
  assert (H1 : 4503599627370497 <= inject_Z m) by (apply Hup; lra).
  assert (H2 : inject_Z m <= 5629499534213120) by (apply Hdown; lra).
  split; [lra|]. split; [lra|].
  apply Qabs_Qle_condition. split; lra.
Qed.

Lemma round_pos_above (x : Q) :
  (5 # 4) + 2 ^ (-53) < x → b64_le (round_pos x) (5 # 4) = false.
Proof.
  change (2 ^ (-53)) with (1 # 9007199254740992). intros Hlo.
  destruct (Qlt_le_dec x 2) as [Hx|Hx].
  - rewrite round_pos_unit by lra. cbn [b64_le].
    apply Qle_bool_false. rewrite Qred_correct.
    pose proof (rne_above (x / 2 ^ (-52)) (5 * 2 ^ 50)) as Hup.
    revert Hup. change (x / 2 ^ (-52)) with (x * 4503599627370496).
    change (2 ^ (-52)) with (1 # 4503599627370496).
    set (m := rne _). intros Hup.
    rewrite Zle_Qle in Hup.
    change (inject_Z (5 * 2 ^ 50 + 1)) with 5629499534213121 in Hup.
    change (inject_Z (5 * 2 ^ 50)) with 5629499534213120 in Hup.
    assert (H1 : 5629499534213121 <= inject_Z m) by (apply Hup; lra).
    lra.
  - unfold round_pos.
    assert (Hpos : 0 < x) by lra.
    destruct (binade_spec x Hpos) as [Hblo Hbhi].
    assert (He : (1 <= binade x)%Z).
    { assert (H : (1 < binade x + 1)%Z); [|lia].
      apply (Qpower_lt_compat_l_inv 2); [|done].
      change (2 ^ 1) with 2. by eapply Qle_lt_trans. }
    rewrite Z.max_l by lia.
    set (e := binade x) in *. set (quantum := 2 ^ (e - 52)).
    assert (Hq : 0 < quantum) by apply pow2_pos.
    assert (Hm : (2 ^ 52 <= rne (x / quantum))%Z).
    { apply rne_ge. apply Qle_shift_div_l; [done|].
      unfold quantum. change (inject_Z (2 ^ 52)) with (2 ^ 52).
      by rewrite Qmult_comm, pow2_sub. }
    rewrite Zle_Qle in Hm. change (inject_Z (2 ^ 52)) with (2 ^ 52) in Hm.
    assert (Hr : 2 <= inject_Z (rne (x / quantum)) * quantum).
    { eapply Qle_trans;
        [|apply Qmult_le_compat_r; [exact Hm|by apply Qlt_le_weak]].
      unfold quantum. rewrite Qmult_comm, pow2_sub.
      change 2 with (2 ^ 1) at 1. by apply pow2_le. }
    destruct (Qle_bool _ _); [done|]. cbn [b64_le].
    apply Qle_bool_false. rewrite Qred_correct. lra.
Qed.

Lemma dbl_pos (m e : Z) : 0 < dbl m e → (0 < m)%Z.
Proof.
  unfold dbl. intros H. pose proof (pow2_pos e) as He.
  rewrite Zlt_Qlt. change (inject_Z 0) with 0.
  destruct (Qlt_le_dec 0 (inject_Z m)) as [|Hle]; [done|]. exfalso.
  set (M := inject_Z m) in *. set (E := 2 ^ e) in *. clearbody M E. nra.
Qed.

Lemma dbl_shift (m e k : Z) :
  (k <= e)%Z → dbl m e == dbl (m * 2 ^ (e - k)) k.
Proof.
  intros Hk. unfold dbl. rewrite inject_Z_mult, pow2_inject by lia.
  rewrite <-Qmult_assoc. by rewrite pow2_sub.
Qed.

Lemma dbl_lt (a b k : Z) : dbl b k < dbl a k → (b < a)%Z.
Proof.
  unfold dbl. intros H. rewrite Zlt_Qlt.
  by apply Qmult_lt_r in H; [|apply pow2_pos].
Qed.

Lemma ratio_aligned (a b k : Z) :
  (0 < b)%Z → (b < a)%Z → (b < 2 ^ 53)%Z →
  1 + 2 ^ (-53) < dbl a k / dbl b k.
Proof.
  intros Hb Hab Hb53. unfold dbl.
  pose proof (pow2_pos k) as Hk.
  apply inject_Z_succ_le in Hab.
  rewrite Zlt_Qlt in Hb, Hb53.
  change (inject_Z 0) with 0 in Hb.
  change (inject_Z (2 ^ 53)) with 9007199254740992 in Hb53.
  change (2 ^ (-53)) with (1 # 9007199254740992).
  set (A := inject_Z a) in *. set (B := inject_Z b) in *.
  set (K := 2 ^ k) in *. clearbody A B K.
  apply Qlt_shift_div_l; [nra|]. nra.
Qed.

(** Two doubles never have a quotient so close to one that it rounds to
    one. *)
Lemma double_ratio (v d : Q) :
  is_double v → is_double d → 0 < v → v < d → 1 + 2 ^ (-53) < d / v.
Proof.
  intros (mv & ev & Hmv & _ & Hv) (md & ed & Hmd & _ & Hd) Hpos Hlt.
  rewrite Hv in Hpos, Hlt. rewrite Hd in Hlt. rewrite Hv, Hd.
  clear Hv Hd v d.
  assert (Hmv0 : (0 < mv)%Z) by apply (dbl_pos mv ev Hpos).
  assert (Hmd0 : (0 < md)%Z).
  { apply (dbl_pos md ed). by etrans. }
  destruct (Z.le_gt_cases ev ed) as [Hle|Hgt].
  - rewrite (dbl_shift md ed ev) in Hlt by done.
    rewrite (dbl_shift md ed ev) by done.
    apply ratio_aligned; [done|by apply (dbl_lt _ _ ev)|lia].
  - rewrite (dbl_shift mv ev ed) in Hlt by lia.
    rewrite (dbl_shift mv ev ed) by lia.
    assert (Hab : (mv * 2 ^ (ev - ed) < md)%Z) by apply (dbl_lt _ _ ed Hlt).
    apply ratio_aligned; [|done|lia].
    apply Z.mul_pos_pos; [done|]. apply Z.pow_pos_nonneg; lia.
Qed.

Lemma round_positive (x : Q) : 0 < x → round x = round_pos (Qred x).
Proof. intros Hx. unfold round. apply Qgt_alt in Hx. by rewrite Hx. Qed.

(** Equal rationals round to the same double. *)
Lemma round_comp (x y : Q) : x == y → round x = round y.
Proof.
  intros Hxy. unfold round. rewrite (Qred_complete _ _ Hxy).
  assert (Hopp : - x == - y) by by rewrite Hxy.
  rewrite (Qred_complete _ _ Hopp).
  assert (Hcmp : Qcompare x 0 = Qcompare y 0) by by rewrite Hxy.
  by rewrite Hcmp.
Qed.

(** A quotient between [1 + 2^-53] (excluded) and [1.25 + 2^-53] rounds to
    a double above 1 and not above 1.25, at most [2^-53] away from it. *)
Lemma round_scaled (x : Q) :
  1 + 2 ^ (-53) < x → x <= (5 # 4) + 2 ^ (-53) →
  ∃ s, round x = Finite s ∧ 1 < s ∧ s <= 5 # 4
       ∧ Qabs (s - x) <= 2 ^ (-53).
Proof.
  intros Hlo Hhi.
  assert (Hpos : 0 < x).
  { eapply Qlt_trans; [|exact Hlo]. vm_compute. done. }
  rewrite (round_positive x Hpos).
  destruct (round_pos_scaled (Qred x)) as (s & Hs & H1 & H2 & H3);
    [by rewrite Qred_correct..|].
  exists s. rewrite Qred_correct in H3. done.
Qed.

(** A quotient above [1.25 + 2^-53] rounds to a double above 1.25, or to
    infinity. *)
Lemma round_above (x : Q) :
  (5 # 4) + 2 ^ (-53) < x → b64_le (round x) (5 # 4) = false.
Proof.
  intros Hlo.
  assert (Hpos : 0 < x).
  { eapply Qlt_trans; [|exact Hlo]. vm_compute. done. }
  rewrite (round_positive x Hpos). apply round_pos_above.
  by rewrite Qred_correct.
Qed.

(** A quotient between 1.25 (excluded) and [1.25 + 2^-53] rounds to 1.25. *)
Lemma round_to_max (x : Q) :
  5 # 4 < x → x <= (5 # 4) + 2 ^ (-53) → round x = Finite (5 # 4).
Proof.
  intros Hlo Hhi.
  assert (Hpos : 0 < x) by (eapply Qlt_trans; [|exact Hlo]; done).
  rewrite (round_positive x Hpos).
  assert (Hlo' : 5 # 4 < Qred x) by by rewrite Qred_correct.
  assert (Hhi' : Qred x <= (5 # 4) + 2 ^ (-53)) by by rewrite Qred_correct.
  revert Hlo' Hhi'. generalize (Qred x). clear. intros x.
  change (2 ^ (-53)) with (1 # 9007199254740992). intros Hlo Hhi.
  rewrite round_pos_unit by lra. f_equal.
  transitivity (Qred (5 # 4)); [|done]. apply Qred_complete.
  pose proof (rne_ge (x / 2 ^ (-52)) (5 * 2 ^ 50)) as Hup.
  pose proof (rne_below (x / 2 ^ (-52)) (5 * 2 ^ 50) eq_refl) as Hdown.
  revert Hup Hdown.
  change (x / 2 ^ (-52)) with (x * 4503599627370496).
  change (2 ^ (-52)) with (1 # 4503599627370496).
  set (m := rne _). intros Hup Hdown.
  rewrite Zle_Qle in Hup, Hdown.
  change (inject_Z (5 * 2 ^ 50)) with 5629499534213120 in Hup, Hdown.
  assert (H1 : 5629499534213120 <= inject_Z m) by (apply Hup; lra).
  assert (H2 : inject_Z m <= 5629499534213120) by (apply Hdown; lra).
  apply Qle_antisym; lra.
Qed.

End Binary64Facts.

Section MixerFacts.

Context {tools : Tools}.

(** Opening a clip leaves the world as it is. *)
Lemma AudioFileClip_world path w w' r :
  AudioFileClip path w = (w', r) → w' = w.
Proof.
  unfold AudioFileClip. intros Hopen.
  destruct (files w !! path) as [data|]; [destruct (audio_info data)|];
    by inversion Hopen.
Qed.

(** [mix_audio] once both files are open. *)
Lemma mix_audio_opened original_video_path dubbed_audio_path output_path
    original_volume video_duration w video dubbed_audio :
  VideoFileClip original_video_path w = (w, Ok video) →
  AudioFileClip dubbed_audio_path w = (w, Ok dubbed_audio) →
  mix_audio original_video_path dubbed_audio_path output_path
    original_volume video_duration w =
  (fitted <- fit_dub dubbed_audio_path
               (default (v_duration video) video_duration) dubbed_audio ;;
   write_videofile
     (set_audio video (composite (attenuated video original_volume) fitted))
     output_path ;;;
   ret output_path) w.
Proof.
  intros Hv Hd. unfold mix_audio.
  rewrite (bind_Ok _ _ _ _ _ Hv). by rewrite (bind_Ok _ _ _ _ _ Hd).
Qed.

(** A render adds one event to the trace, whatever its outcome. *)
Lemma render_trace final_video output_path w :
  trace ((write_videofile final_video output_path ;;; ret output_path) w).1
  = trace w ++ [Render final_video output_path].
Proof.
  unfold bind, write_videofile.
  by destruct (write_file final_video output_path (files w)) as [fs [e|]].
Qed.

(** No speed change and no cut when the track is not longer than the
    video. *)
Lemma fit_dub_short dubbed_audio_path video_duration dubbed_audio w :
  (duration dubbed_audio <= video_duration)%Q →
  fit_dub dubbed_audio_path video_duration dubbed_audio w = (w, Ok dubbed_audio).
Proof.
  intros Hle. unfold fit_dub. by rewrite (Qgt_bool_false _ _ Hle).
Qed.


(** The cut branch: the track is longer than [MAX_SPEED_FACTOR] videos. *)
Lemma fit_dub_cut dubbed_audio_path video_duration dubbed_audio w :
  (0 < video_duration)%Q →
  (video_duration * MAX_SPEED_FACTOR < duration dubbed_audio)%Q →
  fit_dub dubbed_audio_path video_duration dubbed_audio w =
  (w, Ok (subclip dubbed_audio 0 video_duration)).
Proof.
  intros Hpos Hlong. unfold fit_dub.
  assert (Hgt : (video_duration < duration dubbed_audio)%Q).
  { eapply Qle_lt_trans; [|exact Hlong].
    rewrite <- (Qmult_1_r video_duration) at 1.
    apply Qmult_le_l; [done|]. unfold MAX_SPEED_FACTOR. by compute. }
  rewrite (Qgt_bool_true _ _ Hgt). unfold py_div.
  rewrite Qeq_bool_false; last first.
  { intros Hz. rewrite Hz in Hpos. by apply Qlt_irrefl in Hpos. }
  unfold bind, ret. rewrite Qle_bool_false; [done|].
  apply Qlt_shift_div_l; [done|]. by rewrite Qmult_comm.
Qed.

(** A division by a zero video duration. *)
Lemma fit_dub_zero_video dubbed_audio_path video_duration dubbed_audio w :
  (video_duration == 0)%Q →
  (0 < duration dubbed_audio)%Q →
  fit_dub dubbed_audio_path video_duration dubbed_audio w =
  (w, Raise ZeroDivisionError).
Proof.
  intros Hz Hpos. unfold fit_dub. rewrite Qgt_bool_true; [|by rewrite Hz].
  unfold py_div. apply Qeq_bool_iff in Hz. by rewrite Hz.
Qed.


(** From a bound on the quotient to a bound on the dividend. *)
Lemma Qlt_div_mult (c d v : Q) :
  (0 < v)%Q → (c < d / v)%Q → (c * v < d)%Q.
Proof.
  intros Hv Hc.
  assert (Hd : (v * (d / v) == d)%Q).
  { apply Qmult_div_r. intros Hz. rewrite Hz in Hv. by apply Qlt_irrefl in Hv. }
  rewrite <- Hd. rewrite (Qmult_comm c v). by apply Qmult_lt_l.
Qed.

Lemma ratio_gt_1 (d v : Q) : (0 < v)%Q → (1 < d / v)%Q → (v < d)%Q.
Proof.
  intros Hv Hd. apply Qlt_div_mult in Hd; [|done]. by rewrite Qmult_1_l in Hd.
Qed.

(** *** In double precision *)

Lemma mix_audio_b64_opened original_video_path dubbed_audio_path output_path
    original_volume video_duration w video dubbed_audio :
  VideoFileClip original_video_path w = (w, Ok video) →
  AudioFileClip dubbed_audio_path w = (w, Ok dubbed_audio) →
  mix_audio_b64 original_video_path dubbed_audio_path output_path
    original_volume video_duration w =
  (fitted <- fit_dub_b64 dubbed_audio_path
               (default (v_duration video) video_duration) dubbed_audio ;;
   write_videofile
     (set_audio video (composite (attenuated video original_volume) fitted))
     output_path ;;;
   ret output_path) w.
Proof.
  intros Hv Hd. unfold mix_audio_b64.
  rewrite (bind_Ok _ _ _ _ _ Hv). by rewrite (bind_Ok _ _ _ _ _ Hd).
Qed.

Lemma fit_dub_b64_short dubbed_audio_path video_duration dubbed_audio w :
  (duration dubbed_audio <= video_duration)%Q →
  fit_dub_b64 dubbed_audio_path video_duration dubbed_audio w
  = (w, Ok dubbed_audio).
Proof.
  intros Hle. unfold fit_dub_b64. by rewrite (Qgt_bool_false _ _ Hle).
Qed.

Lemma float_div_positive (a b : Q) w :
  (0 < b)%Q → float_div a b w = (w, Ok (round (a / b))).
Proof.
  intros Hpos. unfold float_div. rewrite Qeq_bool_false; [done|].
  intros Hz. rewrite Hz in Hpos. by apply Qlt_irrefl in Hpos.
Qed.

(** The speed-up branch: the quotient of the two doubles is more than one
    and at most [half_ulp] above [MAX_SPEED_FACTOR]. *)
Lemma fit_dub_b64_speed_up dubbed_audio_path video_duration dubbed_audio w :
  is_double video_duration →
  is_double (duration dubbed_audio) →
  (0 < video_duration)%Q →
  (video_duration < duration dubbed_audio)%Q →
  (duration dubbed_audio / video_duration <= MAX_SPEED_FACTOR + half_ulp)%Q →
  let temp_adjusted := path_join TEMP_DIR (py "adjusted_dub.mp3") in
  ∃ speed_needed,
    round (duration dubbed_audio / video_duration) = Finite speed_needed
    ∧ (1 < speed_needed)%Q
    ∧ (speed_needed <= MAX_SPEED_FACTOR)%Q
    ∧ (Qabs (speed_needed - duration dubbed_audio / video_duration)
       <= half_ulp)%Q
    ∧ fit_dub_b64 dubbed_audio_path video_duration dubbed_audio w =
      (run (ffmpeg_atempo dubbed_audio_path speed_needed temp_adjusted) ;;;
       AudioFileClip temp_adjusted) w.
Proof.
  intros Hv Hd Hpos Hlong Hmax temp_adjusted.
  pose proof (double_ratio _ _ Hv Hd Hpos Hlong) as Hratio.
  destruct (round_scaled _ Hratio Hmax) as (speed & Hround & H1 & H2 & H3).
  exists speed. repeat (split; [done|]). unfold fit_dub_b64.
  rewrite (Qgt_bool_true _ _ Hlong).
  rewrite (bind_Ok _ _ _ _ _ (float_div_positive _ _ w Hpos)).
  rewrite Hround. cbn [b64_le adjust_audio_speed_b64].
  apply Qle_bool_iff in H2. unfold MAX_SPEED_FACTOR. rewrite H2.
  unfold adjust_audio_speed. rewrite Qeq_bool_false; [done|].
  intros Hone. rewrite Hone in H1. by apply Qlt_irrefl in H1.
Qed.

(** The same branch in the narrow band above [MAX_SPEED_FACTOR], where the
    quotient rounds to [MAX_SPEED_FACTOR] itself. *)
Lemma fit_dub_b64_band dubbed_audio_path video_duration dubbed_audio w :
  (0 < video_duration)%Q →
  (MAX_SPEED_FACTOR < duration dubbed_audio / video_duration)%Q →
  (duration dubbed_audio / video_duration <= MAX_SPEED_FACTOR + half_ulp)%Q →
  let temp_adjusted := path_join TEMP_DIR (py "adjusted_dub.mp3") in
  round (duration dubbed_audio / video_duration) = Finite MAX_SPEED_FACTOR
  ∧ fit_dub_b64 dubbed_audio_path video_duration dubbed_audio w =
    (run (ffmpeg_atempo dubbed_audio_path MAX_SPEED_FACTOR temp_adjusted) ;;;
     AudioFileClip temp_adjusted) w.
Proof.
  intros Hpos Hlo Hhi temp_adjusted.
  pose proof (round_to_max _ Hlo Hhi) as Hround. split; [done|].
  assert (Hlong : (video_duration < duration dubbed_audio)%Q).
  { apply ratio_gt_1; [done|]. eapply Qlt_trans; [|exact Hlo].
    vm_compute. done. }
  unfold fit_dub_b64. rewrite (Qgt_bool_true _ _ Hlong).
  rewrite (bind_Ok _ _ _ _ _ (float_div_positive _ _ w Hpos)).
  by rewrite Hround.
Qed.

(** The cut branch: the quotient is more than [half_ulp] above
    [MAX_SPEED_FACTOR]. *)
Lemma fit_dub_b64_cut dubbed_audio_path video_duration dubbed_audio w :
  (0 < video_duration)%Q →
  (MAX_SPEED_FACTOR + half_ulp < duration dubbed_audio / video_duration)%Q →
  fit_dub_b64 dubbed_audio_path video_duration dubbed_audio w =
  (w, Ok (subclip dubbed_audio 0 video_duration)).
Proof.
  intros Hpos Hlo.
  assert (Hlong : (video_duration < duration dubbed_audio)%Q).
  { apply ratio_gt_1; [done|]. eapply Qlt_trans; [|exact Hlo].
    vm_compute. done. }
  unfold fit_dub_b64. rewrite (Qgt_bool_true _ _ Hlong).
  rewrite (bind_Ok _ _ _ _ _ (float_div_positive _ _ w Hpos)).
  pose proof (round_above _ Hlo) as Hcut. unfold MAX_SPEED_FACTOR.
  by rewrite Hcut.
Qed.

(** C1. When the dubbed track is not longer than the video
    ([0 <= dubbed_duration <= video_duration], [video_duration > 0]),
    [mix_audio] passes it through: the fitted track is the opened track
    itself, no process is run on it (no tempo change, i.e. factor 1.0) and
    it is not cut; the only thing [mix_audio] does is to render the video
    with that track laid over the original sound. *)
Theorem mix_audio_pass_through original_video_path dubbed_audio_path
    output_path original_volume video_duration w video dubbed_audio :
  VideoFileClip original_video_path w = (w, Ok video) →
  AudioFileClip dubbed_audio_path w = (w, Ok dubbed_audio) →
  let duration_used := default (v_duration video) video_duration in
  (0 < duration_used)%Q →
  (0 <= duration dubbed_audio)%Q →
  (duration dubbed_audio <= duration_used)%Q →
  let final_video :=
    set_audio video
      (composite (attenuated video original_volume) dubbed_audio) in
  fit_dub dubbed_audio_path duration_used dubbed_audio w
    = (w, Ok dubbed_audio)
  ∧ mix_audio original_video_path dubbed_audio_path output_path
      original_volume video_duration w
    = (write_videofile final_video output_path ;;; ret output_path) w
  ∧ trace (mix_audio original_video_path dubbed_audio_path output_path
             original_volume video_duration w).1
    = trace w ++ [Render final_video output_path].
Proof.
  intros Hv Hd duration_used _ _ Hle final_video.
  pose proof (fit_dub_short dubbed_audio_path _ _ w Hle) as Hfit.
  assert (Hmix : mix_audio original_video_path dubbed_audio_path output_path
                   original_volume video_duration w
                 = (write_videofile final_video output_path ;;;
                    ret output_path) w).
  { rewrite (mix_audio_opened _ _ _ _ _ _ _ _ Hv Hd).
    by rewrite (bind_Ok _ _ _ _ _ Hfit). }
  split; [done|]. split; [done|]. rewrite Hmix. apply render_trace.
Qed.

(** C2, as the code has it.  The durations are doubles.  When the dubbed
    track is longer than the video by at most [MAX_SPEED_FACTOR]
    ([video_duration < dubbed_duration <= video_duration * 1.25], the
    product being the one of the rationals, not the rounded one, and
    [video_duration > 0]), [mix_audio] scales it: it runs ffmpeg with the
    tempo [dubbed_duration / video_duration] as the processor computes it,
    that is the double nearest to the quotient, at most [half_ulp] away
    from it; that tempo is more than 1 and at most [MAX_SPEED_FACTOR], and
    the file ffmpeg wrote is laid over the original sound.  A video of 30
    seconds and a track of 33 seconds give the double nearest to 1.10. *)
Theorem mix_audio_b64_scaled original_video_path dubbed_audio_path
    output_path original_volume video_duration w video dubbed_audio :
  VideoFileClip original_video_path w = (w, Ok video) →
  AudioFileClip dubbed_audio_path w = (w, Ok dubbed_audio) →
  let duration_used := default (v_duration video) video_duration in
  is_double duration_used →
  is_double (duration dubbed_audio) →
  (0 < duration_used)%Q →
  (duration_used < duration dubbed_audio)%Q →
  (duration dubbed_audio <= duration_used * MAX_SPEED_FACTOR)%Q →
  let temp_adjusted := path_join TEMP_DIR (py "adjusted_dub.mp3") in
  ∃ speed_needed,
    round (duration dubbed_audio / duration_used) = Finite speed_needed
    ∧ (Qabs (speed_needed - duration dubbed_audio / duration_used)
       <= half_ulp)%Q
    ∧ (speed_needed <= MAX_SPEED_FACTOR)%Q
    ∧ (1 < speed_needed)%Q
    ∧ mix_audio_b64 original_video_path dubbed_audio_path output_path
        original_volume video_duration w
      = (run [Arg (py "ffmpeg"); Arg (py "-y");
              Arg (py "-i"); Arg dubbed_audio_path;
              Arg (py "-filter:a"); Atempo speed_needed;
              Arg (py "-vn");
              Arg temp_adjusted] ;;;
         fitted <- AudioFileClip temp_adjusted ;;
         write_videofile
           (set_audio video
              (composite (attenuated video original_volume) fitted))
           output_path ;;;
         ret output_path) w
    ∧ ((duration_used == 30)%Q → (duration dubbed_audio == 33)%Q →
       Finite speed_needed = round (11 # 10)).
Proof.
  intros Hv Hd duration_used Hdv Hdd Hpos Hlong Hmax temp_adjusted.
  assert (Hq : (duration dubbed_audio / duration_used
                <= MAX_SPEED_FACTOR + half_ulp)%Q).
  { apply Qle_trans with MAX_SPEED_FACTOR.
    - apply Qle_shift_div_r; [done|]. by rewrite Qmult_comm.
    - vm_compute. done. }
  destruct (fit_dub_b64_speed_up dubbed_audio_path _ _ w Hdv Hdd Hpos Hlong Hq)
    as (speed_needed & Hround & H1 & H2 & H3 & Hfit).
  exists speed_needed. repeat (split; [done|]). split.
  - rewrite (mix_audio_b64_opened _ _ _ _ _ _ _ _ Hv Hd).
    rewrite (bind_at _ _ _ _ Hfit). by rewrite bind_assoc.
  - intros H30 H33. rewrite <- Hround. apply round_comp.
    rewrite H30, H33. vm_compute. done.
Qed.

(** C3, as the code has it.  The test is made on the rounded quotient, so
    that the bound of the truncation lies [half_ulp] above
    [MAX_SPEED_FACTOR].  When [dubbed_duration > video_duration *
    (1.25 + 2^-53)] ([video_duration > 0]), [mix_audio] truncates the
    dubbed track: no process is run (no tempo change) and the track laid
    over the original sound is the clip [subclip(0, video_duration)] of the
    opened track, whose duration is [video_duration].  When
    [video_duration * 1.25 < dubbed_duration <= video_duration *
    (1.25 + 2^-53)], the quotient rounds to 1.25 and the track is not
    truncated: ffmpeg is run on it with the tempo 1.25. *)
Theorem mix_audio_b64_truncated original_video_path dubbed_audio_path
    output_path original_volume video_duration w video dubbed_audio :
  VideoFileClip original_video_path w = (w, Ok video) →
  AudioFileClip dubbed_audio_path w = (w, Ok dubbed_audio) →
  let duration_used := default (v_duration video) video_duration in
  (0 < duration_used)%Q →
  let clipped := subclip dubbed_audio 0 duration_used in
  let final_video :=
    set_audio video (composite (attenuated video original_volume) clipped) in
  let temp_adjusted := path_join TEMP_DIR (py "adjusted_dub.mp3") in
  ((duration_used * (MAX_SPEED_FACTOR + half_ulp) < duration dubbed_audio)%Q →
   fit_dub_b64 dubbed_audio_path duration_used dubbed_audio w
     = (w, Ok clipped)
   ∧ (duration clipped == duration_used)%Q
   ∧ mix_audio_b64 original_video_path dubbed_audio_path output_path
       original_volume video_duration w
     = (write_videofile final_video output_path ;;; ret output_path) w
   ∧ trace (mix_audio_b64 original_video_path dubbed_audio_path output_path
              original_volume video_duration w).1
     = trace w ++ [Render final_video output_path])
  ∧ ((duration_used * MAX_SPEED_FACTOR < duration dubbed_audio)%Q →
     (duration dubbed_audio
      <= duration_used * (MAX_SPEED_FACTOR + half_ulp))%Q →
     round (duration dubbed_audio / duration_used) = Finite MAX_SPEED_FACTOR
     ∧ mix_audio_b64 original_video_path dubbed_audio_path output_path
         original_volume video_duration w
       = (run [Arg (py "ffmpeg"); Arg (py "-y");
               Arg (py "-i"); Arg dubbed_audio_path;
               Arg (py "-filter:a"); Atempo MAX_SPEED_FACTOR;
               Arg (py "-vn");
               Arg temp_adjusted] ;;;
          fitted <- AudioFileClip temp_adjusted ;;
          write_videofile
            (set_audio video
               (composite (attenuated video original_volume) fitted))
            output_path ;;;
          ret output_path) w).
Proof.
  intros Hv Hd duration_used Hpos clipped final_video temp_adjusted. split.
  - intros Hlong.
    assert (Hq : (MAX_SPEED_FACTOR + half_ulp
                  < duration dubbed_audio / duration_used)%Q).
    { apply Qlt_shift_div_l; [done|]. by rewrite Qmult_comm. }
    pose proof (fit_dub_b64_cut dubbed_audio_path _ _ w Hpos Hq) as Hfit.
    assert (Hmix : mix_audio_b64 original_video_path dubbed_audio_path
                     output_path original_volume video_duration w
                   = (write_videofile final_video output_path ;;;
                      ret output_path) w).
    { rewrite (mix_audio_b64_opened _ _ _ _ _ _ _ _ Hv Hd).
      by rewrite (bind_Ok _ _ _ _ _ Hfit). }
    split; [done|]. split; [|split; [done|]].
    + simpl. unfold Qminus. by rewrite Qplus_0_r.
    + rewrite Hmix. apply render_trace.
  - intros Hlo Hhi.
    assert (Hq1 : (MAX_SPEED_FACTOR
                   < duration dubbed_audio / duration_used)%Q).
    { apply Qlt_shift_div_l; [done|]. by rewrite Qmult_comm. }
    assert (Hq2 : (duration dubbed_audio / duration_used
                   <= MAX_SPEED_FACTOR + half_ulp)%Q).
    { apply Qle_shift_div_r; [done|]. by rewrite Qmult_comm. }
    destruct (fit_dub_b64_band dubbed_audio_path _ _ w Hpos Hq1 Hq2)
      as [Hround Hfit].
    split; [done|].
    rewrite (mix_audio_b64_opened _ _ _ _ _ _ _ _ Hv Hd).
    rewrite (bind_at _ _ _ _ Hfit). by rewrite bind_assoc.
Qed.

(** C4, as the code has it.  There is no check of the durations: a zero
    [video_duration] is an error only through the division, that is when
    the dubbed track is longer than zero seconds, and the error is
    [ZeroDivisionError]; a dubbed track of zero seconds is passed through
    for every [video_duration >= 0], zero included, without any error from
    the reconciliation. *)
Theorem mix_audio_zero_durations original_video_path dubbed_audio_path
    output_path original_volume video_duration w video dubbed_audio :
  VideoFileClip original_video_path w = (w, Ok video) →
  AudioFileClip dubbed_audio_path w = (w, Ok dubbed_audio) →
  let duration_used := default (v_duration video) video_duration in
  let final_video :=
    set_audio video
      (composite (attenuated video original_volume) dubbed_audio) in
  ((duration_used == 0)%Q → (0 < duration dubbed_audio)%Q →
     fit_dub dubbed_audio_path duration_used dubbed_audio w
       = (w, Raise ZeroDivisionError)
     ∧ mix_audio original_video_path dubbed_audio_path output_path
         original_volume video_duration w
       = (w, Raise ZeroDivisionError))
  ∧ ((duration dubbed_audio == 0)%Q → (0 <= duration_used)%Q →
     fit_dub dubbed_audio_path duration_used dubbed_audio w
       = (w, Ok dubbed_audio)
     ∧ mix_audio original_video_path dubbed_audio_path output_path
         original_volume video_duration w
       = (write_videofile final_video output_path ;;; ret output_path) w).
Proof.
  intros Hv Hd duration_used final_video. split.
  - intros Hz Hpos.
    pose proof (fit_dub_zero_video dubbed_audio_path _ _ w Hz Hpos) as Hfit.
    split; [done|]. rewrite (mix_audio_opened _ _ _ _ _ _ _ _ Hv Hd).
    by rewrite (bind_Raise _ _ _ _ _ Hfit).
  - intros Hz Hpos.
    assert (Hle : (duration dubbed_audio <= duration_used)%Q)
      by by rewrite Hz.
    pose proof (fit_dub_short dubbed_audio_path _ _ w Hle) as Hfit.
    split; [done|]. rewrite (mix_audio_opened _ _ _ _ _ _ _ _ Hv Hd).
    by rewrite (bind_Ok _ _ _ _ _ Hfit).
Qed.


(** C6. With a factor equal to 1.0, [adjust_audio_speed] is a call of
    [shutil.copy] and nothing else: whatever the outcome, no process is
    run.  When it returns, the bytes of the input file have been written,
    as they are, to one file, and no other file has changed.  It raises
    without a change when the input file is missing or is the output path
    itself.  When the input file exists, the output path is another one
    and [shutil.copy] writes to the output path (it is no directory, and
    the system refuses nothing), the output path holds the very bytes of
    the input afterwards, and the input is still there. *)
Theorem adjust_audio_speed_copy audio_path speed_factor output_path w :
  (speed_factor == 1)%Q →
  let w' := (adjust_audio_speed audio_path speed_factor output_path w).1 in
  let outcome :=
    (adjust_audio_speed audio_path speed_factor output_path w).2 in
  trace w' = trace w
  ∧ (outcome = Ok tt →
     ∃ data target,
       files w !! audio_path = Some data
       ∧ copy_file audio_path output_path (files w) = Copied target
       ∧ files w' = <[target := data]> (files w))
  ∧ (files w !! audio_path = None ∨ audio_path = output_path →
     is_raise outcome = true ∧ w' = w)
  ∧ (∀ data,
       files w !! audio_path = Some data →
       audio_path ≠ output_path →
       copy_file audio_path output_path (files w) = Copied output_path →
       adjust_audio_speed audio_path speed_factor output_path w
       = ({| files := <[output_path := data]> (files w); trace := trace w |},
          Ok tt)
       ∧ files w' !! output_path = Some data
       ∧ files w' !! audio_path = Some data
       ∧ ∀ path, path ≠ output_path → files w' !! path = files w !! path).
Proof.
  intros Hone w' outcome. subst w' outcome.
  unfold adjust_audio_speed. apply Qeq_bool_iff in Hone. rewrite Hone.
  unfold shutil_copy.
  destruct (files w !! audio_path) as [data|] eqn:Hsrc; cbn [fst snd].
  2:{ cbn [is_raise]. by repeat split. }
  destruct (decide (audio_path = output_path)) as [Hsame|Hne];
    cbn [fst snd is_raise]; [by repeat split|].
  destruct (copy_file audio_path output_path (files w)) as [target|e debris];
    cbn [fst snd is_raise files trace].
  - split; [done|]. split; [intros _; by exists data, target|].
    split; [by intros [|]|]. intros data' [= <-] _ [= ->]. split; [done|].
    split; [apply lookup_insert_eq|]. split; [by rewrite lookup_insert_ne|].
    intros path Hpath. by rewrite lookup_insert_ne.
  - split; [done|]. split; [done|]. split; [by intros [|]|]. done.
Qed.


End MixerFacts.

(** *** The theorems on concrete worlds *)

Lemma mix_audio_pass_through_witness :
  let w := Demo.studio true 30 20 in
  let final_video :=
    set_audio (Demo.the_video true 30)
      (composite (attenuated (Demo.the_video true 30) ORIGINAL_AUDIO_VOLUME)
         (Demo.the_dub 20)) in
  fit_dub (tools := Demo.tools) Demo.dub_path (Demo.seconds 30)
    (Demo.the_dub 20) w = (w, Ok (Demo.the_dub 20))
  ∧ mix_audio (tools := Demo.tools) Demo.video_path Demo.dub_path
      Demo.out_path ORIGINAL_AUDIO_VOLUME None w
    = (write_videofile (tools := Demo.tools) final_video Demo.out_path ;;;
       ret Demo.out_path) w
  ∧ trace (mix_audio (tools := Demo.tools) Demo.video_path Demo.dub_path
             Demo.out_path ORIGINAL_AUDIO_VOLUME None w).1
    = trace w ++ [Render final_video Demo.out_path].
Proof.
  apply (mix_audio_pass_through (tools := Demo.tools) Demo.video_path
           Demo.dub_path Demo.out_path ORIGINAL_AUDIO_VOLUME None
           (Demo.studio true 30 20) (Demo.the_video true 30)
           (Demo.the_dub 20)); run_demo.
Defined.

(** [round] and the processor give the same quotient on the samples, and
    the same product for the rounded bound of [Demo.video_3_92]. *)
Example round_is_hardware_div :
  Forall (λ dv : (Z * Z) * (Z * Z),
            Hardware.div dv.1 dv.2
            = Some (round (dbl dv.1.1 dv.1.2 / dbl dv.2.1 dv.2.2)))
    Hardware.samples.
Proof.
  unfold Hardware.samples.
  repeat (apply List.Forall_cons; [vm_compute; reflexivity|]).
  apply List.Forall_nil.
Qed.

Example float_mul_is_hardware_mul :
  Hardware.mul (2208240494536531, -49)%Z (5, -2)%Z
  = Some (float_mul Demo.video_3_92 MAX_SPEED_FACTOR).
Proof. vm_compute. reflexivity. Qed.

Lemma mix_audio_b64_scaled_witness :
  let w := Demo.studio true 30 33 in
  let temp_adjusted := path_join TEMP_DIR (py "adjusted_dub.mp3") in
  ∃ speed_needed,
    round (duration (Demo.the_dub 33) / Demo.seconds 30) = Finite speed_needed
    ∧ (Qabs (speed_needed - duration (Demo.the_dub 33) / Demo.seconds 30)
       <= half_ulp)%Q
    ∧ (speed_needed <= MAX_SPEED_FACTOR)%Q
    ∧ (1 < speed_needed)%Q
    ∧ mix_audio_b64 (tools := Demo.tools) Demo.video_path Demo.dub_path
        Demo.out_path ORIGINAL_AUDIO_VOLUME None w
      = (run (tools := Demo.tools)
           [Arg (py "ffmpeg"); Arg (py "-y");
            Arg (py "-i"); Arg Demo.dub_path;
            Arg (py "-filter:a"); Atempo speed_needed;
            Arg (py "-vn");
            Arg temp_adjusted] ;;;
         fitted <- AudioFileClip (tools := Demo.tools) temp_adjusted ;;
         write_videofile (tools := Demo.tools)
           (set_audio (Demo.the_video true 30)
              (composite
                 (attenuated (Demo.the_video true 30) ORIGINAL_AUDIO_VOLUME)
                 fitted))
           Demo.out_path ;;;
         ret Demo.out_path) w
    ∧ ((Demo.seconds 30 == 30)%Q → (duration (Demo.the_dub 33) == 33)%Q →
       Finite speed_needed = round (11 # 10)).
Proof.
  apply (mix_audio_b64_scaled (tools := Demo.tools) Demo.video_path
           Demo.dub_path Demo.out_path ORIGINAL_AUDIO_VOLUME None
           (Demo.studio true 30 33) (Demo.the_video true 30)
           (Demo.the_dub 33));
    [run_demo|run_demo|double_demo 30%Z 0%Z|double_demo 33%Z 0%Z
    |run_demo|run_demo|run_demo].
Defined.

(** The run of the scenario: thirty seconds of video, thirty-three of
    speech, and ffmpeg is asked for the double 1.1. *)
Example mix_audio_b64_scenario :
  trace (mix_audio_b64 (tools := Demo.tools) Demo.video_path Demo.dub_path
           Demo.out_path ORIGINAL_AUDIO_VOLUME None
           (Demo.studio true 30 33)).1
  = [Spawn [Arg (py "ffmpeg"); Arg (py "-y");
            Arg (py "-i"); Arg (py "temp/dubbed_audio.mp3");
            Arg (py "-filter:a");
            Atempo (2476979795053773 # 2251799813685248);
            Arg (py "-vn");
            Arg (py "temp/adjusted_dub.mp3")];
     Render
       (set_audio (Demo.the_video true 30)
          (composite
             (attenuated (Demo.the_video true 30) ORIGINAL_AUDIO_VOLUME)
             (AudioFile (py "temp/adjusted_dub.mp3") (repeat x00 30)
                (Demo.seconds 30))))
       Demo.out_path].
Proof. vm_compute. reflexivity. Qed.

(** C2, the claim as the spec has it, fails when the bound
    [video_duration * max_scale] is the product the program would compute.
    For the doubles [v = 3.9226231055105583] and [d = 4.903278881888198],
    [v < d] and [d] is [v * 1.25] as rounded by the processor, so that
    [d <= v * 1.25] holds for the program; yet [d / v] is
    1.2500000000000002, more than 1.25, and the track is truncated, not
    scaled: no process is run.  And where the track is scaled, the factor
    is not the quotient of the durations but the double nearest to it: for
    33 and 30 seconds it is not 11/10. *)
Lemma mix_audio_b64_rounded_product :
  let v := Demo.video_3_92 in
  let d := Demo.dub_4_90 in
  let w := Demo.studio true 0 0 in
  let dubbed_audio := AudioFile Demo.dub_path [] d in
  is_double v ∧ is_double d
  ∧ (0 < v)%Q ∧ (v < d)%Q
  ∧ float_mul v MAX_SPEED_FACTOR = Finite (Qred d)
  ∧ round (d / v) = Finite (Qred (dbl 5629499534213121 (-52)))
  ∧ (∃ speed_needed, round (33 / 30) = Finite speed_needed
                     ∧ ¬ (speed_needed == 33 / 30)%Q)
  ∧ AudioFileClip (tools := Demo.tools_reading d) Demo.dub_path w
    = (w, Ok dubbed_audio)
  ∧ fit_dub_b64 (tools := Demo.tools_reading d) Demo.dub_path v
      dubbed_audio w
    = (w, Ok (subclip dubbed_audio 0 v))
  ∧ trace (mix_audio_b64 (tools := Demo.tools_reading d) Demo.video_path
             Demo.dub_path Demo.out_path ORIGINAL_AUDIO_VOLUME (Some v) w).1
    = [Render
         (set_audio (Demo.the_video true 0)
            (composite
               (attenuated (Demo.the_video true 0) ORIGINAL_AUDIO_VOLUME)
               (subclip dubbed_audio 0 v)))
         Demo.out_path].
Proof.
  cbv zeta. split; [double_demo 2208240494536531%Z (-49)%Z|].
  split; [double_demo 345037577271333%Z (-46)%Z|].
  do 4 (split; [run_demo|]).
  split; [eexists; split; [vm_compute; reflexivity|run_demo]|].
  repeat split; run_demo.
Qed.

(** C3, the claim as the spec has it, fails.  For the doubles
    [v = 363.7635273242382] and [d = 454.7044091552978], [d] is more than
    [v * 1.25], for the exact product and for the product of the processor
    alike; yet [d / v] rounds to 1.25 and the track is not truncated:
    ffmpeg is run on it with the tempo 1.25. *)
Lemma mix_audio_b64_boundary_scaled :
  let v := Demo.video_363 in
  let d := Demo.dub_454 in
  let w := Demo.studio true 0 0 in
  is_double v ∧ is_double d
  ∧ (0 < v)%Q
  ∧ (v * MAX_SPEED_FACTOR < d)%Q
  ∧ (∃ product, float_mul v MAX_SPEED_FACTOR = Finite product
                ∧ (product < d)%Q)
  ∧ round (d / v) = Finite MAX_SPEED_FACTOR
  ∧ AudioFileClip (tools := Demo.tools_reading d) Demo.dub_path w
    = (w, Ok (AudioFile Demo.dub_path [] d))
  ∧ trace (mix_audio_b64 (tools := Demo.tools_reading d) Demo.video_path
             Demo.dub_path Demo.out_path ORIGINAL_AUDIO_VOLUME (Some v) w).1
    = [Spawn [Arg (py "ffmpeg"); Arg (py "-y");
              Arg (py "-i"); Arg Demo.dub_path;
              Arg (py "-filter:a"); Atempo MAX_SPEED_FACTOR;
              Arg (py "-vn");
              Arg (py "temp/adjusted_dub.mp3")];
       Render
         (set_audio (Demo.the_video true 0)
            (composite
               (attenuated (Demo.the_video true 0) ORIGINAL_AUDIO_VOLUME)
               (AudioFile (path_join TEMP_DIR (py "adjusted_dub.mp3"))
                  (repeat x00 30) d)))
         Demo.out_path].
Proof.
  cbv zeta. split; [double_demo 3199697824430501%Z (-43)%Z|].
  split; [double_demo 7999244561076253%Z (-44)%Z|].
  split; [run_demo|]. split; [run_demo|].
  split; [eexists; split; [vm_compute; reflexivity|run_demo]|].
  repeat split; run_demo.
Qed.

Lemma mix_audio_b64_truncated_witness :
  let w := Demo.studio true 20 40 in
  let clipped := subclip (Demo.the_dub 40) 0 (Demo.seconds 20) in
  let final_video :=
    set_audio (Demo.the_video true 20)
      (composite (attenuated (Demo.the_video true 20) ORIGINAL_AUDIO_VOLUME)
         clipped) in
  let v := Demo.video_363 in
  let d := Demo.dub_454 in
  let w0 := Demo.studio true 0 0 in
  (fit_dub_b64 (tools := Demo.tools) Demo.dub_path (Demo.seconds 20)
     (Demo.the_dub 40) w = (w, Ok clipped)
   ∧ (duration clipped == Demo.seconds 20)%Q
   ∧ mix_audio_b64 (tools := Demo.tools) Demo.video_path Demo.dub_path
       Demo.out_path ORIGINAL_AUDIO_VOLUME None w
     = (write_videofile (tools := Demo.tools) final_video Demo.out_path ;;;
        ret Demo.out_path) w
   ∧ trace (mix_audio_b64 (tools := Demo.tools) Demo.video_path Demo.dub_path
              Demo.out_path ORIGINAL_AUDIO_VOLUME None w).1
     = trace w ++ [Render final_video Demo.out_path])
  ∧ (round (d / v) = Finite MAX_SPEED_FACTOR
     ∧ mix_audio_b64 (tools := Demo.tools_reading d) Demo.video_path
         Demo.dub_path Demo.out_path ORIGINAL_AUDIO_VOLUME (Some v) w0
       = (run (tools := Demo.tools_reading d)
            [Arg (py "ffmpeg"); Arg (py "-y");
             Arg (py "-i"); Arg Demo.dub_path;
             Arg (py "-filter:a"); Atempo MAX_SPEED_FACTOR;
             Arg (py "-vn");
             Arg (path_join TEMP_DIR (py "adjusted_dub.mp3"))] ;;;
          fitted <- AudioFileClip (tools := Demo.tools_reading d)
                      (path_join TEMP_DIR (py "adjusted_dub.mp3")) ;;
          write_videofile (tools := Demo.tools_reading d)
            (set_audio (Demo.the_video true 0)
               (composite
                  (attenuated (Demo.the_video true 0) ORIGINAL_AUDIO_VOLUME)
                  fitted))
            Demo.out_path ;;;
          ret Demo.out_path) w0).
Proof.
  split.
  - apply (mix_audio_b64_truncated (tools := Demo.tools) Demo.video_path
             Demo.dub_path Demo.out_path ORIGINAL_AUDIO_VOLUME None
             (Demo.studio true 20 40) (Demo.the_video true 20)
             (Demo.the_dub 40)); run_demo.
  - apply (mix_audio_b64_truncated
             (tools := Demo.tools_reading Demo.dub_454) Demo.video_path
             Demo.dub_path Demo.out_path ORIGINAL_AUDIO_VOLUME
             (Some Demo.video_363) (Demo.studio true 0 0)
             (Demo.the_video true 0)
             (AudioFile Demo.dub_path [] Demo.dub_454)); run_demo.
Defined.

(** C4, the claim as the spec has it, fails: a video of zero seconds with a
    dubbed track of zero seconds goes through [mix_audio] without any
    error. *)
Lemma mix_audio_zero_video_no_error :
  (v_duration (Demo.the_video true 0) == 0)%Q
  ∧ VideoFileClip (tools := Demo.tools) Demo.video_path (Demo.studio true 0 0)
    = (Demo.studio true 0 0, Ok (Demo.the_video true 0))
  ∧ (mix_audio (tools := Demo.tools) Demo.video_path Demo.dub_path
       Demo.out_path ORIGINAL_AUDIO_VOLUME None (Demo.studio true 0 0)).2
    = Ok Demo.out_path.
Proof. split; [|split]; run_demo. Qed.

Lemma mix_audio_zero_durations_witness :
  mix_audio (tools := Demo.tools) Demo.video_path Demo.dub_path
    Demo.out_path ORIGINAL_AUDIO_VOLUME None (Demo.studio true 0 5)
  = (Demo.studio true 0 5, Raise ZeroDivisionError)
  ∧ mix_audio (tools := Demo.tools) Demo.video_path Demo.dub_path
      Demo.out_path ORIGINAL_AUDIO_VOLUME None (Demo.studio true 30 0)
    = (write_videofile (tools := Demo.tools)
         (set_audio (Demo.the_video true 30)
            (composite
               (attenuated (Demo.the_video true 30) ORIGINAL_AUDIO_VOLUME)
               (Demo.the_dub 0)))
         Demo.out_path ;;;
       ret Demo.out_path) (Demo.studio true 30 0).
Proof.
  split.
  - apply (mix_audio_zero_durations (tools := Demo.tools) Demo.video_path
             Demo.dub_path Demo.out_path ORIGINAL_AUDIO_VOLUME None
             (Demo.studio true 0 5) (Demo.the_video true 0)
             (Demo.the_dub 5)); run_demo.
  - apply (mix_audio_zero_durations (tools := Demo.tools) Demo.video_path
             Demo.dub_path Demo.out_path ORIGINAL_AUDIO_VOLUME None
             (Demo.studio true 30 0) (Demo.the_video true 30)
             (Demo.the_dub 0)); run_demo.
Defined.


Lemma adjust_audio_speed_copy_witness :
  let w := Demo.studio true 30 20 in
  let temp_adjusted := path_join TEMP_DIR (py "adjusted_dub.mp3") in
  let w' := (adjust_audio_speed (tools := Demo.tools) Demo.dub_path 1
               temp_adjusted w).1 in
  let outcome := (adjust_audio_speed (tools := Demo.tools) Demo.dub_path 1
                    temp_adjusted w).2 in
  trace w' = trace w
  ∧ (outcome = Ok tt →
     ∃ data target,
       files w !! Demo.dub_path = Some data
       ∧ copy_file (Tools := Demo.tools) Demo.dub_path temp_adjusted
           (files w) = Copied target
       ∧ files w' = <[target := data]> (files w))
  ∧ (files w !! Demo.dub_path = None ∨ Demo.dub_path = temp_adjusted →
     is_raise outcome = true ∧ w' = w)
  ∧ (∀ data,
       files w !! Demo.dub_path = Some data →
       Demo.dub_path ≠ temp_adjusted →
       copy_file (Tools := Demo.tools) Demo.dub_path temp_adjusted (files w)
       = Copied temp_adjusted →
       adjust_audio_speed (tools := Demo.tools) Demo.dub_path 1
         temp_adjusted w
       = ({| files := <[temp_adjusted := data]> (files w); trace := trace w |},
          Ok tt)
       ∧ files w' !! temp_adjusted = Some data
       ∧ files w' !! Demo.dub_path = Some data
       ∧ ∀ path, path ≠ temp_adjusted → files w' !! path = files w !! path).
Proof.
  apply (adjust_audio_speed_copy (tools := Demo.tools) Demo.dub_path 1
           (path_join TEMP_DIR (py "adjusted_dub.mp3"))
           (Demo.studio true 30 20)); run_demo.
Defined.

(** The copy of the demonstration: the twenty seconds of the dubbed track
    are at the output path afterwards. *)
Example adjust_audio_speed_copy_run :
  let temp_adjusted := path_join TEMP_DIR (py "adjusted_dub.mp3") in
  let ended := adjust_audio_speed (tools := Demo.tools) Demo.dub_path 1
                 temp_adjusted (Demo.studio true 30 20) in
  ended.2 = Ok tt
  ∧ files ended.1 !! temp_adjusted = Some (repeat x00 20)
  ∧ trace ended.1 = [].
Proof. vm_compute. repeat split; reflexivity. Qed.

(** A copy to another spelling of the input path raises, and nothing is
    written. *)
Example adjust_audio_speed_same_file :
  adjust_audio_speed (tools := Demo.tools) Demo.dub_path 1
    (py "./temp/dubbed_audio.mp3") (Demo.studio true 30 20)
  = (Demo.studio true 30 20, Raise (SameFileError Demo.dub_path)).
Proof. vm_compute. reflexivity. Qed.


(** ** Cutting and translating a transcript: [translate_text] *)

Lemma len_app (a b : str) : len (a ++ b) = (len a + len b)%Z.
Proof. unfold len. rewrite length_app. lia. Qed.

Lemma len_nonneg (s : str) : (0 <= len s)%Z.
Proof. unfold len. lia. Qed.

Lemma len_space : len (py " ") = 1%Z.
Proof. reflexivity. Qed.

Lemma nonempty_true (s : str) : nonempty s = true ↔ s ≠ [].
Proof. destruct s; simpl; split; congruence. Qed.

Lemma nonempty_len (s : str) : (0 < len s)%Z → nonempty s = true.
Proof. destruct s; [unfold len; simpl; lia | done]. Qed.

Lemma lstrip_length (s : str) : (length (lstrip s) <= length s)%nat.
Proof.
  induction s as [|c s IH]; simpl; [lia|].
  destruct (is_space c); simpl; lia.
Qed.

Lemma strip_len (s : str) : (len (strip s) <= len s)%Z.
Proof.
  unfold len, strip, rstrip. rewrite length_rev.
  pose proof (lstrip_length (rev (lstrip s))) as H1.
  rewrite length_rev in H1. pose proof (lstrip_length s). lia.
Qed.

(** A leading blank does not survive [strip]. *)
Lemma strip_leading_space (s : str) : strip (py " " ++ s) = strip s.
Proof. reflexivity. Qed.

Lemma join_snoc (sep : str) (parts : list str) (p : str) :
  parts ≠ [] → join sep (parts ++ [p]) = join sep parts ++ sep ++ p.
Proof.
  induction parts as [|q parts IH]; [done|]. intros _.
  destruct parts as [|r parts]; [done|].
  change (join sep ((q :: r :: parts) ++ [p]))
    with (q ++ sep ++ join sep ((r :: parts) ++ [p])).
  rewrite IH by done.
  change (join sep (q :: r :: parts)) with (q ++ sep ++ join sep (r :: parts)).
  by rewrite <- !app_assoc.
Qed.

(** A joined list of two parts or more holds a separator. *)
Lemma join_nil (parts : list str) :
  join (py " ") parts = [] → parts = [] ∨ parts = [[]].
Proof.
  destruct parts as [|p [|q parts]]; [by left| |].
  - simpl. intros ->. by right.
  - change (join (py " ") (p :: q :: parts))
      with (p ++ py " " ++ join (py " ") (q :: parts)).
    intros Hnil. apply app_eq_nil in Hnil as [_ Hnil]. discriminate.
Qed.

(** *** The chunks and the sentences they are made of *)

Lemma chunk_step_traced_erase st sentence :
  erase (chunk_step_traced st sentence) = chunk_step (erase st) sentence.
Proof.
  destruct st as [chunks [current_chunk group]].
  unfold chunk_step_traced, chunk_step, erase. simpl.
  destruct (len current_chunk + len sentence <? max_chunk_size)%Z; [done|].
  simpl. destruct (nonempty current_chunk); [|done].
  by rewrite fmap_app.
Qed.

Lemma fold_chunk_step_traced_erase sentences st :
  erase (fold_left chunk_step_traced sentences st)
  = fold_left chunk_step sentences (erase st).
Proof.
  revert st. induction sentences as [|s sentences IH]; intros st; [done|].
  simpl. by rewrite IH, chunk_step_traced_erase.
Qed.

(** Forgetting the sentences of [make_chunks_traced] gives the chunks of
    the source. *)
Lemma make_chunks_traced_erase sentences :
  (make_chunks_traced sentences).*1 = make_chunks sentences.
Proof.
  unfold make_chunks_traced, make_chunks.
  pose proof (fold_chunk_step_traced_erase sentences ([], ([], []))) as He.
  change (erase ([], ([], []))) with (@nil str, @nil char) in He.
  rewrite <- He.
  destruct (fold_left chunk_step_traced sentences ([], ([], [])))
    as [chunks [current_chunk group]].
  unfold erase. simpl.
  destruct (nonempty current_chunk); [|done]. by rewrite fmap_app.
Qed.

Lemma make_chunks_traced_finish sentences :
  make_chunks_traced sentences
  = finish_traced (fold_left chunk_step_traced sentences ([], ([], []))).
Proof.
  unfold make_chunks_traced, finish_traced.
  by destruct (fold_left chunk_step_traced sentences ([], ([], [])))
    as [chunks [current_chunk group]].
Qed.

(** A chunk that is closed satisfies [chunk_ok]. *)
Lemma current_ok_closed current_chunk group :
  current_ok (current_chunk, group) → current_chunk ≠ [] →
  chunk_ok (strip current_chunk, group).
Proof.
  intros [Hjoin Hsize] Hne. cbn [fst snd] in *. split; cbn [fst snd].
  - destruct Hjoin as [[_ Hnil]|[_ [->| ->]]]; [done|done|].
    apply strip_leading_space.
  - destruct Hsize as [Hle|[-> Hbig]].
    + left. pose proof (strip_len current_chunk). lia.
    + right. by exists current_chunk.
Qed.

Lemma chunk_step_traced_ok st sentence :
  state_ok st → state_ok (chunk_step_traced st sentence).
Proof.
  destruct st as [chunks [current_chunk group]]. intros [Hchunks Hcur].
  unfold chunk_step_traced. cbn [fst snd] in Hchunks.
  destruct (len current_chunk + len sentence <? max_chunk_size)%Z eqn:Hfit.
  - apply Z.ltb_lt in Hfit. split; [done|].
    destruct Hcur as [Hjoin _]. cbn [fst snd] in *. split; cbn [fst snd].
    + right. split; [by destruct group|].
      destruct Hjoin as [[-> ->]|[Hne [->| ->]]].
      * by right.
      * left. by rewrite join_snoc.
      * right. rewrite join_snoc by done. by rewrite <- !app_assoc.
    + left. rewrite !len_app, len_space. lia.
  - apply Z.ltb_ge in Hfit. split; cbn [fst snd].
    + destruct (nonempty current_chunk) eqn:Hne; [|done].
      apply Forall_app. split; [done|]. apply Forall_singleton.
      apply current_ok_closed; [done|]. by apply nonempty_true.
    + split; cbn [fst snd]; [right; split; [done|by left]|].
      destruct (Z_le_gt_dec (len sentence) max_chunk_size);
        [by left|right; split; [done|lia]].
Qed.

Lemma fold_chunk_step_traced_ok sentences st :
  state_ok st → state_ok (fold_left chunk_step_traced sentences st).
Proof.
  revert st. induction sentences as [|s sentences IH]; intros st Hst;
    [done|].
  simpl. by apply IH, chunk_step_traced_ok.
Qed.

(** Every chunk is the stripped concatenation of its sentences, and is
    either within [max_chunk_size] or made of one sentence. *)
Lemma make_chunks_traced_ok sentences :
  Forall chunk_ok (make_chunks_traced sentences).
Proof.
  rewrite make_chunks_traced_finish.
  assert (Hinit : state_ok ([], ([], []))).
  { split; [by apply Forall_nil|]. split; cbn [fst snd]; [by left|by left]. }
  pose proof (fold_chunk_step_traced_ok sentences _ Hinit) as Hst.
  destruct (fold_left chunk_step_traced sentences ([], ([], [])))
    as [chunks [current_chunk group]].
  destruct Hst as [Hchunks Hcur]. unfold finish_traced. cbn [fst snd] in *.
  destruct (nonempty current_chunk) eqn:Hne; [|done].
  apply Forall_app. split; [done|]. apply Forall_singleton.
  apply current_ok_closed; [done|]. by apply nonempty_true.
Qed.

(** The chunk under construction is empty only when it holds no sentence,
    or one empty sentence. *)
Lemma current_ok_empty group :
  current_ok ([], group) → filter (λ s : str, s ≠ []) group = [].
Proof.
  unfold current_ok. cbn [fst snd].
  intros [[[-> _]|[_ [Hjoin|Hjoin]]] _]; [done| |].
  - symmetry in Hjoin. by apply join_nil in Hjoin as [-> | ->].
  - discriminate Hjoin.
Qed.

(** A step of the loop keeps the non-empty sentences, in order. *)
Lemma chunk_step_traced_sentences st sentence :
  state_ok st →
  filter (λ s : str, s ≠ []) (sentences_of (chunk_step_traced st sentence))
  = filter (λ s : str, s ≠ []) (sentences_of st ++ [sentence]).
Proof.
  destruct st as [chunks [current_chunk group]]. intros [_ Hcur].
  unfold chunk_step_traced, sentences_of. cbn [fst snd] in *.
  destruct (len current_chunk + len sentence <? max_chunk_size)%Z;
    cbn [fst snd]; [by rewrite app_assoc|].
  destruct current_chunk as [|c current_chunk]; cbn [nonempty].
  - rewrite !filter_app. by rewrite (current_ok_empty _ Hcur), app_nil_r.
  - rewrite fmap_app, concat_app. cbn [fmap list_fmap concat snd].
    by rewrite app_nil_r.
Qed.

Lemma fold_chunk_step_traced_sentences sentences st :
  state_ok st →
  filter (λ s : str, s ≠ [])
    (sentences_of (fold_left chunk_step_traced sentences st))
  = filter (λ s : str, s ≠ []) (sentences_of st ++ sentences).
Proof.
  revert st. induction sentences as [|s sentences IH]; intros st Hst.
  - by rewrite app_nil_r.
  - cbn [fold_left]. rewrite IH by by apply chunk_step_traced_ok.
    rewrite !filter_app, chunk_step_traced_sentences by done.
    rewrite filter_app. change (s :: sentences) with ([s] ++ sentences).
    by rewrite filter_app, app_assoc.
Qed.

(** The chunks hold every non-empty sentence, once, in the order of the
    text. *)
Lemma make_chunks_traced_sentences sentences :
  filter (λ s : str, s ≠ []) (concat (make_chunks_traced sentences).*2)
  = filter (λ s : str, s ≠ []) sentences.
Proof.
  rewrite make_chunks_traced_finish.
  assert (Hinit : state_ok ([], ([], []))).
  { split; [by apply Forall_nil|]. split; cbn [fst snd]; by left. }
  pose proof (fold_chunk_step_traced_sentences sentences _ Hinit) as Hs.
  change (sentences_of ([], ([], [])) ++ sentences) with sentences in Hs.
  pose proof (fold_chunk_step_traced_ok sentences _ Hinit) as Hst.
  destruct (fold_left chunk_step_traced sentences ([], ([], [])))
    as [chunks [current_chunk group]].
  destruct Hst as [_ Hcur]. unfold finish_traced, sentences_of in *.
  cbn [fst snd] in *. rewrite <- Hs.
  destruct current_chunk as [|c current_chunk]; cbn [nonempty].
  - rewrite filter_app. by rewrite (current_ok_empty _ Hcur), app_nil_r.
  - rewrite fmap_app, concat_app. cbn [fmap list_fmap concat snd].
    by rewrite app_nil_r.
Qed.

(** Closed chunks stay. *)
Lemma chunk_step_traced_keeps st sentence cg :
  cg ∈ st.1 → cg ∈ (chunk_step_traced st sentence).1.
Proof.
  destruct st as [chunks [current_chunk group]]. cbn [fst]. intros Hin.
  unfold chunk_step_traced.
  destruct (len current_chunk + len sentence <? max_chunk_size)%Z;
    cbn [fst]; [done|].
  destruct (nonempty current_chunk); [|done]. apply elem_of_app. by left.
Qed.

Lemma finish_traced_keeps sentences st cg :
  cg ∈ st.1 → cg ∈ finish_traced (fold_left chunk_step_traced sentences st).
Proof.
  revert st. induction sentences as [|s sentences IH]; intros st Hin.
  - cbn [fold_left]. unfold finish_traced.
    destruct (nonempty st.2.1); [|done]. apply elem_of_app. by left.
  - cbn [fold_left]. by apply IH, chunk_step_traced_keeps.
Qed.

(** A chunk under construction that has reached [max_chunk_size] is closed
    as it is. *)
Lemma finish_traced_full sentences chunks current_chunk group :
  (max_chunk_size <= len current_chunk)%Z →
  (strip current_chunk, group)
  ∈ finish_traced
      (fold_left chunk_step_traced sentences (chunks, (current_chunk, group))).
Proof.
  intros Hfull.
  assert (Hne : nonempty current_chunk = true).
  { apply nonempty_len. unfold max_chunk_size in Hfull. lia. }
  destruct sentences as [|s sentences].
  - cbn [fold_left]. unfold finish_traced. cbn [fst snd]. rewrite Hne.
    apply elem_of_app. right. by apply list_elem_of_singleton.
  - cbn [fold_left]. apply finish_traced_keeps. unfold chunk_step_traced.
    pose proof (len_nonneg s).
    destruct (len current_chunk + len s <? max_chunk_size)%Z eqn:Hfit;
      [apply Z.ltb_lt in Hfit; lia|].
    cbn [fst]. rewrite Hne. apply elem_of_app. right.
    by apply list_elem_of_singleton.
Qed.

(** A sentence that does not fit in [max_chunk_size] is a chunk of its
    own. *)
Lemma make_chunks_traced_long_sentence sentences sentence :
  sentence ∈ sentences →
  (max_chunk_size <= len sentence)%Z →
  (strip sentence, [sentence]) ∈ make_chunks_traced sentences.
Proof.
  intros Hin Hlong. apply list_elem_of_split in Hin as (l1 & l2 & ->).
  rewrite make_chunks_traced_finish, fold_left_app. cbn [fold_left].
  destruct (fold_left chunk_step_traced l1 ([], ([], [])))
    as [chunks [current_chunk group]].
  unfold chunk_step_traced at 2. pose proof (len_nonneg current_chunk).
  destruct (len current_chunk + len sentence <? max_chunk_size)%Z eqn:Hfit;
    [apply Z.ltb_lt in Hfit; lia|].
  by apply finish_traced_full.
Qed.

(** As soon as a non-empty sentence has been read there is a chunk, closed
    or under construction. *)
Lemma chunk_step_traced_started st sentence :
  sentence ≠ [] ∨ st.2.1 ≠ [] ∨ st.1 ≠ [] →
  (chunk_step_traced st sentence).2.1 ≠ []
  ∨ (chunk_step_traced st sentence).1 ≠ [].
Proof.
  destruct st as [chunks [current_chunk group]]. cbn [fst snd].
  unfold chunk_step_traced.
  destruct (len current_chunk + len sentence <? max_chunk_size)%Z;
    cbn [fst snd].
  - intros _. left. intros Hnil. apply app_eq_nil in Hnil as [_ Hnil].
    discriminate Hnil.
  - intros [Hs|[Hc|Hch]]; [by left| |].
    + right. destruct current_chunk; [done|]. cbn [nonempty].
      intros Hnil. by apply app_eq_nil in Hnil as [_ Hnil].
    + right. destruct (nonempty current_chunk); [|done].
      intros Hnil. by apply app_eq_nil in Hnil as [_ Hnil].
Qed.

Lemma finish_traced_started sentences st :
  (∃ s, s ∈ sentences ∧ s ≠ []) ∨ st.2.1 ≠ [] ∨ st.1 ≠ [] →
  finish_traced (fold_left chunk_step_traced sentences st) ≠ [].
Proof.
  revert st. induction sentences as [|s sentences IH]; intros st Hst.
  - cbn [fold_left]. unfold finish_traced.
    destruct st as [chunks [current_chunk group]]. cbn [fst snd] in *.
    destruct Hst as [(s & Hin & _)|[Hc|Hch]].
    + by apply elem_of_nil in Hin.
    + destruct current_chunk; [done|]. cbn [nonempty].
      intros Hnil. by apply app_eq_nil in Hnil as [_ Hnil].
    + destruct (nonempty current_chunk); [|done].
      intros Hnil. by apply app_eq_nil in Hnil as [_ Hnil].
  - cbn [fold_left]. apply IH.
    destruct Hst as [(s' & Hin & Hne)|Hst].
    + apply elem_of_cons in Hin as [->|Hin].
      * right. apply chunk_step_traced_started. by left.
      * left. by exists s'.
    + right. apply chunk_step_traced_started. by right.
Qed.

(** A list of sentences with a non-empty one gives at least one chunk. *)
Lemma make_chunks_nonempty sentences sentence :
  sentence ∈ sentences → sentence ≠ [] →
  (1 <= length (make_chunks sentences))%nat.
Proof.
  intros Hin Hne. rewrite <- make_chunks_traced_erase, length_fmap.
  rewrite make_chunks_traced_finish.
  assert (Hsome : finish_traced
            (fold_left chunk_step_traced sentences ([], ([], []))) ≠ []).
  { apply finish_traced_started. left. by exists sentence. }
  destruct (finish_traced _); [done|]. simpl. lia.
Qed.

(** *** Sentences *)

(** Splitting drops nothing but white space. *)
Lemma split_scan_content in_separator after_terminator piece text :
  filter (λ c, is_space c = false)
    (concat (split_scan in_separator after_terminator piece text))
  = filter (λ c, is_space c = false) (piece ++ text).
Proof.
  revert in_separator after_terminator piece.
  induction text as [|c text IH]; intros in_separator after_terminator piece.
  - cbn [split_scan concat]. by rewrite app_nil_r.
  - cbn [split_scan].
    assert (Hgrow : filter (λ c, is_space c = false)
                      (concat (split_scan false (is_terminator c)
                                 (piece ++ [c]) text))
                    = filter (λ c, is_space c = false) (piece ++ c :: text)).
    { rewrite IH. by rewrite <- app_assoc. }
    destruct (is_space c) eqn:Hc; [|done].
    assert (Hdrop : filter (λ c, is_space c = false) (piece ++ c :: text)
                    = filter (λ c, is_space c = false) (piece ++ text)).
    { rewrite !filter_app, filter_cons_False; [done|]. by rewrite Hc. }
    destruct in_separator; [by rewrite IH|].
    destruct after_terminator.
    + cbn [concat]. rewrite filter_app, IH, Hdrop. cbn [app]. by rewrite filter_app.
    + rewrite IH. by rewrite <- app_assoc.
Qed.

Lemma split_sentences_content text :
  filter (λ c, is_space c = false) (concat (split_sentences text))
  = filter (λ c, is_space c = false) text.
Proof. apply split_scan_content. Qed.

(** A piece that is not empty is never lost. *)
Lemma split_scan_piece in_separator after_terminator piece text :
  piece ≠ [] →
  ∃ s, s ∈ split_scan in_separator after_terminator piece text ∧ s ≠ [].
Proof.
  revert in_separator after_terminator piece.
  induction text as [|c text IH]; intros in_separator after_terminator piece
    Hne; cbn [split_scan].
  - exists piece. split; [by apply list_elem_of_singleton|done].
  - assert (Hgrow : piece ++ [c] ≠ []).
    { intros Hnil. by apply app_eq_nil in Hnil as [_ Hnil]. }
    destruct (is_space c); [|by apply IH].
    destruct in_separator; [by apply IH|].
    destruct after_terminator; [|by apply IH].
    exists piece. split; [apply elem_of_cons; by left|done].
Qed.

(** A text that is not empty has a sentence that is not empty. *)
Lemma split_sentences_nonempty text :
  text ≠ [] → ∃ s, s ∈ split_sentences text ∧ s ≠ [].
Proof.
  destruct text as [|c text]; [done|]. intros _.
  unfold split_sentences. cbn [split_scan].
  destruct (is_space c); by apply split_scan_piece.
Qed.

(** A text without white space is one sentence, and [strip] leaves it as
    it is. *)
Lemma split_scan_no_space in_separator after_terminator piece text :
  Forall (λ c, is_space c = false) text →
  split_scan in_separator after_terminator piece text = [piece ++ text].
Proof.
  intros Htext. revert in_separator after_terminator piece.
  induction Htext as [|c text Hc _ IH];
    intros in_separator after_terminator piece; cbn [split_scan].
  - by rewrite app_nil_r.
  - rewrite Hc, IH. by rewrite <- app_assoc.
Qed.

Lemma lstrip_no_space s :
  Forall (λ c, is_space c = false) s → lstrip s = s.
Proof. intros [|c text Hc _]; [done|]. cbn [lstrip]. by rewrite Hc. Qed.

Lemma strip_no_space s :
  Forall (λ c, is_space c = false) s → strip s = s.
Proof.
  intros Hs. unfold strip, rstrip. rewrite (lstrip_no_space s Hs).
  rewrite lstrip_no_space by by apply Forall_rev.
  apply rev_involutive.
Qed.

Lemma repeat_no_space (c : char) n :
  is_space c = false → Forall (λ c, is_space c = false) (repeat c n).
Proof. intros Hc. induction n; cbn [repeat]; by constructor. Qed.

(** One sentence that does not fit is one chunk. *)
Lemma make_chunks_single sentence :
  (max_chunk_size <= len sentence)%Z →
  make_chunks [sentence] = [strip sentence].
Proof.
  intros Hlong. unfold make_chunks. cbn [fold_left]. unfold chunk_step.
  destruct (len [] + len sentence <? max_chunk_size)%Z eqn:Hfit.
  { apply Z.ltb_lt in Hfit. change (len []) with 0%Z in Hfit. lia. }
  cbn [nonempty]. rewrite nonempty_len; [done|].
  unfold max_chunk_size in Hlong. lia.
Qed.

(** A text without white space that does not fit is one chunk, the text
    itself. *)
Lemma make_chunks_no_boundary text :
  Forall (λ c, is_space c = false) text →
  (max_chunk_size <= len text)%Z →
  make_chunks (split_sentences text) = [text].
Proof.
  intros Htext Hlong. unfold split_sentences.
  rewrite (split_scan_no_space _ _ _ _ Htext). cbn [app].
  rewrite make_chunks_single by done. by rewrite strip_no_space.
Qed.

(** *** The requests *)

Section TranslatorFacts.

Variable translate : nat → str → result str.

(** The loop of lines 208-215 makes one request per chunk, in order, and
    keeps the chunk where the request raises. *)
Lemma fold_translate_step chunks i translated_chunks :
  fold_left (translate_step translate) chunks (i, translated_chunks)
  = ((i + length chunks)%nat,
     translated_chunks
     ++ imap (λ j chunk, translated_or_kept translate (i + j) chunk) chunks).
Proof.
  revert i translated_chunks.
  induction chunks as [|chunk chunks IH]; intros i translated_chunks.
  - cbn [fold_left length imap]. by rewrite Nat.add_0_r, app_nil_r.
  - cbn [fold_left].
    assert (Hstep : translate_step translate (i, translated_chunks) chunk
                    = (S i, translated_chunks
                            ++ [translated_or_kept translate i chunk])).
    { unfold translate_step, translated_or_kept.
      by destruct (translate i chunk). }
    rewrite Hstep, IH. cbn [length]. rewrite imap_cons.
    rewrite Nat.add_succ_r, Nat.add_0_r, <- app_assoc. cbn [app].
    do 3 f_equal. apply imap_ext. intros j x _. cbn.
    by rewrite Nat.add_succ_r.
Qed.

Lemma translate_text_long text :
  (max_chunk_size < len text)%Z →
  translate_text translate text
  = Ok (join (py " ")
          (imap (translated_or_kept translate)
             (make_chunks (split_sentences text)))).
Proof.
  intros Hlong. unfold translate_text.
  destruct (len text <=? max_chunk_size)%Z eqn:Hshort;
    [apply Z.leb_le in Hshort; lia|].
  by rewrite fold_translate_step.
Qed.

End TranslatorFacts.

(** The chunks are the stripped concatenations of the groups of sentences. *)
Lemma make_chunks_groups sentences :
  make_chunks sentences
  = (λ group, strip (join (py " ") group))
      <$> (make_chunks_traced sentences).*2.
Proof.
  rewrite <- make_chunks_traced_erase.
  pose proof (make_chunks_traced_ok sentences) as Hok.
  induction Hok as [|[chunk group] traced [Hchunk _] _ IH]; [done|].
  cbn [fmap list_fmap fst snd] in *. by rewrite Hchunk, IH.
Qed.

(** C8, as the code has it.  For a text longer than [max_chunk_size],
    [translate_text] never raises.  It cuts the text at sentence boundaries
    into one chunk or more (one only, when the text has no boundary to cut
    at): each chunk is the stripped, blank-separated concatenation of a
    group of consecutive sentences, and the groups hold every non-empty
    sentence, in order.  It sends each chunk in a request of its own, keeps
    the chunk as it is where the request raises and its translation
    otherwise, and returns the results joined by single blanks. *)
Theorem translate_text_segments translate text :
  (max_chunk_size < len text)%Z →
  let sentences := split_sentences text in
  let chunks := make_chunks sentences in
  let groups := (make_chunks_traced sentences).*2 in
  (1 <= length chunks)%nat
  ∧ chunks = (λ group, strip (join (py " ") group)) <$> groups
  ∧ filter (λ s : str, s ≠ []) (concat groups)
    = filter (λ s : str, s ≠ []) sentences
  ∧ translate_text translate text
    = Ok (join (py " ")
            (imap (λ i chunk,
                     match translate i chunk with
                     | Ok translated_chunk => translated_chunk
                     | Raise _ => chunk
                     end)
               chunks)).
Proof.
  intros Hlong sentences chunks groups.
  split; [|split; [|split]].
  - assert (Htext : text ≠ []).
    { intros ->. unfold max_chunk_size, len in Hlong. simpl in Hlong. lia. }
    destruct (split_sentences_nonempty text Htext) as (s & Hin & Hne).
    by apply (make_chunks_nonempty _ s).
  - apply make_chunks_groups.
  - apply make_chunks_traced_sentences.
  - by apply translate_text_long.
Qed.

(** C8, the claim as the spec has it, fails: a text of 4501 characters
    without a sentence boundary is longer than the threshold and makes one
    segment, not two or more. *)
Lemma translate_text_single_segment :
  (max_chunk_size < len Demo.one_long_sentence)%Z
  ∧ make_chunks (split_sentences Demo.one_long_sentence)
    = [Demo.one_long_sentence].
Proof.
  assert (Hlen : (max_chunk_size < len Demo.one_long_sentence)%Z)
    by (vm_compute; reflexivity).
  split; [exact Hlen|]. apply make_chunks_no_boundary.
  - by apply repeat_no_space.
  - apply Z.lt_le_incl, Hlen.
Qed.

(** Two chunks, the first request fails and the second one does not: the
    first chunk is kept as it was, the second one is translated. *)
Example translate_step_failure :
  fold_left (translate_step Demo.translator) [py "Hello."; py "Bye."]
    (0%nat, [])
  = (2%nat, [py "Hello."; py "<Bye.>"]).
Proof. vm_compute. reflexivity. Qed.

Lemma translate_text_segments_witness :
  let sentences := split_sentences Demo.two_sentences in
  let chunks := make_chunks sentences in
  let groups := (make_chunks_traced sentences).*2 in
  (1 <= length chunks)%nat
  ∧ chunks = (λ group, strip (join (py " ") group)) <$> groups
  ∧ filter (λ s : str, s ≠ []) (concat groups)
    = filter (λ s : str, s ≠ []) sentences
  ∧ translate_text Demo.translator Demo.two_sentences
    = Ok (join (py " ")
            (imap (λ i chunk,
                     match Demo.translator i chunk with
                     | Ok translated_chunk => translated_chunk
                     | Raise _ => chunk
                     end)
               chunks)).
Proof.
  apply (translate_text_segments Demo.translator Demo.two_sentences).
  vm_compute. reflexivity.
Defined.

(** C10. In the chunking of a text longer than [max_chunk_size], a chunk
    assembled from two sentences or more (it is the stripped, blank-separated
    concatenation of its sentences) has at most [max_chunk_size] characters;
    a sentence that is longer than [max_chunk_size] once stripped is a chunk
    of its own, sent as it is (stripped), and that chunk is longer than
    [max_chunk_size]. *)
Theorem make_chunks_threshold text :
  (max_chunk_size < len text)%Z →
  let sentences := split_sentences text in
  let traced := make_chunks_traced sentences in
  traced.*1 = make_chunks sentences
  ∧ (∀ chunk group,
       (chunk, group) ∈ traced → (2 <= length group)%nat →
       chunk = strip (join (py " ") group)
       ∧ (len chunk <= max_chunk_size)%Z)
  ∧ (∀ sentence,
       sentence ∈ sentences → (max_chunk_size < len (strip sentence))%Z →
       (strip sentence, [sentence]) ∈ traced
       ∧ strip sentence ∈ make_chunks sentences
       ∧ (max_chunk_size < len (strip sentence))%Z).
Proof.
  intros _ sentences traced. split; [apply make_chunks_traced_erase|]. split.
  - intros chunk group Hin Hlen.
    pose proof (make_chunks_traced_ok sentences) as Hok.
    rewrite Forall_forall in Hok.
    destruct (Hok _ Hin) as [Hjoin Hsize]. cbn [fst snd] in *.
    split; [done|]. destruct Hsize as [Hle|(s & -> & _)]; [done|].
    simpl in Hlen. lia.
  - intros sentence Hin Hlong.
    assert (Htraced : (strip sentence, [sentence]) ∈ traced).
    { apply make_chunks_traced_long_sentence; [done|].
      pose proof (strip_len sentence). lia. }
    split; [done|]. split; [|done].
    rewrite <- make_chunks_traced_erase.
    by apply (list_elem_of_fmap_2 fst _ (strip sentence, [sentence])).
Qed.

Lemma make_chunks_threshold_witness :
  let sentences := split_sentences Demo.one_long_sentence in
  let traced := make_chunks_traced sentences in
  traced.*1 = make_chunks sentences
  ∧ (∀ chunk group,
       (chunk, group) ∈ traced → (2 <= length group)%nat →
       chunk = strip (join (py " ") group)
       ∧ (len chunk <= max_chunk_size)%Z)
  ∧ (∀ sentence,
       sentence ∈ sentences → (max_chunk_size < len (strip sentence))%Z →
       (strip sentence, [sentence]) ∈ traced
       ∧ strip sentence ∈ make_chunks sentences
       ∧ (max_chunk_size < len (strip sentence))%Z).
Proof.
  apply (make_chunks_threshold Demo.one_long_sentence).
  vm_compute. reflexivity.
Defined.

(** ** Running a batch: [batch_process] *)

Lemma count_status_total results :
  (count_status (py "success") results + count_status (py "failed") results
   = length results)%nat.
Proof.
  unfold count_status. induction results as [|r results IH]; [done|].
  rewrite !filter_cons. destruct r; cbn [status].
  - rewrite decide_True, decide_False by done. simpl. lia.
  - rewrite decide_False, decide_True by done. simpl. lia.
Qed.

Section BatchFacts.

Context {W : Type}.
Variable open_lines : str → W → result (list str).
Variable process_video : str → str → W → W * result str.
Variable exn_str : exn → str.

(** The results so far are only added to. *)
Lemma fold_batch_step target_lang urls w results :
  fold_left (batch_step process_video exn_str target_lang) urls (w, results)
  = ((batch_loop process_video exn_str target_lang urls w).1,
     results ++ (batch_loop process_video exn_str target_lang urls w).2).
Proof.
  unfold batch_loop. revert w results.
  induction urls as [|url urls IH]; intros w results.
  - cbn [fold_left fst snd]. by rewrite app_nil_r.
  - cbn [fold_left]. unfold batch_step at 2 4 6.
    destruct (process_video url target_lang w) as [w1 [output|e]];
      rewrite IH, (IH w1 ([] ++ _)); cbn [fst snd];
      by rewrite <- !app_assoc.
Qed.

(** The loop follows the runner of the spec. *)
Lemma batch_loop_runs target_lang urls w :
  runs process_video exn_str target_lang w urls
    (batch_loop process_video exn_str target_lang urls w).2
    (batch_loop process_video exn_str target_lang urls w).1.
Proof.
  revert w. induction urls as [|url urls IH]; intros w; [constructor|].
  unfold batch_loop. cbn [fold_left]. unfold batch_step at 2 4.
  destruct (process_video url target_lang w) as [w1 [output|e]] eqn:Hrun;
    rewrite fold_batch_step; cbn [fst snd app].
  - by eapply runs_success.
  - by eapply runs_failed.
Qed.

Lemma runs_urls target_lang w urls results w' :
  runs process_video exn_str target_lang w urls results w' →
  url_of <$> results = urls.
Proof. induction 1; cbn [fmap list_fmap url_of]; by f_equal. Qed.

(** C9. [batch_process] runs the jobs of the batch file one at a time, in
    input order, each from the state the previous one left; a job that
    raises is recorded as failed and the next job is run all the same.  The
    list returned has one outcome per job, in the order of the jobs, and the
    numbers of successes and of failures add up to its length. *)
Theorem batch_process_outcomes urls_file target_lang w lines :
  open_lines urls_file w = Ok lines →
  let urls := read_urls lines in
  let w' := (batch_loop process_video exn_str target_lang urls w).1 in
  let results := (batch_loop process_video exn_str target_lang urls w).2 in
  batch_process open_lines process_video exn_str urls_file target_lang w
    = (w', Ok results)
  ∧ runs process_video exn_str target_lang w urls results w'
  ∧ url_of <$> results = urls
  ∧ length results = length urls
  ∧ (count_status (py "success") results
     + count_status (py "failed") results = length urls)%nat.
Proof.
  intros Hopen urls w' results.
  pose proof (batch_loop_runs target_lang urls w) as Hruns.
  pose proof (runs_urls _ _ _ _ _ Hruns) as Hurls.
  assert (Hlen : length results = length urls).
  { subst results. rewrite <- Hurls at 2. by rewrite length_fmap. }
  split; [|split; [done|split; [done|split; [done|]]]].
  - unfold batch_process. rewrite Hopen. fold urls. subst w' results.
    by destruct (batch_loop process_video exn_str target_lang urls w).
  - rewrite <- Hlen. apply count_status_total.
Qed.

End BatchFacts.

Lemma batch_process_outcomes_witness :
  let urls := read_urls Demo.urls_txt in
  let w' := (batch_loop Demo.process_video Demo.exn_str (py "es") urls []).1 in
  let results :=
    (batch_loop Demo.process_video Demo.exn_str (py "es") urls []).2 in
  batch_process Demo.open_lines Demo.process_video Demo.exn_str
    (py "urls.txt") (py "es") [] = (w', Ok results)
  ∧ runs Demo.process_video Demo.exn_str (py "es") [] urls results w'
  ∧ url_of <$> results = urls
  ∧ length results = length urls
  ∧ (count_status (py "success") results
     + count_status (py "failed") results = length urls)%nat.
Proof.
  apply (batch_process_outcomes Demo.open_lines Demo.process_video
           Demo.exn_str (py "urls.txt") (py "es") [] Demo.urls_txt).
  vm_compute. reflexivity.
Defined.

(** Three jobs, the second of which fails: the batch goes on, and the three
    outcomes come in the order of the file. *)
Example batch_process_three_jobs :
  batch_process Demo.open_lines Demo.process_video Demo.exn_str
    (py "urls.txt") (py "es") []
  = ([py "https://youtu.be/a"; py "https://youtu.be/bad";
      py "https://youtu.be/c"],
     Ok [Success (py "https://youtu.be/a") (py "output/dubbed_es.mp4");
         Failed (py "https://youtu.be/bad") (py "download failed");
         Success (py "https://youtu.be/c") (py "output/dubbed_es.mp4")]).
Proof. vm_compute. reflexivity. Qed.

(** ** More on the mixer *)

Lemma list_snoc_neq {A} (l : list A) (x : A) : l ++ [x] ≠ l.
Proof.
  intros Heq. apply (f_equal length) in Heq.
  rewrite length_app in Heq. simpl in Heq. lia.
Qed.

Section MixerMore.

Context {tools : Tools}.

Lemma VideoFileClip_world path w w' r :
  VideoFileClip path w = (w', r) → w' = w.
Proof.
  unfold VideoFileClip. intros Hopen.
  destruct (files w !! path) as [data|]; [|by inversion Hopen].
  destruct (video_info data) as [[d has_audio]|]; by inversion Hopen.
Qed.

(** The four ways of [fit_dub]. *)
Lemma fit_dub_cases dubbed_audio_path video_duration dubbed_audio w :
  let speed_needed := (duration dubbed_audio / video_duration)%Q in
  let temp_adjusted := path_join TEMP_DIR (py "adjusted_dub.mp3") in
  ((duration dubbed_audio <= video_duration)%Q
   ∧ fit_dub dubbed_audio_path video_duration dubbed_audio w
     = (w, Ok dubbed_audio))
  ∨ ((video_duration == 0)%Q ∧ (0 < duration dubbed_audio)%Q
     ∧ fit_dub dubbed_audio_path video_duration dubbed_audio w
       = (w, Raise ZeroDivisionError))
  ∨ ((speed_needed <= MAX_SPEED_FACTOR)%Q ∧ ¬ (speed_needed == 1)%Q
     ∧ ¬ (video_duration == 0)%Q
     ∧ (video_duration < duration dubbed_audio)%Q
     ∧ fit_dub dubbed_audio_path video_duration dubbed_audio w
       = (run (ffmpeg_atempo dubbed_audio_path speed_needed temp_adjusted) ;;;
          AudioFileClip temp_adjusted) w)
  ∨ ((MAX_SPEED_FACTOR < speed_needed)%Q
     ∧ fit_dub dubbed_audio_path video_duration dubbed_audio w
       = (w, Ok (subclip dubbed_audio 0 video_duration))).
Proof.
  intros speed_needed temp_adjusted. unfold fit_dub.
  destruct (Qgt_bool (duration dubbed_audio) video_duration) eqn:Hgt.
  2:{ left. split; [|done]. unfold Qgt_bool in Hgt.
      apply Qle_bool_iff. by destruct (Qle_bool _ _). }
  right.
  assert (Hlong : (video_duration < duration dubbed_audio)%Q).
  { apply Qnot_le_lt. intros Hle. apply Qle_bool_iff in Hle.
    unfold Qgt_bool in Hgt. by rewrite Hle in Hgt. }
  destruct (Qeq_bool video_duration 0) eqn:Hz.
  { left. pose proof Hz as Hzero. apply Qeq_bool_iff in Hzero.
    split; [done|]. split; [by rewrite <- Hzero|].
    unfold py_div. by rewrite Hz. }
  right.
  assert (Hnz : ¬ (video_duration == 0)%Q).
  { intros Hzero. apply Qeq_bool_iff in Hzero. by rewrite Hzero in Hz. }
  assert (Hdiv : py_div (duration dubbed_audio) video_duration w
                 = (w, Ok speed_needed))
    by (unfold py_div; by rewrite Hz).
  rewrite !(bind_Ok _ _ _ _ _ Hdiv).
  destruct (Qle_bool speed_needed MAX_SPEED_FACTOR) eqn:Hle.
  - left. apply Qle_bool_iff in Hle.
    assert (Hone : ¬ (speed_needed == 1)%Q).
    { intros Hone. pose proof (Qmult_div_r (duration dubbed_audio) _ Hnz) as Hd.
      fold speed_needed in Hd. rewrite Hone, Qmult_1_r in Hd.
      rewrite Hd in Hlong. by apply Qlt_irrefl in Hlong. }
    repeat (split; [done|]). unfold adjust_audio_speed.
    by rewrite (Qeq_bool_false _ _ Hone).
  - right. split; [|done]. apply Qnot_le_lt. intros Hle'.
    apply Qle_bool_iff in Hle'. by rewrite Hle' in Hle.
Qed.

(** X2. When [fit_dub] returns a track without having changed the world
    (no process was run), that track is not longer than the video. *)
Theorem fit_dub_quiet_fits dubbed_audio_path video_duration dubbed_audio w
    fitted :
  fit_dub dubbed_audio_path video_duration dubbed_audio w = (w, Ok fitted) →
  (duration fitted <= video_duration)%Q.
Proof.
  intros Hfit.
  destruct (fit_dub_cases dubbed_audio_path video_duration dubbed_audio w)
    as [[Hle Heq]|[(_ & _ & Heq)|[(_ & _ & _ & _ & Heq)|[_ Heq]]]];
    rewrite Heq in Hfit.
  - by inversion Hfit; subst.
  - by inversion Hfit.
  - exfalso. revert Hfit. unfold bind, run.
    destruct (subprocess_run _ _) as [fs [e|]]; [by inversion 1|].
    destruct (AudioFileClip _ _) as [w2 r] eqn:Hopen.
    rewrite (AudioFileClip_world _ _ _ _ Hopen). intros Hfit.
    inversion Hfit as [[Hw Hr]]. apply (f_equal trace) in Hw.
    by apply list_snoc_neq in Hw.
  - inversion Hfit; subst. simpl. unfold Qminus. rewrite Qplus_0_r.
    apply Qle_refl.
Qed.

(** X3. When the video, or else the dubbed track, cannot be opened,
    [mix_audio] raises the exception of the failed opening and does
    nothing: no process is run, nothing is rendered, no file changes. *)
Theorem mix_audio_unreadable_input original_video_path dubbed_audio_path
    output_path original_volume video_duration w e :
  (VideoFileClip original_video_path w).2 = Raise e
  ∨ ((∃ video, (VideoFileClip original_video_path w).2 = Ok video)
     ∧ (AudioFileClip dubbed_audio_path w).2 = Raise e) →
  mix_audio original_video_path dubbed_audio_path output_path
    original_volume video_duration w = (w, Raise e).
Proof.
  unfold mix_audio. intros Hopen.
  destruct (VideoFileClip original_video_path w) as [w0 rv] eqn:Hv.
  pose proof (VideoFileClip_world _ _ _ _ Hv) as ->.
  destruct (AudioFileClip dubbed_audio_path w) as [w0 rd] eqn:Hd.
  pose proof (AudioFileClip_world _ _ _ _ Hd) as ->.
  cbn [snd] in Hopen. destruct Hopen as [->|[[video ->] ->]].
  - by rewrite (bind_Raise _ _ _ _ _ Hv).
  - rewrite (bind_Ok _ _ _ _ _ Hv). by rewrite (bind_Raise _ _ _ _ _ Hd).
Qed.

(** The three ways of [fit_dub_b64] on doubles, for a video that lasts. *)
Lemma fit_dub_b64_cases dubbed_audio_path video_duration dubbed_audio w :
  is_double video_duration →
  is_double (duration dubbed_audio) →
  (0 < video_duration)%Q →
  let temp_adjusted := path_join TEMP_DIR (py "adjusted_dub.mp3") in
  ((duration dubbed_audio <= video_duration)%Q
   ∧ fit_dub_b64 dubbed_audio_path video_duration dubbed_audio w
     = (w, Ok dubbed_audio))
  ∨ ((video_duration * (MAX_SPEED_FACTOR + half_ulp)
      < duration dubbed_audio)%Q
     ∧ fit_dub_b64 dubbed_audio_path video_duration dubbed_audio w
       = (w, Ok (subclip dubbed_audio 0 video_duration)))
  ∨ ((video_duration < duration dubbed_audio)%Q
     ∧ (duration dubbed_audio
        <= video_duration * (MAX_SPEED_FACTOR + half_ulp))%Q
     ∧ ∃ speed_needed,
         round (duration dubbed_audio / video_duration) = Finite speed_needed
         ∧ (1 < speed_needed)%Q
         ∧ (speed_needed <= MAX_SPEED_FACTOR)%Q
         ∧ fit_dub_b64 dubbed_audio_path video_duration dubbed_audio w
           = (run (ffmpeg_atempo dubbed_audio_path speed_needed
                     temp_adjusted) ;;;
              AudioFileClip temp_adjusted) w).
Proof.
  intros Hv Hd Hpos temp_adjusted.
  destruct (Qlt_le_dec video_duration (duration dubbed_audio)) as [Hlong|Hle].
  2:{ left. split; [done|]. by apply fit_dub_b64_short. }
  right.
  destruct (Qlt_le_dec (video_duration * (MAX_SPEED_FACTOR + half_ulp))
              (duration dubbed_audio)) as [Hcut|Hfit].
  - left. split; [done|]. apply fit_dub_b64_cut; [done|].
    apply Qlt_shift_div_l; [done|]. by rewrite Qmult_comm.
  - right. split; [done|]. split; [done|].
    assert (Hq : (duration dubbed_audio / video_duration
                  <= MAX_SPEED_FACTOR + half_ulp)%Q).
    { apply Qle_shift_div_r; [done|]. by rewrite Qmult_comm. }
    destruct (fit_dub_b64_speed_up dubbed_audio_path _ _ w Hv Hd Hpos Hlong Hq)
      as (speed_needed & Hround & H1 & H2 & _ & Hfit').
    by exists speed_needed.
Qed.

(** The world after a run of ffmpeg followed by the opening of a clip. *)
Lemma run_then_open_world cmd path w :
  let ended := (run cmd ;;; AudioFileClip path) w in
  trace ended.1 = trace w ++ [Spawn cmd]
  ∧ files ended.1 = (subprocess_run cmd (files w)).1.
Proof.
  unfold bind, run. destruct (subprocess_run cmd (files w)) as [fs [e|]];
    [done|].
  destruct (AudioFileClip _ _) as [w2 r] eqn:Hopen.
  by rewrite (AudioFileClip_world _ _ _ _ Hopen).
Qed.

(** X1. On doubles and for a video that lasts, the fitting step of
    [mix_audio] does one of three things.  A track that is not longer than
    the video is returned as it is, and a track longer than
    [1.25 + 2^-53] videos is cut to the video; the world is as before.
    Any other track is sent to ffmpeg, once, with the command
    [ffmpeg -y -i <track> -filter:a atempo=<speed> -vn temp/adjusted_dub.mp3]
    where the speed is the rounded quotient of the durations, more than 1
    and at most [MAX_SPEED_FACTOR]; the files are then the ones that run
    leaves. *)
Theorem fit_dub_b64_effects dubbed_audio_path video_duration dubbed_audio w :
  is_double video_duration →
  is_double (duration dubbed_audio) →
  (0 < video_duration)%Q →
  let ended := fit_dub_b64 dubbed_audio_path video_duration dubbed_audio w in
  ((duration dubbed_audio <= video_duration)%Q
   ∧ ended = (w, Ok dubbed_audio))
  ∨ ((video_duration * (MAX_SPEED_FACTOR + half_ulp)
      < duration dubbed_audio)%Q
     ∧ ended = (w, Ok (subclip dubbed_audio 0 video_duration)))
  ∨ ((video_duration < duration dubbed_audio)%Q
     ∧ (duration dubbed_audio
        <= video_duration * (MAX_SPEED_FACTOR + half_ulp))%Q
     ∧ ∃ speed_needed,
         round (duration dubbed_audio / video_duration) = Finite speed_needed
         ∧ (1 < speed_needed)%Q
         ∧ (speed_needed <= MAX_SPEED_FACTOR)%Q
         ∧ let cmd :=
             [Arg (py "ffmpeg"); Arg (py "-y");
              Arg (py "-i"); Arg dubbed_audio_path;
              Arg (py "-filter:a"); Atempo speed_needed;
              Arg (py "-vn");
              Arg (py "temp/adjusted_dub.mp3")] in
           trace ended.1 = trace w ++ [Spawn cmd]
           ∧ files ended.1 = (subprocess_run cmd (files w)).1
           ∧ (is_raise ended.2 = false →
              AudioFileClip (py "temp/adjusted_dub.mp3") ended.1 = ended)).
Proof.
  intros Hv Hd Hpos ended. subst ended.
  destruct (fit_dub_b64_cases dubbed_audio_path _ _ w Hv Hd Hpos)
    as [[Hle ->]|[[Hcut ->]|(Hlong & Hfit & speed_needed & Hround & H1 & H2
                             & ->)]];
    [by left|by right; left|].
  right; right. split; [done|]. split; [done|]. exists speed_needed.
  repeat (split; [done|]). cbv zeta.
  change (path_join TEMP_DIR (py "adjusted_dub.mp3"))
    with (py "temp/adjusted_dub.mp3").
  split; [apply run_then_open_world|]. split; [apply run_then_open_world|].
  unfold bind, run, ffmpeg_atempo.
  destruct (subprocess_run _ (files w)) as [fs [e|]]; [done|]. intros _.
  set (w' := {| files := fs; trace := _ |}).
  destruct (AudioFileClip (py "temp/adjusted_dub.mp3") w') as [w2 r] eqn:Hopen.
  pose proof (AudioFileClip_world _ _ _ _ Hopen) as ->. cbn [fst].
  by rewrite Hopen.
Qed.

(** What a successful [mix_audio_b64] has done. *)
Lemma mix_audio_b64_success_events original_video_path dubbed_audio_path
    output_path original_volume video_duration w w1 returned :
  mix_audio_b64 original_video_path dubbed_audio_path output_path
    original_volume video_duration w = (w1, Ok returned) →
  returned = output_path
  ∧ ∃ video dubbed_audio fitted w2,
      VideoFileClip original_video_path w = (w, Ok video)
      ∧ AudioFileClip dubbed_audio_path w = (w, Ok dubbed_audio)
      ∧ fit_dub_b64 dubbed_audio_path
          (default (v_duration video) video_duration) dubbed_audio w
        = (w2, Ok fitted)
      ∧ let final_video :=
          {| v_path := original_video_path; v_data := v_data video;
             v_duration := v_duration video;
             v_audio :=
               Some match v_audio video with
                    | Some original_audio =>
                        CompositeAudioClip
                          [volumex original_audio original_volume; fitted]
                    | None => fitted
                    end |} in
        trace w1 = trace w2 ++ [Render final_video output_path]
        ∧ write_file final_video output_path (files w2) = (files w1, None).
Proof.
  intros Hmix.
  destruct (VideoFileClip original_video_path w) as [w0 [video|e]] eqn:Hv;
    pose proof (VideoFileClip_world _ _ _ _ Hv) as ->.
  2:{ unfold mix_audio_b64 in Hmix.
      by rewrite (bind_Raise _ _ _ _ _ Hv) in Hmix. }
  destruct (AudioFileClip dubbed_audio_path w) as [w0 [dubbed_audio|e]] eqn:Hd;
    pose proof (AudioFileClip_world _ _ _ _ Hd) as ->.
  2:{ unfold mix_audio_b64 in Hmix. rewrite (bind_Ok _ _ _ _ _ Hv) in Hmix.
      by rewrite (bind_Raise _ _ _ _ _ Hd) in Hmix. }
  rewrite (mix_audio_b64_opened _ _ _ _ _ _ _ _ Hv Hd) in Hmix.
  assert (Hpath : v_path video = original_video_path).
  { unfold VideoFileClip in Hv.
    destruct (files w !! original_video_path) as [data|]; [|done].
    destruct (video_info data) as [[d has_audio]|]; [|done].
    by inversion Hv. }
  destruct (fit_dub_b64 dubbed_audio_path
              (default (v_duration video) video_duration) dubbed_audio w)
    as [w2 [fitted|e]] eqn:Hfit.
  2:{ by rewrite (bind_Raise _ _ _ _ _ Hfit) in Hmix. }
  rewrite (bind_Ok _ _ _ _ _ Hfit) in Hmix.
  revert Hmix. unfold bind, write_videofile, ret.
  unfold set_audio, composite, attenuated. rewrite Hpath.
  destruct (write_file _ _ _) as [fs [e|]] eqn:Hwrite; [done|].
  intros [= <- <-]. split; [done|].
  exists video, dubbed_audio, fitted, w2. repeat (split; [done|]).
  cbn zeta. cbn [trace files]. split; [by destruct (v_audio video)|].
  rewrite <- Hwrite. by destruct (v_audio video).
Qed.

(** X4. When [mix_audio] succeeds it returns [output_path].  Both files
    were opened, the dubbed track was fitted, and the last thing done is
    the render, to [output_path], of the opened video (its path, data and
    duration) with, as its sound, the fitted track laid over the original
    sound at [original_volume], or the fitted track alone when the video is
    silent; the files are the ones the encoder leaves. *)
Theorem mix_audio_b64_success original_video_path dubbed_audio_path
    output_path original_volume video_duration w w1 returned :
  mix_audio_b64 original_video_path dubbed_audio_path output_path
    original_volume video_duration w = (w1, Ok returned) →
  returned = output_path
  ∧ ∃ video dubbed_audio fitted w2,
      VideoFileClip original_video_path w = (w, Ok video)
      ∧ AudioFileClip dubbed_audio_path w = (w, Ok dubbed_audio)
      ∧ fit_dub_b64 dubbed_audio_path
          (default (v_duration video) video_duration) dubbed_audio w
        = (w2, Ok fitted)
      ∧ let final_video :=
          {| v_path := original_video_path; v_data := v_data video;
             v_duration := v_duration video;
             v_audio :=
               Some match v_audio video with
                    | Some original_audio =>
                        CompositeAudioClip
                          [volumex original_audio original_volume; fitted]
                    | None => fitted
                    end |} in
        trace w1 = trace w2 ++ [Render final_video output_path]
        ∧ write_file final_video output_path (files w2) = (files w1, None).
Proof. exact (mix_audio_b64_success_events original_video_path
    dubbed_audio_path output_path original_volume video_duration w w1
    returned). Qed.

(** The two embeddings of the fitting step do the same when no quotient is
    handed to ffmpeg. *)
Lemma fit_dub_b64_agrees dubbed_audio_path video_duration dubbed_audio w :
  (duration dubbed_audio <= video_duration)%Q
  ∨ (video_duration == 0)%Q
  ∨ ((0 < video_duration)%Q
     ∧ (video_duration * (MAX_SPEED_FACTOR + half_ulp)
        < duration dubbed_audio)%Q) →
  fit_dub_b64 dubbed_audio_path video_duration dubbed_audio w
  = fit_dub dubbed_audio_path video_duration dubbed_audio w.
Proof.
  intros [Hle|[Hz|[Hpos Hcut]]].
  - by rewrite fit_dub_b64_short, fit_dub_short.
  - destruct (Qlt_le_dec video_duration (duration dubbed_audio)) as [Hlong|Hle].
    + rewrite fit_dub_zero_video; [|done|by rewrite <- Hz].
      unfold fit_dub_b64. rewrite (Qgt_bool_true _ _ Hlong).
      unfold float_div. apply Qeq_bool_iff in Hz. by rewrite Hz.
    + by rewrite fit_dub_b64_short, fit_dub_short.
  - rewrite fit_dub_b64_cut, fit_dub_cut; [done|done| |done|].
    + eapply Qle_lt_trans; [|exact Hcut].
      apply Qmult_le_l; [done|]. vm_compute. done.
    + apply Qlt_shift_div_l; [done|]. by rewrite Qmult_comm.
Qed.

(** X23. What is proved of [mix_audio] with the exact quotient holds of the
    program in double precision wherever no quotient is handed to ffmpeg:
    when the dubbed track is not longer than the video (C1), when the
    video lasts zero seconds (C4), and when the track is longer than
    [1.25 + 2^-53] videos, the two embeddings of [mix_audio] do the same,
    step by step. *)
Theorem mix_audio_b64_agrees original_video_path dubbed_audio_path
    output_path original_volume video_duration w video dubbed_audio :
  VideoFileClip original_video_path w = (w, Ok video) →
  AudioFileClip dubbed_audio_path w = (w, Ok dubbed_audio) →
  let duration_used := default (v_duration video) video_duration in
  (duration dubbed_audio <= duration_used)%Q
  ∨ (duration_used == 0)%Q
  ∨ ((0 < duration_used)%Q
     ∧ (duration_used * (MAX_SPEED_FACTOR + half_ulp)
        < duration dubbed_audio)%Q) →
  fit_dub_b64 dubbed_audio_path duration_used dubbed_audio w
  = fit_dub dubbed_audio_path duration_used dubbed_audio w
  ∧ mix_audio_b64 original_video_path dubbed_audio_path output_path
      original_volume video_duration w
    = mix_audio original_video_path dubbed_audio_path output_path
        original_volume video_duration w.
Proof.
  intros Hv Hd duration_used Hcases.
  pose proof (fit_dub_b64_agrees dubbed_audio_path _ _ w Hcases) as Hfit.
  split; [done|].
  rewrite (mix_audio_b64_opened _ _ _ _ _ _ _ _ Hv Hd).
  rewrite (mix_audio_opened _ _ _ _ _ _ _ _ Hv Hd).
  by apply bind_at.
Qed.

(** X24. In double precision too, a failed run of ffmpeg is a failure of
    [mix_audio]: when the speed-up is needed (the quotient of the two
    doubles rounds to a tempo of at most [MAX_SPEED_FACTOR]) and the run
    fails with an exception [e], [mix_audio] raises [e] right after that
    run; nothing is rendered and the untouched track is not used. *)
Theorem mix_audio_b64_transform_failure original_video_path
    dubbed_audio_path output_path original_volume video_duration w video
    dubbed_audio :
  VideoFileClip original_video_path w = (w, Ok video) →
  AudioFileClip dubbed_audio_path w = (w, Ok dubbed_audio) →
  let duration_used := default (v_duration video) video_duration in
  is_double duration_used →
  is_double (duration dubbed_audio) →
  (0 < duration_used)%Q →
  (duration_used < duration dubbed_audio)%Q →
  (duration dubbed_audio
   <= duration_used * (MAX_SPEED_FACTOR + half_ulp))%Q →
  ∃ speed_needed,
    round (duration dubbed_audio / duration_used) = Finite speed_needed
    ∧ let cmd :=
        [Arg (py "ffmpeg"); Arg (py "-y");
         Arg (py "-i"); Arg dubbed_audio_path;
         Arg (py "-filter:a"); Atempo speed_needed;
         Arg (py "-vn");
         Arg (py "temp/adjusted_dub.mp3")] in
      ∀ fs e,
        subprocess_run cmd (files w) = (fs, Some e) →
        mix_audio_b64 original_video_path dubbed_audio_path output_path
          original_volume video_duration w
        = ({| files := fs; trace := trace w ++ [Spawn cmd] |}, Raise e).
Proof.
  intros Hv Hd duration_used Hdv Hdd Hpos Hlong Hmax.
  assert (Hq : (duration dubbed_audio / duration_used
                <= MAX_SPEED_FACTOR + half_ulp)%Q).
  { apply Qle_shift_div_r; [done|]. by rewrite Qmult_comm. }
  destruct (fit_dub_b64_speed_up dubbed_audio_path _ _ w Hdv Hdd Hpos Hlong Hq)
    as (speed_needed & Hround & _ & _ & _ & Hfit).
  exists speed_needed. split; [done|]. intros cmd fs e Hrun.
  rewrite (mix_audio_b64_opened _ _ _ _ _ _ _ _ Hv Hd).
  rewrite (bind_at _ _ _ _ Hfit). rewrite bind_assoc. apply bind_Raise.
  unfold run.
  change (ffmpeg_atempo dubbed_audio_path speed_needed
            (path_join TEMP_DIR (py "adjusted_dub.mp3"))) with cmd.
  by rewrite Hrun.
Qed.

End MixerMore.

Lemma fit_dub_quiet_fits_witness :
  (duration (Demo.the_dub 20) <= Demo.seconds 30)%Q.
Proof.
  apply (fit_dub_quiet_fits (tools := Demo.tools) Demo.dub_path
           (Demo.seconds 30) (Demo.the_dub 20) (Demo.studio true 30 20)
           (Demo.the_dub 20)).
  run_demo.
Defined.

Lemma mix_audio_unreadable_input_witness :
  mix_audio (tools := Demo.tools) Demo.video_path Demo.dub_path
    Demo.out_path ORIGINAL_AUDIO_VOLUME None {| files := ∅; trace := [] |}
  = ({| files := ∅; trace := [] |}, Raise (OSError Demo.video_path)).
Proof.
  apply (mix_audio_unreadable_input (tools := Demo.tools)).
  left. run_demo.
Defined.

Lemma fit_dub_b64_effects_witness :
  let w := Demo.studio true 30 33 in
  let ended := fit_dub_b64 (tools := Demo.tools) Demo.dub_path
                 (Demo.seconds 30) (Demo.the_dub 33) w in
  ((duration (Demo.the_dub 33) <= Demo.seconds 30)%Q
   ∧ ended = (w, Ok (Demo.the_dub 33)))
  ∨ ((Demo.seconds 30 * (MAX_SPEED_FACTOR + half_ulp)
      < duration (Demo.the_dub 33))%Q
     ∧ ended = (w, Ok (subclip (Demo.the_dub 33) 0 (Demo.seconds 30))))
  ∨ ((Demo.seconds 30 < duration (Demo.the_dub 33))%Q
     ∧ (duration (Demo.the_dub 33)
        <= Demo.seconds 30 * (MAX_SPEED_FACTOR + half_ulp))%Q
     ∧ ∃ speed_needed,
         round (duration (Demo.the_dub 33) / Demo.seconds 30)
         = Finite speed_needed
         ∧ (1 < speed_needed)%Q
         ∧ (speed_needed <= MAX_SPEED_FACTOR)%Q
         ∧ let cmd :=
             [Arg (py "ffmpeg"); Arg (py "-y");
              Arg (py "-i"); Arg Demo.dub_path;
              Arg (py "-filter:a"); Atempo speed_needed;
              Arg (py "-vn");
              Arg (py "temp/adjusted_dub.mp3")] in
           trace ended.1 = trace w ++ [Spawn cmd]
           ∧ files ended.1
             = (subprocess_run (Tools := Demo.tools) cmd (files w)).1
           ∧ (is_raise ended.2 = false →
              AudioFileClip (tools := Demo.tools)
                (py "temp/adjusted_dub.mp3") ended.1 = ended)).
Proof.
  apply (fit_dub_b64_effects (tools := Demo.tools) Demo.dub_path
           (Demo.seconds 30) (Demo.the_dub 33) (Demo.studio true 30 33));
    [double_demo 30%Z 0%Z|double_demo 33%Z 0%Z|run_demo].
Defined.

Lemma mix_audio_b64_success_witness :
  let w := Demo.studio true 30 33 in
  let speed_needed := (2476979795053773 # 2251799813685248)%Q in
  let temp_adjusted := py "temp/adjusted_dub.mp3" in
  let w2 :=
    {| files := <[temp_adjusted := repeat x00 30]> (files w);
       trace := [Spawn (ffmpeg_atempo Demo.dub_path speed_needed
                          temp_adjusted)] |} in
  let scaled := AudioFile temp_adjusted (repeat x00 30) (Demo.seconds 30) in
  let rendered :=
    set_audio (Demo.the_video true 30)
      (composite (attenuated (Demo.the_video true 30) ORIGINAL_AUDIO_VOLUME)
         scaled) in
  let w1 :=
    {| files := <[Demo.out_path := v_data rendered]> (files w2);
       trace := trace w2 ++ [Render rendered Demo.out_path] |} in
  Demo.out_path = Demo.out_path
  ∧ ∃ video dubbed_audio fitted w2,
      VideoFileClip (tools := Demo.tools) Demo.video_path w = (w, Ok video)
      ∧ AudioFileClip (tools := Demo.tools) Demo.dub_path w
        = (w, Ok dubbed_audio)
      ∧ fit_dub_b64 (tools := Demo.tools) Demo.dub_path
          (default (v_duration video) None) dubbed_audio w
        = (w2, Ok fitted)
      ∧ let final_video :=
          {| v_path := Demo.video_path; v_data := v_data video;
             v_duration := v_duration video;
             v_audio :=
               Some match v_audio video with
                    | Some original_audio =>
                        CompositeAudioClip
                          [volumex original_audio ORIGINAL_AUDIO_VOLUME;
                           fitted]
                    | None => fitted
                    end |} in
        trace w1 = trace w2 ++ [Render final_video Demo.out_path]
        ∧ write_file (Tools := Demo.tools) final_video Demo.out_path
            (files w2)
          = (files w1, None).
Proof.
  apply (mix_audio_b64_success (tools := Demo.tools) Demo.video_path
           Demo.dub_path Demo.out_path ORIGINAL_AUDIO_VOLUME None
           (Demo.studio true 30 33)).
  run_demo.
Defined.

Lemma mix_audio_b64_agrees_witness :
  let w := Demo.studio true 20 40 in
  fit_dub_b64 (tools := Demo.tools) Demo.dub_path (Demo.seconds 20)
    (Demo.the_dub 40) w
  = fit_dub (tools := Demo.tools) Demo.dub_path (Demo.seconds 20)
      (Demo.the_dub 40) w
  ∧ mix_audio_b64 (tools := Demo.tools) Demo.video_path Demo.dub_path
      Demo.out_path ORIGINAL_AUDIO_VOLUME None w
    = mix_audio (tools := Demo.tools) Demo.video_path Demo.dub_path
        Demo.out_path ORIGINAL_AUDIO_VOLUME None w.
Proof.
  apply (mix_audio_b64_agrees (tools := Demo.tools) Demo.video_path
           Demo.dub_path Demo.out_path ORIGINAL_AUDIO_VOLUME None
           (Demo.studio true 20 40) (Demo.the_video true 20)
           (Demo.the_dub 40)); [run_demo|run_demo|].
  right; right. split; run_demo.
Defined.

Lemma mix_audio_b64_transform_failure_witness :
  let w := Demo.studio true 30 33 in
  ∃ speed_needed,
    round (duration (Demo.the_dub 33) / Demo.seconds 30) = Finite speed_needed
    ∧ let cmd :=
        [Arg (py "ffmpeg"); Arg (py "-y");
         Arg (py "-i"); Arg Demo.dub_path;
         Arg (py "-filter:a"); Atempo speed_needed;
         Arg (py "-vn");
         Arg (py "temp/adjusted_dub.mp3")] in
      ∀ fs e,
        subprocess_run (Tools := Demo.tools_broken_ffmpeg) cmd (files w)
        = (fs, Some e) →
        mix_audio_b64 (tools := Demo.tools_broken_ffmpeg) Demo.video_path
          Demo.dub_path Demo.out_path ORIGINAL_AUDIO_VOLUME None w
        = ({| files := fs; trace := trace w ++ [Spawn cmd] |}, Raise e).
Proof.
  apply (mix_audio_b64_transform_failure (tools := Demo.tools_broken_ffmpeg)
           Demo.video_path Demo.dub_path Demo.out_path ORIGINAL_AUDIO_VOLUME
           None (Demo.studio true 30 33) (Demo.the_video true 30)
           (Demo.the_dub 33));
    [run_demo|run_demo|double_demo 30%Z 0%Z|double_demo 33%Z 0%Z
    |run_demo|run_demo|run_demo].
Defined.

(** The failed run of the demonstration. *)
Example mix_audio_b64_broken_ffmpeg :
  let cmd :=
    [Arg (py "ffmpeg"); Arg (py "-y");
     Arg (py "-i"); Arg Demo.dub_path;
     Arg (py "-filter:a"); Atempo (2476979795053773 # 2251799813685248);
     Arg (py "-vn");
     Arg (py "temp/adjusted_dub.mp3")] in
  mix_audio_b64 (tools := Demo.tools_broken_ffmpeg) Demo.video_path
    Demo.dub_path Demo.out_path ORIGINAL_AUDIO_VOLUME None
    (Demo.studio true 30 33)
  = ({| files := files (Demo.studio true 30 33); trace := [Spawn cmd] |},
     Raise (CalledProcessError cmd)).
Proof. vm_compute. reflexivity. Qed.

(** ** More on the translation *)

Lemma lstrip_idem s : lstrip (lstrip s) = lstrip s.
Proof.
  induction s as [|c s IH]; [done|]. cbn [lstrip].
  destruct (is_space c) eqn:Hc; [done|]. cbn [lstrip]. by rewrite Hc.
Qed.

Lemma lstrip_head s c : head (lstrip s) = Some c → is_space c = false.
Proof.
  induction s as [|a s IH]; [done|]. cbn [lstrip].
  destruct (is_space a) eqn:Ha; [done|]. cbn [head]. by intros [= <-].
Qed.

Lemma lstrip_app_nonspace l c m :
  is_space c = false → lstrip (l ++ c :: m) = lstrip l ++ c :: m.
Proof.
  intros Hc. induction l as [|a l IH]; cbn [app lstrip].
  - by rewrite Hc.
  - by destruct (is_space a).
Qed.

Lemma last_rev (s : str) : last (rev s) = head s.
Proof. destruct s as [|c s]; [done|]. cbn [rev head]. apply last_snoc. Qed.

Lemma rstrip_last s c : last (rstrip s) = Some c → is_space c = false.
Proof. unfold rstrip. rewrite last_rev. apply lstrip_head. Qed.

Lemma rstrip_idem s : rstrip (rstrip s) = rstrip s.
Proof. unfold rstrip. by rewrite rev_involutive, lstrip_idem. Qed.

(** [rstrip] keeps a first character that is not white space. *)
Lemma lstrip_rstrip s : lstrip s = s → lstrip (rstrip s) = rstrip s.
Proof.
  destruct s as [|c s]; [done|]. intros Hs.
  assert (Hc : is_space c = false).
  { apply (lstrip_head (c :: s)). by rewrite Hs. }
  unfold rstrip. cbn [rev]. rewrite (lstrip_app_nonspace _ _ [] Hc).
  rewrite rev_app_distr. cbn [rev app lstrip]. by rewrite Hc.
Qed.

Lemma strip_lstrip s : lstrip (strip s) = strip s.
Proof. unfold strip. apply lstrip_rstrip, lstrip_idem. Qed.

Lemma strip_idem s : strip (strip s) = strip s.
Proof.
  unfold strip at 1. rewrite strip_lstrip. unfold strip. apply rstrip_idem.
Qed.

(** A stripped string neither starts nor ends with white space. *)
Lemma strip_clean s :
  (∀ c, head (strip s) = Some c → is_space c = false)
  ∧ (∀ c, last (strip s) = Some c → is_space c = false).
Proof.
  split; intros c.
  - rewrite <- strip_lstrip. apply lstrip_head.
  - unfold strip. apply rstrip_last.
Qed.

(** X5. Whatever the sentences, no chunk starts or ends with white space:
    the texts sent to the translator for a long transcript are stripped. *)
Theorem make_chunks_stripped sentences :
  Forall (λ chunk,
            (∀ c, head chunk = Some c → is_space c = false)
            ∧ (∀ c, last chunk = Some c → is_space c = false))
    (make_chunks sentences).
Proof.
  rewrite make_chunks_groups. apply Forall_fmap, Forall_true.
  intros group. apply strip_clean.
Qed.

(** Stripping, joining and splitting change white space only. *)
Lemma filter_nonspace_lstrip s :
  filter (λ c, is_space c = false) (lstrip s)
  = filter (λ c, is_space c = false) s.
Proof.
  induction s as [|c s IH]; [done|]. cbn [lstrip].
  destruct (is_space c) eqn:Hc; [|done].
  rewrite (filter_cons_False (λ c, is_space c = false) c s); [done|].
  by rewrite Hc.
Qed.

Lemma filter_rev {A} (P : A → Prop) `{!∀ x, Decision (P x)} (l : list A) :
  filter P (rev l) = rev (filter P l).
Proof.
  induction l as [|x l IH]; [done|]. cbn [rev].
  rewrite filter_app, IH.
  destruct (decide (P x)) as [Hx|Hx].
  - by rewrite (filter_cons_True P x l Hx), (filter_cons_True P x [] Hx).
  - rewrite (filter_cons_False P x l Hx), (filter_cons_False P x [] Hx).
    apply app_nil_r.
Qed.

Lemma filter_nonspace_strip s :
  filter (λ c, is_space c = false) (strip s)
  = filter (λ c, is_space c = false) s.
Proof.
  unfold strip, rstrip.
  rewrite (filter_rev (λ c, is_space c = false)), filter_nonspace_lstrip.
  rewrite (filter_rev (λ c, is_space c = false)), rev_involutive.
  apply filter_nonspace_lstrip.
Qed.

Lemma filter_nonspace_join parts :
  filter (λ c, is_space c = false) (join (py " ") parts)
  = filter (λ c, is_space c = false) (concat parts).
Proof.
  induction parts as [|p parts IH]; [done|].
  destruct parts as [|q parts].
  - cbn [join concat]. by rewrite app_nil_r.
  - change (join (py " ") (p :: q :: parts))
      with (p ++ py " " ++ join (py " ") (q :: parts)).
    cbn [concat] in *. unfold str in *. rewrite !filter_app, IH, filter_app.
    reflexivity.
Qed.

Lemma concat_filter_nonempty (l : list str) :
  concat (filter (λ s : str, s ≠ []) l) = concat l.
Proof.
  induction l as [|s l IH]; [done|]. rewrite filter_cons.
  destruct (decide (s ≠ [])) as [Hs|Hs]; cbn [concat]; [by rewrite IH|].
  destruct s; [by rewrite IH|]. by destruct Hs.
Qed.

Lemma filter_concat_imap {A} (P : A → Prop) `{!∀ x, Decision (P x)}
    (f : nat → list A → list A) (l : list (list A)) :
  (∀ i x, filter P (f i x) = filter P x) →
  filter P (concat (imap f l)) = filter P (concat l).
Proof.
  revert f. induction l as [|x l IH]; intros f Hf; [done|].
  rewrite imap_cons. cbn [concat]. rewrite !filter_app, Hf.
  rewrite IH; [done|]. intros i y. apply Hf.
Qed.

(** The chunks of a text hold its characters other than white space, in
    order. *)
Lemma make_chunks_content text :
  filter (λ c, is_space c = false)
    (concat (make_chunks (split_sentences text)))
  = filter (λ c, is_space c = false) text.
Proof.
  rewrite <- (split_sentences_content text).
  rewrite <- (concat_filter_nonempty (split_sentences text)).
  rewrite <- make_chunks_traced_sentences, concat_filter_nonempty.
  rewrite make_chunks_groups.
  induction ((make_chunks_traced (split_sentences text)).*2)
    as [|group groups IH]; [done|].
  cbn [fmap list_fmap concat]. rewrite concat_app, !filter_app, <- IH.
  by rewrite filter_nonspace_strip, filter_nonspace_join.
Qed.

Section TranslatorMore.

Variable translate : nat → str → result str.

(** X6. [translate_text] raises exactly when the text fits in one request
    and that request raises: the failure of the only request of a short
    text is not caught, the failure of a chunk of a long one is. *)
Theorem translate_text_raises text e :
  translate_text translate text = Raise e
  ↔ (len text <= max_chunk_size)%Z ∧ translate 0 text = Raise e.
Proof.
  split.
  - intros Hraise. destruct (Z_le_gt_dec (len text) max_chunk_size) as [Hle|Hgt].
    + split; [done|]. unfold translate_text in Hraise.
      apply Z.leb_le in Hle. by rewrite Hle in Hraise.
    + rewrite translate_text_long in Hraise by lia. discriminate Hraise.
  - intros [Hle Hraise]. unfold translate_text.
    apply Z.leb_le in Hle. by rewrite Hle.
Qed.

(** X7. For a long text and a translator that, where it answers, keeps the
    characters other than white space (the identity, say), the result of
    [translate_text] has the characters of the text other than white space,
    in order: cutting, failing requests and joining lose or add nothing but
    white space. *)
Theorem translate_text_content text :
  (max_chunk_size < len text)%Z →
  (∀ i chunk translated,
     translate i chunk = Ok translated →
     filter (λ c, is_space c = false) translated
     = filter (λ c, is_space c = false) chunk) →
  ∃ translated,
    translate_text translate text = Ok translated
    ∧ filter (λ c, is_space c = false) translated
      = filter (λ c, is_space c = false) text.
Proof.
  intros Hlong Hkeeps. eexists. split; [by apply translate_text_long|].
  rewrite filter_nonspace_join.
  rewrite (filter_concat_imap (λ c, is_space c = false)
             (translated_or_kept translate)).
  - apply make_chunks_content.
  - intros i chunk. unfold translated_or_kept.
    destruct (translate i chunk) as [translated|e] eqn:Hi; [|done].
    by apply (Hkeeps i).
Qed.

End TranslatorMore.

(** X8. When every sentence is shorter than [max_chunk_size], every chunk
    has at most [max_chunk_size] characters. *)
Theorem make_chunks_within_limit sentences :
  Forall (λ sentence, (len sentence < max_chunk_size)%Z) sentences →
  Forall (λ chunk, (len chunk <= max_chunk_size)%Z) (make_chunks sentences).
Proof.
  intros Hshort. rewrite <- make_chunks_traced_erase. apply Forall_fmap.
  pose proof (make_chunks_traced_ok sentences) as Hok.
  pose proof (make_chunks_traced_sentences sentences) as Hsentences.
  apply Forall_forall. intros [chunk group] Hin.
  rewrite Forall_forall in Hok.
  destruct (Hok _ Hin) as [_ [Hle|(sentence & Hgroup & Hbig)]]; [done|].
  cbn [fst snd] in *. exfalso.
  assert (Hne : sentence ≠ []).
  { intros ->. unfold max_chunk_size, len in Hbig. simpl in Hbig. lia. }
  assert (Hs : sentence ∈ filter (λ s : str, s ≠ [])
                 (concat (make_chunks_traced sentences).*2)).
  { apply list_elem_of_filter. split; [done|].
    apply list_elem_of_In, in_concat. exists group.
    split; [|subst group; by left].
    apply list_elem_of_In.
    by apply (list_elem_of_fmap_2 snd _ (chunk, group)). }
  rewrite Hsentences in Hs. apply list_elem_of_filter in Hs as [_ Hs].
  rewrite Forall_forall in Hshort. specialize (Hshort _ Hs). simpl in Hshort.
  lia.
Qed.

Lemma translate_text_content_witness :
  ∃ translated,
    translate_text Studio.flaky_identity Demo.two_sentences = Ok translated
    ∧ filter (λ c, is_space c = false) translated
      = filter (λ c, is_space c = false) Demo.two_sentences.
Proof.
  apply (translate_text_content Studio.flaky_identity Demo.two_sentences).
  - vm_compute. reflexivity.
  - intros [|i] chunk translated; simpl; [discriminate|]. by intros [= ->].
Defined.

Lemma make_chunks_within_limit_witness :
  Forall (λ chunk, (len chunk <= max_chunk_size)%Z)
    (make_chunks [py "Hello."; py "Bye."]).
Proof.
  apply (make_chunks_within_limit [py "Hello."; py "Bye."]).
  repeat constructor.
Defined.

(** ** More on the batch *)

Lemma in_read_urls lines url :
  In url (read_urls lines)
  ↔ ∃ line, line ∈ lines ∧ url = strip line
            ∧ nonempty (strip line) && negb (startswith_hash line) = true.
Proof.
  unfold read_urls. rewrite in_map_iff. split.
  - intros (line & <- & Hin). exists line.
    apply list_elem_of_In, list_elem_of_filter in Hin as [Hline Hin].
    by split.
  - intros (line & Hin & -> & Hline). exists line. split; [done|].
    apply list_elem_of_In, list_elem_of_filter. by split.
Qed.

(** X9. Every job read from a batch file is a line of the file, stripped;
    it is not empty, and its line does not start with [#].  (A [#] that
    comes after white space does not make a comment.) *)
Theorem read_urls_jobs lines :
  Forall (λ url,
            url ≠ [] ∧ strip url = url
            ∧ ∃ line, line ∈ lines ∧ url = strip line
                      ∧ startswith_hash line = false)
    (read_urls lines).
Proof.
  apply Forall_forall. intros url Hin.
  apply list_elem_of_In, in_read_urls in Hin as (line & Hin & -> & Hline).
  apply andb_true_iff in Hline as [Hne Hhash].
  split; [by apply nonempty_true|]. split; [apply strip_idem|].
  exists line. split; [done|]. split; [done|].
  by destruct (startswith_hash line).
Qed.

Section BatchMore.

Context {W : Type}.
Variable open_lines : str → W → result (list str).
Variable process_video : str → str → W → W * result str.
Variable exn_str : exn → str.

(** X10. [batch_process] raises exactly when the batch file cannot be read,
    with the exception of the reading and before any job is run; no job can
    make it raise. *)
Theorem batch_process_raises urls_file target_lang w e :
  ((batch_process open_lines process_video exn_str urls_file target_lang w).2
   = Raise e
   ↔ open_lines urls_file w = Raise e)
  ∧ (open_lines urls_file w = Raise e →
     (batch_process open_lines process_video exn_str urls_file target_lang w).1
     = w).
Proof.
  unfold batch_process.
  destruct (open_lines urls_file w) as [lines|e'] eqn:Hopen.
  - destruct (batch_loop _ _ _ _ _) as [w' results]. cbn [fst snd].
    split; [split|]; discriminate.
  - cbn [fst snd]. split; [|done]. split; by intros [= ->].
Qed.

(** The loop over a concatenation. *)
Lemma batch_loop_concat target_lang urls1 urls2 w :
  let first := batch_loop process_video exn_str target_lang urls1 w in
  let second := batch_loop process_video exn_str target_lang urls2 first.1 in
  batch_loop process_video exn_str target_lang (urls1 ++ urls2) w
  = (second.1, first.2 ++ second.2).
Proof.
  intros first second. unfold batch_loop at 1. rewrite fold_left_app.
  fold (batch_loop process_video exn_str target_lang urls1 w).
  fold first. destruct first as [w1 results1] eqn:Hfirst.
  rewrite fold_batch_step. by subst second.
Qed.

(** X11. Running a batch made of two lists of jobs is running the first
    list, then the second one from the state the first one left; the
    outcomes are those of the first list followed by those of the
    second. *)
Theorem batch_loop_app target_lang urls1 urls2 w :
  let first := batch_loop process_video exn_str target_lang urls1 w in
  let second := batch_loop process_video exn_str target_lang urls2 first.1 in
  batch_loop process_video exn_str target_lang (urls1 ++ urls2) w
  = (second.1, first.2 ++ second.2).
Proof. exact (batch_loop_concat target_lang urls1 urls2 w). Qed.

End BatchMore.

Lemma batch_process_raises_example :
  batch_process Demo.open_lines Demo.process_video Demo.exn_str
    (py "missing.txt") (py "es") []
  = ([], Raise (FileNotFoundError (py "missing.txt"))).
Proof. vm_compute. reflexivity. Qed.

(** ** The rest of the pipeline *)

(** *** Voices *)

(** X12. The voice of a language is always a voice of [VOICE_MAP]: the one
    of the language code when the code is a key, otherwise the one of its
    first two characters when they are a key, otherwise the one of [es]. *)
Theorem voice_for_configured lang :
  ∃ key,
    VOICE_MAP !! key = Some (voice_for lang)
    ∧ (key = lang
       ∨ (VOICE_MAP !! lang = None ∧ key = take 2 lang)
       ∨ (VOICE_MAP !! lang = None ∧ VOICE_MAP !! take 2 lang = None
          ∧ key = py "es")).
Proof.
  unfold voice_for.
  destruct (VOICE_MAP !! lang) as [voice|] eqn:Hlang.
  { exists lang. split; [done|by left]. }
  destruct (VOICE_MAP !! take 2 lang) as [voice|] eqn:Hprefix.
  { exists (take 2 lang). split; [done|]. right. by left. }
  exists (py "es"). split; [by vm_compute|]. right. by right.
Qed.

(** *** Names and paths *)

Lemma startswith_single (d c : char) (rest : str) :
  startswith [d] (c :: rest) = (d =? c)%N.
Proof. unfold startswith. cbn [strip_prefix]. by destruct (d =? c)%N. Qed.

(** The pieces of a split at one character do not hold that character. *)
Lemma split_at_no_sep (d : char) piece s :
  d ∉ piece → Forall (λ p, d ∉ p) (split_at [d] 0 piece s).
Proof.
  revert piece. induction s as [|c s IH]; intros piece Hpiece;
    cbn [split_at].
  - by apply Forall_singleton.
  - rewrite startswith_single. destruct (d =? c)%N eqn:Hc.
    + apply Forall_cons. split; [done|]. apply IH, not_elem_of_nil.
    + apply IH. apply N.eqb_neq in Hc. intros Hin.
      apply elem_of_app in Hin as [Hin|Hin]; [done|].
      by apply list_elem_of_singleton in Hin.
Qed.

(** They hold characters of the string only. *)
Lemma split_at_chars (d : char) piece s :
  Forall (λ p, ∀ a, a ∈ p → a ∈ piece ∨ a ∈ s) (split_at [d] 0 piece s).
Proof.
  revert piece. induction s as [|c s IH]; intros piece; cbn [split_at].
  - apply Forall_singleton. by left.
  - rewrite startswith_single. destruct (d =? c)%N.
    + apply Forall_cons. split; [by left|].
      eapply Forall_impl; [apply IH|]. intros p Hp a Ha.
      destruct (Hp a Ha) as [Hnil|Hin]; [by apply elem_of_nil in Hnil|].
      right. by right.
    + eapply Forall_impl; [apply IH|]. intros p Hp a Ha.
      destruct (Hp a Ha) as [Hin|Hin]; [|right; by right].
      apply elem_of_app in Hin as [Hin|Hin]; [by left|].
      apply list_elem_of_singleton in Hin as ->. right. by left.
Qed.

(** A string without the character is one piece. *)
Lemma split_at_none (d : char) piece s :
  d ∉ s → split_at [d] 0 piece s = [piece ++ s].
Proof.
  revert piece. induction s as [|c s IH]; intros piece Hs; cbn [split_at].
  - by rewrite app_nil_r.
  - rewrite startswith_single.
    apply not_elem_of_cons in Hs as [Hc Hs].
    apply N.eqb_neq in Hc. rewrite Hc, IH by done. by rewrite <- app_assoc.
Qed.

Lemma head_Forall {A} (P : A → Prop) (l : list A) (d : A) :
  Forall P l → P d → P (default d (head l)).
Proof. by intros [|x l' Hx _]. Qed.

Lemma last_Forall {A} (P : A → Prop) (l : list A) (d : A) :
  Forall P l → P d → P (default d (last l)).
Proof.
  intros Hl Hd. destruct (last l) as [x|] eqn:Hlast; [|done].
  apply last_Some in Hlast as [l' ->].
  rewrite Forall_forall in Hl. apply Hl, elem_of_app. right.
  by apply list_elem_of_singleton.
Qed.

(** The shape of the name made for a URL. *)
Lemma default_output_name_shape url target_lang :
  ∃ video_id,
    default_output_name url target_lang
    = py "dubbed_" ++ video_id ++ py "_" ++ target_lang ++ py ".mp4"
    ∧ (contains (py "v=") url = false → (47%N ∉ video_id) ∧ (63%N ∉ video_id))
    ∧ (contains (py "v=") url = true → (38%N ∉ video_id)).
Proof.
  unfold default_output_name.
  destruct (contains (py "v=") url); eexists; (split; [reflexivity|]);
    (split; [|done || (intros _)]); try done.
  - apply (head_Forall (λ p, 38%N ∉ p)); [|apply not_elem_of_nil].
    apply (split_at_no_sep 38%N), not_elem_of_nil.
  - intros _.
    assert (Hlast : 47%N ∉ default [] (last (py_split (py "/") url))).
    { apply (last_Forall (λ p, 47%N ∉ p)); [|apply not_elem_of_nil].
      apply (split_at_no_sep 47%N), not_elem_of_nil. }
    split.
    + apply (head_Forall (λ p, 47%N ∉ p)); [|apply not_elem_of_nil].
      eapply Forall_impl; [apply (split_at_chars 63%N)|].
      intros p Hp Hin. destruct (Hp _ Hin) as [Hnil|Hurl]; [|done].
      by apply elem_of_nil in Hnil.
    + apply (head_Forall (λ p, 63%N ∉ p)); [|apply not_elem_of_nil].
      apply (split_at_no_sep 63%N), not_elem_of_nil.
Qed.

(** X13. The name made for a URL is [dubbed_<id>_<lang>.mp4]; when the URL
    holds no [v=] the id has no slash and no question mark, and when it
    holds one the id has no ampersand (but it may have slashes). *)
Theorem default_output_name_id url target_lang :
  ∃ video_id,
    default_output_name url target_lang
    = py "dubbed_" ++ video_id ++ py "_" ++ target_lang ++ py ".mp4"
    ∧ (contains (py "v=") url = false → (47%N ∉ video_id) ∧ (63%N ∉ video_id))
    ∧ (contains (py "v=") url = true → (38%N ∉ video_id)).
Proof. exact (default_output_name_shape url target_lang). Qed.

Lemma startswith_cons_ne (a c : char) (prefix s : str) :
  a ≠ c → startswith (a :: prefix) (c :: s) = false.
Proof.
  intros Hne. unfold startswith. cbn [strip_prefix].
  apply N.eqb_neq in Hne. by rewrite Hne.
Qed.

Lemma path_root_relative (name : str) : 47%N ∉ name → path_root name = [].
Proof.
  intros Hname. destruct name as [|c name]; [done|].
  apply not_elem_of_cons in Hname as [Hc _]. unfold path_root.
  change (py "///") with [47; 47; 47]%N. change (py "//") with [47; 47]%N.
  change (py "/") with [47]%N. by rewrite !startswith_cons_ne.
Qed.

(** For a name without slash, [OUTPUT_DIR / name] is [output/name]
    ([output] itself when the name is empty or a dot), never a direct entry
    of [TEMP_DIR]. *)
Theorem pathlib_join_simple (name : str) :
  47%N ∉ name →
  pathlib_join OUTPUT_DIR name
  = (if decide (name = [] ∨ name = py ".") then py "output"
     else path_join OUTPUT_DIR name)
  ∧ temp_child (pathlib_join OUTPUT_DIR name) = false.
Proof.
  intros Hname.
  assert (Hjoin : pathlib_join OUTPUT_DIR name
                  = (if decide (name = [] ∨ name = py ".") then py "output"
                     else path_join OUTPUT_DIR name)).
  { unfold pathlib_join. rewrite (path_root_relative name Hname).
    cbn [nonempty]. change (path_root OUTPUT_DIR) with (@nil char).
    change (path_parts OUTPUT_DIR) with [py "output"].
    unfold path_parts, py_split.
    change (split_at (py "/") 0 [] name) with (split_at [47%N] 0 [] name).
    replace (split_at [47%N] 0 [] name) with [[] ++ name]
      by (symmetry; apply (split_at_none 47%N [] name Hname)).
    cbn [app]. rewrite filter_cons, filter_nil.
    destruct (decide (name = [] ∨ name = py ".")) as [Hdot|Hdot].
    - rewrite decide_False; [done|]. intros [H1 H2].
      destruct Hdot; contradiction.
    - rewrite decide_True.
      2:{ split; intros ->; apply Hdot; [by left|by right]. }
      destruct name as [|c name]; [destruct Hdot; by left|]. done. }
  split; [done|]. rewrite Hjoin.
  by destruct (decide (name = [] ∨ name = py ".")).
Qed.

Lemma pathlib_join_simple_witness :
  pathlib_join OUTPUT_DIR (py "dubbed_abc_es.mp4")
  = (if decide (py "dubbed_abc_es.mp4" = [] ∨ py "dubbed_abc_es.mp4" = py ".")
     then py "output"
     else path_join OUTPUT_DIR (py "dubbed_abc_es.mp4"))
  ∧ temp_child (pathlib_join OUTPUT_DIR (py "dubbed_abc_es.mp4")) = false.
Proof.
  apply (pathlib_join_simple (py "dubbed_abc_es.mp4")).
  vm_compute. intros Hin. apply list_elem_of_In in Hin. simpl in Hin.
  repeat (destruct Hin as [Hin|Hin]; [discriminate Hin|]). done.
Defined.

(** *** The stages *)

Lemma bind_Ok_inv {A B} (m : M A) (k : A → M B) w w' b :
  bind m k w = (w', Ok b) → ∃ w1 a, m w = (w1, Ok a) ∧ k a w1 = (w', Ok b).
Proof.
  unfold bind. destruct (m w) as [w1 [a|e]]; [|done]. intros Hk.
  by exists w1, a.
Qed.

Lemma bind_is_raise {A B} (m : M A) (k : A → M B) w :
  is_raise (m w).2 = true →
  (bind m k w).1 = (m w).1 ∧ is_raise (bind m k w).2 = true
  ∧ ∀ e, (m w).2 = Raise e → (bind m k w).2 = Raise e.
Proof.
  unfold bind. destruct (m w) as [w1 [a|e]]; cbn [fst snd is_raise];
    [discriminate|]. intros _. split; [done|]. split; [done|].
  by intros e' [= ->].
Qed.

Section PipelineFacts.

Context {tools : Tools} {services : Services}.

(** X16. A transcript returned by [transcribe_audio] is what whisper heard,
    stripped: it neither starts nor ends with white space, and the world is
    as before. *)
Theorem transcribe_audio_stripped audio_path w w1 transcript :
  transcribe_audio audio_path w = (w1, Ok transcript) →
  w1 = w
  ∧ (∃ heard, whisper_transcribe audio_path (files w) = Ok heard
              ∧ transcript = strip heard)
  ∧ (∀ c, head transcript = Some c → is_space c = false)
  ∧ (∀ c, last transcript = Some c → is_space c = false).
Proof.
  unfold transcribe_audio.
  destruct (whisper_transcribe audio_path (files w)) as [heard|e]; [|done].
  intros [= <- <-]. split; [done|]. split; [by exists heard|].
  apply strip_clean.
Qed.

(** Making the directories changes nothing; it raises what the first
    failed [mkdir] raises. *)
Lemma ensure_directories_outcome w :
  ensure_directories w
  = (w, match mkdir_error OUTPUT_DIR (files w) with
        | Some e => Raise e
        | None =>
            match mkdir_error TEMP_DIR (files w) with
            | Some e => Raise e
            | None => Ok tt
            end
        end).
Proof.
  unfold ensure_directories, bind, mkdir.
  destruct (mkdir_error OUTPUT_DIR (files w)); [done|].
  by destruct (mkdir_error TEMP_DIR (files w)).
Qed.

Lemma cleanup_temp_listed w :
  iterdir_error TEMP_DIR (files w) = None →
  cleanup_temp w
  = ({| files := filter (λ kv, ¬ (temp_child kv.1 = true
                                  ∧ can_unlink kv.1 = true))
                   (files w);
        trace := trace w |},
     Ok tt).
Proof. intros Hlist. unfold cleanup_temp. by rewrite Hlist. Qed.

Lemma cleanup_temp_lookup w path :
  iterdir_error TEMP_DIR (files w) = None →
  files (cleanup_temp w).1 !! path
  = if temp_child path && can_unlink path then None else files w !! path.
Proof.
  intros Hlist. rewrite (cleanup_temp_listed w Hlist). cbn [fst files].
  destruct (temp_child path && can_unlink path) eqn:Hgone.
  - apply map_lookup_filter_None. right. intros data _ Hkeep. apply Hkeep.
    cbn [fst]. by apply andb_true_iff in Hgone.
  - destruct (files w !! path) as [data|] eqn:Hpath.
    + apply map_lookup_filter_Some. split; [done|]. cbn [fst].
      intros [Hchild Hunlink]. by rewrite Hchild, Hunlink in Hgone.
    + apply map_lookup_filter_None. by left.
Qed.

(** X17. [cleanup_temp] runs nothing and touches no file but the direct
    entries of [TEMP_DIR], those of [OUTPUT_DIR] being left alone.  When
    the listing of [TEMP_DIR] raises, [cleanup_temp] raises the same and
    removes nothing.  Otherwise it returns, having removed the direct
    entries that can be unlinked and no other file; an entry that cannot be
    unlinked is no error; and cleaning again, if the directory can still be
    listed, changes nothing. *)
Theorem cleanup_temp_effects w :
  let w' := (cleanup_temp w).1 in
  trace w' = trace w
  ∧ (∀ path, temp_child path = false → files w' !! path = files w !! path)
  ∧ (∀ e, iterdir_error TEMP_DIR (files w) = Some e →
          cleanup_temp w = (w, Raise e))
  ∧ (iterdir_error TEMP_DIR (files w) = None →
     (cleanup_temp w).2 = Ok tt
     ∧ (∀ path,
          files w' !! path
          = if temp_child path && can_unlink path then None
            else files w !! path)
     ∧ (iterdir_error TEMP_DIR (files w') = None →
        cleanup_temp w' = (w', Ok tt))).
Proof.
  intros w'. pose proof (cleanup_temp_lookup w) as Hlook. fold w' in Hlook.
  assert (Hsame : ∀ e, iterdir_error TEMP_DIR (files w) = Some e →
                       cleanup_temp w = (w, Raise e)).
  { intros e Hlist. unfold cleanup_temp. by rewrite Hlist. }
  destruct (iterdir_error TEMP_DIR (files w)) as [e|] eqn:Hlist.
  { subst w'. rewrite (Hsame e eq_refl). cbn [fst].
    split; [done|]. split; [done|]. split; [|done]. by intros e' [= <-]. }
  assert (Htrace : trace w' = trace w).
  { subst w'. by rewrite (cleanup_temp_listed w Hlist). }
  assert (Hok : (cleanup_temp w).2 = Ok tt).
  { by rewrite (cleanup_temp_listed w Hlist). }
  specialize (λ path, Hlook path eq_refl). clearbody w'.
  split; [done|]. split.
  { intros path Hchild. rewrite Hlook. by rewrite Hchild. }
  split; [done|]. intros _. split; [done|]. split; [done|].
  intros Hagain. rewrite (cleanup_temp_listed w' Hagain). f_equal.
  pose proof (cleanup_temp_lookup w') as Hsecond.
  rewrite (cleanup_temp_listed w' Hagain) in Hsecond. cbn [fst files] in Hsecond.
  assert (Hfiles : filter (λ kv : str * bytes,
                             ¬ (temp_child kv.1 = true
                                ∧ can_unlink kv.1 = true)) (files w')
                   = files w').
  { apply map_eq. intros path. rewrite (Hsecond path Hagain).
    destruct (temp_child path && can_unlink path) eqn:Hgone; [|done].
    by rewrite Hlook, Hgone. }
  rewrite Hfiles. by destruct w'.
Qed.

(** [process_video] once the directories are there. *)
Lemma process_video_try url target_lang output_name keep_temp w :
  (ensure_directories w).2 = Ok tt →
  process_video url target_lang output_name keep_temp w
  = try_finally (pipeline url target_lang output_name)
      (if keep_temp then ret tt else cleanup_temp) w.
Proof.
  intros Hdirs. unfold process_video.
  rewrite ensure_directories_outcome in Hdirs. cbn [snd] in Hdirs.
  rewrite (bind_Ok _ _ w w tt); [done|].
  rewrite ensure_directories_outcome. by rewrite Hdirs.
Qed.

(** [process_video] when a directory cannot be made. *)
Lemma process_video_no_directory url target_lang output_name keep_temp w e :
  (ensure_directories w).2 = Raise e →
  process_video url target_lang output_name keep_temp w = (w, Raise e).
Proof.
  intros Hdirs. unfold process_video.
  rewrite ensure_directories_outcome in Hdirs. cbn [snd] in Hdirs.
  apply bind_Raise. rewrite ensure_directories_outcome. by rewrite Hdirs.
Qed.

(** The files [process_video] ends with when it cleans. *)
Lemma process_video_clean_lookup url target_lang output_name w path :
  (ensure_directories w).2 = Ok tt →
  iterdir_error TEMP_DIR (files (pipeline url target_lang output_name w).1)
  = None →
  files (process_video url target_lang output_name false w).1 !! path
  = if temp_child path && can_unlink path then None
    else files (pipeline url target_lang output_name w).1 !! path.
Proof.
  intros Hdirs Hlist. rewrite (process_video_try _ _ _ _ _ Hdirs).
  unfold try_finally.
  destruct (pipeline url target_lang output_name w) as [w1 r].
  cbn [fst] in Hlist. pose proof (cleanup_temp_lookup w1 path Hlist) as Hclean.
  rewrite (cleanup_temp_listed w1 Hlist) in *. done.
Qed.

(** X18. The directories are made before the [try]: when that fails,
    [process_video] raises the failure and does nothing else, not even the
    cleaning.  Otherwise, keeping the temporary files or not changes
    nothing to what is run and rendered.  When they are kept, the outcome
    is the one of the stages.  When they are not, the cleaning comes last,
    on success and on failure alike: if the listing of [TEMP_DIR] raises,
    that exception is the outcome, even when the stages had succeeded, and
    no file is removed; if not, the outcome is the one of the stages and
    [process_video] ends with no direct entry of [TEMP_DIR] that can be
    unlinked, every other file being as the stages left it. *)
Theorem process_video_cleanup url target_lang output_name w :
  let kept := process_video url target_lang output_name true w in
  let cleaned := process_video url target_lang output_name false w in
  (∀ e, (ensure_directories w).2 = Raise e →
        kept = (w, Raise e) ∧ cleaned = (w, Raise e))
  ∧ ((ensure_directories w).2 = Ok tt →
     kept = pipeline url target_lang output_name w
     ∧ trace cleaned.1 = trace kept.1
     ∧ (∀ e, iterdir_error TEMP_DIR (files kept.1) = Some e →
             cleaned = (kept.1, Raise e))
     ∧ (iterdir_error TEMP_DIR (files kept.1) = None →
        cleaned.2 = kept.2
        ∧ ∀ path,
            files cleaned.1 !! path
            = if temp_child path && can_unlink path then None
              else files kept.1 !! path)).
Proof.
  intros kept cleaned. subst kept cleaned. split.
  - intros e Hdirs. by rewrite !(process_video_no_directory _ _ _ _ _ _ Hdirs).
  - intros Hdirs. rewrite !(process_video_try _ _ _ _ _ Hdirs).
    unfold try_finally, ret.
    destruct (pipeline url target_lang output_name w) as [w1 r].
    cbn [fst snd]. split; [done|].
    destruct (iterdir_error TEMP_DIR (files w1)) as [e|] eqn:Hlist.
    + unfold cleanup_temp. rewrite Hlist. split; [done|].
      split; [|done]. by intros e' [= <-].
    + pose proof (cleanup_temp_lookup w1) as Hclean.
      rewrite (cleanup_temp_listed w1 Hlist) in *. cbn [fst snd trace] in *.
      split; [done|]. split; [done|]. intros _. split; [done|].
      intros path. by apply Hclean.
Qed.

(** X19. When the directories are there and the download fails, that is
    the end of the stages: the only things run are the ones the download
    ran (nothing is transcribed, synthesised or rendered).  With the
    temporary files kept, [process_video] raises the exception of the
    download.  Otherwise it cleans: it raises the exception of the download
    after the cleaning, or the exception of the listing of [TEMP_DIR] when
    that one raises. *)
Theorem process_video_download_failure url target_lang output_name
    keep_temp w :
  (ensure_directories w).2 = Ok tt →
  is_raise (download_video url w).2 = true →
  let failed := download_video url w in
  let ended := process_video url target_lang output_name keep_temp w in
  ∃ e,
    failed.2 = Raise e
    ∧ trace ended.1 = trace failed.1
    ∧ (keep_temp = true → ended = (failed.1, Raise e))
    ∧ (keep_temp = false →
       match iterdir_error TEMP_DIR (files failed.1) with
       | Some e' => ended = (failed.1, Raise e')
       | None => ended = ((cleanup_temp failed.1).1, Raise e)
       end).
Proof.
  intros Hdirs Hfail failed ended. subst failed ended.
  rewrite (process_video_try _ _ _ _ _ Hdirs). unfold try_finally, pipeline.
  lazymatch goal with
  | |- context [bind (download_video url) ?k w] =>
      destruct (bind_is_raise (download_video url) k w Hfail)
        as (Hw & Hraise & He);
      destruct (bind (download_video url) k w) as [w1 r] eqn:Hbind
  end.
  cbn [fst snd] in *. subst w1.
  destruct (download_video url w) as [w1 [paths|e]]; [done|].
  cbn [fst snd] in *. rewrite (He e eq_refl). exists e. split; [done|].
  destruct keep_temp.
  - unfold ret. by repeat split.
  - destruct (iterdir_error TEMP_DIR (files w1)) as [e'|] eqn:Hlist.
    + unfold cleanup_temp. rewrite Hlist. by repeat split.
    + rewrite (cleanup_temp_listed w1 Hlist). by repeat split.
Qed.

(** X20. When the directories are there, the stages succeed for an output
    name without slash (the name given, or the one made for the URL) and
    [TEMP_DIR] can be listed afterwards, [process_video] returns
    [OUTPUT_DIR / name]; the last thing done is the render of
    [temp/source_video.mp4] to that path, and the file at that path is not
    touched by the cleaning of the temporary files. *)
Theorem process_video_output url target_lang output_name w returned :
  (ensure_directories w).2 = Ok tt →
  (pipeline url target_lang output_name w).2 = Ok returned →
  let name :=
    match output_name with
    | Some output_name => output_name
    | None => default_output_name url target_lang
    end in
  47%N ∉ name →
  let w1 := (pipeline url target_lang output_name w).1 in
  iterdir_error TEMP_DIR (files w1) = None →
  let ended := process_video url target_lang output_name false w in
  returned = pathlib_join OUTPUT_DIR name
  ∧ ended.2 = Ok returned
  ∧ files ended.1 !! returned = files w1 !! returned
  ∧ ∃ final_video,
      last (trace ended.1) = Some (Render final_video returned)
      ∧ v_path final_video = path_join TEMP_DIR (py "source_video.mp4").
Proof.
  intros Hdirs Hok name Hname w1 Hlist ended. subst w1 ended.
  rewrite (process_video_try _ _ _ _ _ Hdirs). unfold try_finally.
  destruct (pipeline url target_lang output_name w) as [w1 r] eqn:Hpipe.
  cbn [fst snd] in *. subst r.
  pose proof (cleanup_temp_lookup w1) as Hclean.
  rewrite (cleanup_temp_listed w1 Hlist) in *. cbn [fst snd files trace] in *.
  revert Hpipe. unfold pipeline. fold name.
  intros (w2 & [video_path audio_path] & Hdownload & Hrest)%bind_Ok_inv.
  apply bind_Ok_inv in Hrest as (w3 & transcript & _ & Hrest).
  apply bind_Ok_inv in Hrest as (w4 & translated & _ & Hrest).
  apply bind_Ok_inv in Hrest as (w5 & seconds & _ & Hrest).
  apply bind_Ok_inv in Hrest as (w6 & mixed & Hmix & Hret).
  unfold ret in Hret. injection Hret as <- <-.
  assert (Hvideo : video_path = path_join TEMP_DIR (py "source_video.mp4")).
  { revert Hdownload. unfold download_video, bind, run, ret.
    destruct (subprocess_run _ (files w)) as [fs [e|]]; [done|].
    cbn [files trace]. destruct (subprocess_run _ fs) as [fs' [e|]];
      [done|]. by intros [= _ <- _]. }
  destruct (mix_audio_b64_success_events _ _ _ _ _ _ _ _ Hmix)
    as (_ & video & dubbed_audio & fitted & w7 & _ & _ & _ & Htrace & _).
  destruct (pathlib_join_simple name Hname) as [_ Hchild].
  split; [done|]. split; [done|]. split.
  - rewrite (Hclean _ Hlist). by rewrite Hchild.
  - eexists. split; [rewrite Htrace; apply last_snoc|]. by rewrite Hvideo.
Qed.

End PipelineFacts.

Lemma transcribe_audio_stripped_witness :
  let audio_path := path_join TEMP_DIR (py "source_audio.wav") in
  let w := {| files := {[audio_path := [x00]]}; trace := [] |} in
  w = w
  ∧ (∃ heard, whisper_transcribe (Services := Studio.services) audio_path
                (files w) = Ok heard
              ∧ py "Hello world." = strip heard)
  ∧ (∀ c, head (py "Hello world.") = Some c → is_space c = false)
  ∧ (∀ c, last (py "Hello world.") = Some c → is_space c = false).
Proof.
  apply (transcribe_audio_stripped (services := Studio.services)
           (path_join TEMP_DIR (py "source_audio.wav"))
           {| files := {[path_join TEMP_DIR (py "source_audio.wav") := [x00]]};
              trace := [] |}).
  run_demo.
Defined.

Lemma process_video_download_failure_witness :
  let failed :=
    download_video (tools := Studio.tools) Studio.bad_url Studio.empty_world in
  let ended :=
    process_video (tools := Studio.tools) (services := Studio.services)
      Studio.bad_url (py "es") None false Studio.empty_world in
  ∃ e,
    failed.2 = Raise e
    ∧ trace ended.1 = trace failed.1
    ∧ (false = true → ended = (failed.1, Raise e))
    ∧ (false = false →
       match iterdir_error (Services := Studio.services) TEMP_DIR
               (files failed.1) with
       | Some e' => ended = (failed.1, Raise e')
       | None =>
           ended = ((cleanup_temp (services := Studio.services) failed.1).1,
                    Raise e)
       end).
Proof.
  apply (process_video_download_failure (tools := Studio.tools)
           (services := Studio.services) Studio.bad_url (py "es") None false
           Studio.empty_world); run_demo.
Defined.

Lemma process_video_output_witness :
  let w1 :=
    (pipeline (tools := Studio.tools) (services := Studio.services)
       Studio.url (py "es") None Studio.empty_world).1 in
  let ended :=
    process_video (tools := Studio.tools) (services := Studio.services)
      Studio.url (py "es") None false Studio.empty_world in
  Studio.output_path
  = pathlib_join OUTPUT_DIR (default_output_name Studio.url (py "es"))
  ∧ ended.2 = Ok Studio.output_path
  ∧ files ended.1 !! Studio.output_path = files w1 !! Studio.output_path
  ∧ ∃ final_video,
      last (trace ended.1) = Some (Render final_video Studio.output_path)
      ∧ v_path final_video = path_join TEMP_DIR (py "source_video.mp4").
Proof.
  apply (process_video_output (tools := Studio.tools)
           (services := Studio.services) Studio.url (py "es") None
           Studio.empty_world Studio.output_path).
  - run_demo.
  - run_demo.
  - decide_demo.
  - run_demo.
Defined.

(** The whole run: the output is there, the temporary files are not. *)
Example process_video_run :
  let ended :=
    process_video (tools := Studio.tools) (services := Studio.services)
      Studio.url (py "es") None false Studio.empty_world in
  ended.2 = Ok Studio.output_path
  ∧ files ended.1 = {[Studio.output_path := [x01; x00; x00; x00; x00]]}
  ∧ length (trace ended.1) = 3%nat.
Proof. vm_compute. repeat split; reflexivity. Qed.

(** A regular file named [temp]: the directory cannot be made, and
    [process_video] stops there, whether it was to clean or not. *)
Example process_video_temp_is_a_file :
  let w := {| files := {[TEMP_DIR := [x00]]}; trace := [] |} in
  process_video (tools := Studio.tools) (services := Studio.services)
    Studio.url (py "es") None false w = (w, Raise (OSError TEMP_DIR))
  ∧ process_video (tools := Studio.tools) (services := Studio.services)
      Studio.url (py "es") None true w = (w, Raise (OSError TEMP_DIR)).
Proof. vm_compute. split; reflexivity. Qed.

(** A listing of [TEMP_DIR] that fails takes the place of the result: the
    video is rendered, the temporary files stay, and [process_video]
    raises. *)
Example process_video_listing_fails :
  let unlistable : Services :=
    {| whisper_transcribe := whisper_transcribe (Services := Studio.services);
       translate_for := translate_for (Services := Studio.services);
       edge_tts_save := edge_tts_save (Services := Studio.services);
       mp3_milliseconds := mp3_milliseconds (Services := Studio.services);
       can_unlink := λ _, true;
       mkdir_error := λ _ _, None;
       iterdir_error := λ path _, Some (OSError path) |} in
  let ended :=
    process_video (tools := Studio.tools) (services := unlistable)
      Studio.url (py "es") None false Studio.empty_world in
  ended.2 = Raise (OSError TEMP_DIR)
  ∧ is_Some (files ended.1 !! Studio.output_path)
  ∧ is_Some (files ended.1 !! path_join TEMP_DIR (py "source_video.mp4")).
Proof. vm_compute. split; [done|]. split; eexists; reflexivity. Qed.

(** X14. For a URL without [v=] and a language code without slash, the
    name made for the output has no slash: the video is written directly in
    [OUTPUT_DIR], at [output/dubbed_<id>_<lang>.mp4]. *)
Theorem default_output_path url target_lang :
  contains (py "v=") url = false →
  47%N ∉ target_lang →
  let name := default_output_name url target_lang in
  (47%N ∉ name)
  ∧ pathlib_join OUTPUT_DIR name = path_join OUTPUT_DIR name
  ∧ temp_child (pathlib_join OUTPUT_DIR name) = false.
Proof.
  intros Hurl Hlang name.
  destruct (default_output_name_shape url target_lang)
    as (video_id & Hname & Hid & _).
  destruct (Hid Hurl) as [Hslash _]. fold name in Hname.
  assert (Hno : 47%N ∉ name).
  { rewrite Hname. intros Hin.
    apply elem_of_app in Hin as [Hin|Hin]; [revert Hin; decide_demo|].
    apply elem_of_app in Hin as [Hin|Hin]; [done|].
    apply elem_of_app in Hin as [Hin|Hin]; [revert Hin; decide_demo|].
    apply elem_of_app in Hin as [Hin|Hin]; [done|].
    revert Hin. decide_demo. }
  destruct (pathlib_join_simple name Hno) as [Hjoin Hchild].
  split; [done|]. split; [|done]. rewrite Hjoin.
  rewrite decide_False; [done|]. rewrite Hname. intros [Hnil|Hdot].
  - discriminate Hnil.
  - discriminate Hdot.
Qed.

Lemma default_output_path_witness :
  let name := default_output_name Studio.url (py "es") in
  (47%N ∉ name)
  ∧ pathlib_join OUTPUT_DIR name = path_join OUTPUT_DIR name
  ∧ temp_child (pathlib_join OUTPUT_DIR name) = false.
Proof.
  apply (default_output_path Studio.url (py "es")).
  - run_demo.
  - decide_demo.
Defined.

Section BatchOfVideos.

Context {tools : Tools} {services : Services}.
Variable exn_str : exn → str.

(** X21. A batch of videos leaves no temporary file behind.  After
    [batch_process]'s loop, each job being [process_video(url,
    target_lang)], no direct entry of [TEMP_DIR] that can be unlinked is
    left, whether the jobs failed or not, provided that the last job could
    make the two directories and list [TEMP_DIR] at its end. *)
Theorem batch_loop_cleans target_lang urls url w :
  let job := λ url target_lang, process_video url target_lang None false in
  let w1 := (batch_loop job exn_str target_lang urls w).1 in
  (ensure_directories w1).2 = Ok tt →
  iterdir_error TEMP_DIR (files (pipeline url target_lang None w1).1)
  = None →
  let ended := (batch_loop job exn_str target_lang (urls ++ [url]) w).1 in
  ∀ path,
    temp_child path = true → can_unlink path = true →
    files ended !! path = None.
Proof.
  intros job w1 Hdirs Hlist ended path Hchild Hunlink. subst ended w1.
  rewrite (batch_loop_concat _ exn_str). cbn [fst].
  destruct (batch_loop job exn_str target_lang urls w) as [w1 results1].
  cbn [fst] in *. unfold batch_loop. cbn [fold_left]. unfold batch_step.
  pose proof (process_video_clean_lookup url target_lang None w1 path
                Hdirs Hlist) as Hclean.
  rewrite Hchild, Hunlink in Hclean. subst job. cbn beta.
  by destruct (process_video url target_lang None false w1) as [w2 [out|e]].
Qed.

End BatchOfVideos.

Lemma batch_loop_cleans_witness :
  files
    (batch_loop
       (λ url target_lang,
          process_video (tools := Studio.tools) (services := Studio.services)
            url target_lang None false)
       Demo.exn_str (py "es") ([Studio.url] ++ [Studio.bad_url])
       Studio.empty_world).1
  !! path_join TEMP_DIR (py "source_video.mp4") = None.
Proof.
  apply (batch_loop_cleans (tools := Studio.tools)
           (services := Studio.services) Demo.exn_str (py "es")
           [Studio.url] Studio.bad_url Studio.empty_world);
    run_demo.
Defined.
